(** * encode_dcc_trim_adapter.py: the ENCODE DCC adapter trimmer wrapper

    A shallow embedding of [src/encode_dcc_trim_adapter.py] and the
    properties of its batch orchestration: command-line matrices and
    their validation ([parse_arguments]), the two task bodies
    ([trim_adapter_se], [trim_adapter_pe]) and the two-phase driver
    ([main]) that runs detection and trimming on a process pool and
    writes the manifest.

    Conventions.
    - Python [str] is [string]; Python [int] is [Z]; a Python list is a
      [list], indexed with stdpp's lookup and updated with its insert,
      the [IndexError] of an index out of range written out.
    - An exception is a value of [exn]; a computation that may raise
      returns a [result].
    - Logging ([log.info], [log.setLevel]) has no effect on any value
      the program computes and is left out. *)

From Stdlib Require Import ZArith DecimalString Ascii String.
From stdpp Require Import base list strings.

Local Open Scope string_scope.
Local Open Scope Z_scope.
Local Open Scope list_scope.
Local Open Scope stdpp_scope.

(** ** Exceptions and results *)

Inductive exn : Type :=
| ArgumentTypeError (msg : string)
| IndexError
| TypeError
| ValueError
| OSError (msg : string)
| Exception (msg : string).

Inductive result (A : Type) : Type :=
| Return (a : A)
| Raise (e : exn).

Arguments Return {A} a.
Arguments Raise {A} e.

(** Sequencing: an exception raised by [m] ends the computation. *)
Definition bind {A B} (m : result A) (k : A → result B) : result B :=
  match m with
  | Return a => k a
  | Raise e => Raise e
  end.

Declare Scope result_scope.
Delimit Scope result_scope with result.
Notation "x <- m ;; k" := (bind m (fun x => k))
  (at level 100, m at next level, right associativity,
   format "'[v' x  <-  m  ;; '/' k ']'") : result_scope.
Local Open Scope result_scope.

(** The exception of a result, if it is one. *)
Definition raised {A} (r : result A) : option exn :=
  match r with Return _ => None | Raise e => Some e end.

(** The value of a result, if it is one. *)
Definition returned {A} (r : result A) : option A :=
  match r with Return a => Some a | Raise _ => None end.

(** ** Python strings and [os.path] *)

(** Truth value of a string: [if adapter:]. *)
Definition truthy (s : string) : bool :=
  match s with EmptyString => false | String _ _ => true end.

(** [s.endswith(suffix)] *)
Fixpoint endswith (s suffix : string) : bool :=
  if String.eqb s suffix then true
  else match s with
       | EmptyString => false
       | String _ s' => endswith s' suffix
       end.

(** [s.startswith(pre)] *)
Definition startswith (s pre : string) : bool := String.prefix pre s.

Definition sep : ascii := "/"%char.

Fixpoint has_sep (p : string) : bool :=
  match p with
  | EmptyString => false
  | String c p' => if Ascii.eqb c sep then true else has_sep p'
  end.

(** [os.path.basename(p)]: what follows the last ['/'] of [p]. *)
Fixpoint basename (p : string) : string :=
  match p with
  | EmptyString => EmptyString
  | String c p' =>
      if has_sep p' then basename p'
      else if Ascii.eqb c sep then p' else p
  end.

(** [os.path.join(a, b)] of [posixpath], for two components. *)
Definition os_path_join (a b : string) : string :=
  if startswith b "/" then b
  else if negb (truthy a) || endswith a "/" then a +:+ b
  else a +:+ "/" +:+ b.

(** ['{}'.format(n)] for an [int]. *)
Definition str_int (n : Z) : string := NilZero.string_of_int (Z.to_int n).

(** [str(v)] for the value a detection task returns: an adapter or
    [None]. *)
Definition str_adapter (v : option string) : string :=
  match v with
  | None => "None"
  | Some s => s
  end.

(** ** Calls to the helpers of [encode_dcc_common] and [os]

    A task body computes its strings, calls a helper once or twice and
    returns a path computed before the call.  It is embedded as the
    sequence of helper calls it makes, in order, with the value it
    returns when none of them raises. *)

Inductive call : Type :=
| run_shell_cmd (cmd : string)
| os_link (src dst : string).

Definition is_shell (c : call) : bool :=
  match c with run_shell_cmd _ => true | os_link _ _ => false end.

Section TaskBodies.

(** The value of [--err-rate] is a Python [float]; only its
    formatting by ['{}'.format] is used. *)
Context {float : Type} (str_float : float → string).

(** [strip_ext_fastq] of [encode_dcc_common], which is not part of
    the source at hand. *)
Variable strip_ext_fastq : string → string.

Definition min_len_option (min_trim_len : Z) : string :=
  if 0 <? min_trim_len then "-m " +:+ str_int min_trim_len else "".

Definition trim_adapter_se
    (fastq adapter : string) (min_trim_len : Z) (err_rate : float)
    (out_dir : string) : list call * string :=
  if truthy adapter then
    let prefix := os_path_join out_dir (basename (strip_ext_fastq fastq)) in
    let trimmed := prefix +:+ ".trim.fastq.gz" in
    let cmd :=
      "cutadapt " +:+ min_len_option min_trim_len +:+
      " -e " +:+ str_float err_rate +:+
      " -a " +:+ adapter +:+
      " " +:+ fastq +:+
      " | gzip -nc > " +:+ trimmed in
    ([run_shell_cmd cmd], trimmed)
  else
    let linked := os_path_join out_dir (basename fastq) in
    ([os_link fastq linked], linked).

Definition trim_adapter_pe
    (fastq1 fastq2 adapter1 adapter2 : string) (min_trim_len : Z)
    (err_rate : float) (out_dir : string) : list call * list string :=
  if truthy adapter1 && truthy adapter2 then
    let prefix1 := os_path_join out_dir (basename (strip_ext_fastq fastq1)) in
    let prefix2 := os_path_join out_dir (basename (strip_ext_fastq fastq2)) in
    let trimmed1 := prefix1 +:+ ".trim.fastq.gz" in
    let trimmed2 := prefix2 +:+ ".trim.fastq.gz" in
    let cmd :=
      "cutadapt " +:+ min_len_option min_trim_len +:+
      " -e " +:+ str_float err_rate +:+
      " -a " +:+ adapter1 +:+ " -A " +:+ adapter2 +:+
      " " +:+ fastq1 +:+ " " +:+ fastq2 +:+
      " -o " +:+ trimmed1 +:+ " -p " +:+ trimmed2 in
    ([run_shell_cmd cmd], [trimmed1; trimmed2])
  else
    let linked1 := os_path_join out_dir (basename fastq1) in
    let linked2 := os_path_join out_dir (basename fastq2) in
    ([os_link fastq1 linked1; os_link fastq2 linked2], [linked1; linked2]).

End TaskBodies.

(** ** The command line and [parse_arguments] *)

(** A row of [args.adapters].  After the [--adapters] branch that does
    not read a TSV, [args.adapters] is still the list of strings given
    on the command line, so that a "row" is a [str]: [len] counts its
    characters, indexing gives a one-character string, assignment to an
    index raises [TypeError]. *)
Inductive adapter_row : Type :=
| row_list (cells : list string)
| row_str (s : string).

Definition row_len (r : adapter_row) : nat :=
  match r with
  | row_list cells => length cells
  | row_str s => String.length s
  end.

(** [l[i]] *)
Definition index {A} (l : list A) (i : nat) : result A :=
  match l !! i with
  | Some a => Return a
  | None => Raise IndexError
  end.

(** [r[j]] *)
Definition row_get (r : adapter_row) (j : nat) : result string :=
  match r with
  | row_list cells => index cells j
  | row_str s =>
      match String.get j s with
      | Some c => Return (String c EmptyString)
      | None => Raise IndexError
      end
  end.

(** [r[j] = v] *)
Definition row_set (r : adapter_row) (j : nat) (v : string)
    : result adapter_row :=
  match r with
  | row_list cells =>
      if bool_decide (j < length cells)%nat
      then Return (row_list (<[j := v]> cells))
      else Raise IndexError
  | row_str _ => Raise TypeError
  end.

(** [adapters[i][j] = v] *)
Definition matrix_set (adapters : list adapter_row) (i j : nat) (v : string)
    : result (list adapter_row) :=
  r <- index adapters i;;
  r' <- row_set r j v;;
  Return (<[i := r']> adapters).

(** What [parser.parse_args()] returns: the arguments as given.
    [nargs='+'] makes [fastqs] a non-empty list and [adapters] either
    [None] or a non-empty list. *)
Record cmdline {float : Type} : Type := {
  arg_fastqs : list string;
  arg_auto_detect_adapter : bool;
  arg_min_trim_len : Z;
  arg_err_rate : float;
  arg_adapters : option (list string);
  arg_paired_end : bool;
  arg_nth : Z;
  arg_out_dir : string;
  arg_out_tsv : string
}.
Arguments cmdline : clear implicits.

(** What [parse_arguments] returns: [fastqs] and [adapters] replaced
    by matrices. *)
Record namespace {float : Type} : Type := {
  fastqs : list (list string);
  adapters : list adapter_row;
  auto_detect_adapter : bool;
  min_trim_len : Z;
  err_rate : float;
  paired_end : bool;
  nth : Z;
  out_dir : string;
  out_tsv : string
}.
Arguments namespace : clear implicits.

Definition need_2_fastqs : string :=
  "Need 2 fastqs per replicate for paired end.".
Definition need_1_fastq : string :=
  "Need 1 fastq per replicate for single end.".
Definition dimension_mismatch : string :=
  "fastqs and adapters dimension mismatch.".

(** The loop of lines 76-85 from index [i] on; [rest] is
    [args.fastqs[i:]]. *)
Fixpoint check_rows (paired_end : bool) (adapters : list adapter_row)
    (i : nat) (rest : list (list string)) : result unit :=
  match rest with
  | [] => Return ()
  | fastqs_i :: rest' =>
      if paired_end && negb (length fastqs_i =? 2)%nat then
        Raise (ArgumentTypeError need_2_fastqs)
      else if negb paired_end && negb (length fastqs_i =? 1)%nat then
        Raise (ArgumentTypeError need_1_fastq)
      else
        adapters_i <- index adapters i;;
        if negb (length fastqs_i =? row_len adapters_i)%nat then
          Raise (ArgumentTypeError dimension_mismatch)
        else check_rows paired_end adapters (S i) rest'
  end.

(** Lines 72-85: check that fastqs and adapters have the same and the
    correct dimension. *)
Definition check_dimension (paired_end : bool)
    (fastqs : list (list string)) (adapters : list adapter_row)
    : result unit :=
  if negb (length adapters =? length fastqs)%nat then
    Raise (ArgumentTypeError dimension_mismatch)
  else check_rows paired_end adapters 0 fastqs.

Section ParseArguments.

Context {float : Type}.

(** [read_tsv] of [encode_dcc_common] and [os.path.exists], as the
    file system answers them when the arguments are parsed. *)
Variable read_tsv : string → result (list (list string)).
Variable os_path_exists : string → bool.

(** Lines 52-56: parse the fastqs command line. *)
Definition parse_fastqs (given : list string)
    : result (list (list string)) :=
  f0 <- index given 0;;
  if endswith f0 ".gz" then Return ((λ f, [f]) <$> given)
  else read_tsv f0.

(** Lines 58-63: parse the [--adapters] command line.  Returns the
    new [args.fastqs] and [args.adapters]; the second branch assigns
    the matrix of adapters to [args.fastqs] and leaves
    [args.adapters] a list of strings. *)
Definition parse_adapters (fastqs : list (list string))
    (given : option (list string))
    : result (list (list string) * option (list adapter_row)) :=
  match given with
  | None | Some [] => Return (fastqs, None)
  | Some ((a0 :: _) as given) =>
      if os_path_exists a0 then
        rows <- read_tsv a0;;
        Return (fastqs, Some (row_list <$> rows))
      else
        Return ((λ a, [a]) <$> given, Some (row_str <$> given))
  end.

(** Lines 65-70: if adapters are not given, the adapter matrix is a
    copy of the fastq matrix with every cell the empty string. *)
Definition fill_adapters (fastqs : list (list string))
    (adapters : option (list adapter_row)) : list adapter_row :=
  match adapters with
  | None | Some [] => (λ row, row_list ((λ _, "") <$> row)) <$> fastqs
  | Some rows => rows
  end.

Definition parse_arguments (cl : cmdline float)
    : result (namespace float) :=
  fastqs0 <- parse_fastqs (arg_fastqs cl);;
  parsed <- parse_adapters fastqs0 (arg_adapters cl);;
  let '(fastqs1, adapters0) := parsed in
  let adapters1 := fill_adapters fastqs1 adapters0 in
  _ <- check_dimension (arg_paired_end cl) fastqs1 adapters1;;
  Return {|
    fastqs := fastqs1;
    adapters := adapters1;
    auto_detect_adapter := arg_auto_detect_adapter cl;
    min_trim_len := arg_min_trim_len cl;
    err_rate := arg_err_rate cl;
    paired_end := arg_paired_end cl;
    nth := arg_nth cl;
    out_dir := arg_out_dir cl;
    out_tsv := arg_out_tsv cl
  |}.

End ParseArguments.

(** ** The process pool

    [multiprocessing.Pool]: [apply_async] queues a task and returns a
    handle, a worker runs each queued task once, [get] on a handle waits
    for its task and returns its value or raises its exception again.
    The order in which the workers finish the tasks is not fixed by the
    program: it is a parameter of the model, a list of handles, and
    every property of a run is proved for all such lists.  A task is
    run as a whole against the world: the helper calls of two tasks are
    not interleaved. *)

(** The main thread queuing tasks: the state is the queue, a handle is
    the position of its task in the queue.  An exception in the main
    thread leaves the tasks queued so far in the pool. *)
Definition submit (T A : Type) : Type := list T → list T * result A.

Definition submit_ret {T A} (a : A) : submit T A := λ queue, (queue, Return a).

Definition submit_bind {T A B} (m : submit T A) (k : A → submit T B)
    : submit T B :=
  λ queue,
    match m queue with
    | (queue', Return a) => k a queue'
    | (queue', Raise e) => (queue', Raise e)
    end.

Definition apply_async {T} (t : T) : submit T nat :=
  λ queue, (queue ++ [t], Return (length queue)).

Definition lift {T A} (r : result A) : submit T A := λ queue, (queue, r).

Declare Scope submit_scope.
Delimit Scope submit_scope with submit.
Notation "x <- m ;; k" := (submit_bind m (fun x => k))
  (at level 100, m at next level, right associativity) : submit_scope.

Section Pool.

Context {world T R : Type}.

(** The function of a task, run by a worker on the task's arguments
    against the operating system. *)
Variable body : T → world → world * result R.

Record slot : Type := { job : T; outcome : option (result R) }.

(** The operating system, the tasks of the pool with the outcome of
    those that have run, and the handles in the order their tasks
    finished, each with the exception its task raised, if any. *)
Record pool : Type := {
  os : world;
  slots : list slot;
  finished : list (nat * option exn)
}.

Definition new_pool (w : world) (queue : list T) : pool :=
  {| os := w;
     slots := (λ t, {| job := t; outcome := None |}) <$> queue;
     finished := [] |}.

(** A worker runs the task of handle [h], unless it has run. *)
Definition work (h : nat) (p : pool) : pool :=
  match slots p !! h with
  | Some {| job := t; outcome := None |} =>
      let '(w', r) := body t (os p) in
      {| os := w';
         slots := <[h := {| job := t; outcome := Some r |}]> (slots p);
         finished := finished p ++ [(h, raised r)] |}
  | _ => p
  end.

(** The workers run tasks in the order [sched], while the main thread
    does something else. *)
Definition run_sched (sched : list nat) (p : pool) : pool :=
  foldl (λ p h, work h p) p sched.

(** [ret_val.get(BIG_INT)]: wait until the task has run.  The main
    thread only has handles [apply_async] gave it; the last case, a
    number that is no handle of the pool, is there for totality. *)
Definition get (h : nat) (p : pool) : pool * result R :=
  let p' := work h p in
  match slots p' !! h with
  | Some {| outcome := Some r |} => (p', r)
  | _ => (p', Raise ValueError)
  end.

(** A loop of the main thread over handles, [k] being what it does
    with each value it gets. *)
Fixpoint get_each {S K} (k : S → K → R → result S)
    (handles : list (K * nat)) (acc : S) (p : pool) : pool * result S :=
  match handles with
  | [] => (p, Return acc)
  | (key, h) :: handles' =>
      let '(p', r) := get h p in
      match (v <- r ;; k acc key v) with
      | Return acc' => get_each k handles' acc' p'
      | Raise e => (p', Raise e)
      end
  end.

End Pool.

(** ** [main] *)

(** [for i in range(n)] and [for i, x in enumerate(l)] in the main
    thread while it queues tasks. *)
Fixpoint for_each {T S X} (step : S → X → submit T S) (xs : list X) (acc : S)
    : submit T S :=
  match xs with
  | [] => submit_ret acc
  | x :: xs' => (acc' <- step acc x ;; for_each step xs' acc')%submit
  end.

Fixpoint enumerate_from {A} (i : nat) (l : list A) : list (nat * A) :=
  match l with
  | [] => []
  | x :: l' => (i, x) :: enumerate_from (S i) l'
  end.

Definition enumerate {A} (l : list A) : list (nat * A) := enumerate_from 0 l.

(** The handles of [ret_vals] in the order of the two nested
    [enumerate] loops, each with its indices [(i, j)]. *)
Definition enumerate2 {A} (ll : list (list A)) : list ((nat * nat) * A) :=
  concat ((λ '(i, l), (λ '(j, x), ((i, j), x)) <$> enumerate l) <$> enumerate ll).

Inductive phase : Type := detection | trimming.

(** What can be observed of a run of [main]. *)
Inductive event : Type :=
| mkdir_p_called (dir : string)
| pool_made (num_process : Z)
| task_done (ph : phase) (handle : nat) (raised : option exn)
| write_tsv_called (tsv : string) (rows : list (list string)).

Record run (world : Type) : Type := {
  last : world;
  log : list event;
  exit : result unit
}.
Arguments last {world} r.
Arguments log {world} r.
Arguments exit {world} r.

(** The arguments of a queued [trim_adapter_se] and [trim_adapter_pe]. *)
Record se_args {float : Type} : Type := {
  se_fastq : string;
  se_adapter : string;
  se_min_trim_len : Z;
  se_err_rate : float;
  se_out_dir : string
}.
Arguments se_args : clear implicits.

Record pe_args {float : Type} : Type := {
  pe_fastq1 : string;
  pe_fastq2 : string;
  pe_adapter1 : string;
  pe_adapter2 : string;
  pe_min_trim_len : Z;
  pe_err_rate : float;
  pe_out_dir : string
}.
Arguments pe_args : clear implicits.

Section Main.

Context {float world : Type}.
Variable str_float : float → string.
Variable strip_ext_fastq : string → string.
Variable read_tsv : string → result (list (list string)).
Variable os_path_exists : string → bool.

(** The operating system under [run_shell_cmd] and [os.link], the
    detector of [detect_adapter], [mkdir_p] and [write_tsv] of
    [encode_dcc_common]: each may change the world and may raise. *)
Variable run_call : call → world → world * result unit.
Variable detect_most_likely_adapter :
  string → world → world * result (option string).
Variable mkdir_p : string → world → world * result unit.
Variable write_tsv :
  string → list (list string) → world → world * result unit.

Fixpoint run_calls (calls : list call) (w : world) : world * result unit :=
  match calls with
  | [] => (w, Return ())
  | c :: calls' =>
      let '(w', r) := run_call c w in
      match r with
      | Return _ => run_calls calls' w'
      | Raise e => (w', Raise e)
      end
  end.

(** A worker running a task body. *)
Definition run_body {A} (b : list call * A) (w : world)
    : world * result A :=
  let '(w', r) := run_calls b.1 w in
  (w', _ <- r ;; Return b.2).

Definition run_se (t : se_args float) : world → world * result string :=
  run_body (trim_adapter_se str_float strip_ext_fastq
              (se_fastq t) (se_adapter t) (se_min_trim_len t)
              (se_err_rate t) (se_out_dir t)).

Definition run_pe (t : pe_args float)
    : world → world * result (list string) :=
  run_body (trim_adapter_pe str_float strip_ext_fastq
              (pe_fastq1 t) (pe_fastq2 t) (pe_adapter1 t) (pe_adapter2 t)
              (pe_min_trim_len t) (pe_err_rate t) (pe_out_dir t)).

(** Lines 150-153. *)
Definition num_process (args : namespace float) : Z :=
  if paired_end args then Z.min (2 * Z.of_nat (length (fastqs args))) (nth args)
  else Z.min (Z.of_nat (length (fastqs args))) (nth args).

(** [args.auto_detect_adapter and not (adapters[0] and adapters[1])];
    [and] evaluates its right operand only when the left one is
    true. *)
Definition detect_pe (auto : bool) (adapters_i : adapter_row)
    : result bool :=
  if auto then
    a0 <- row_get adapters_i 0 ;;
    if truthy a0 then a1 <- row_get adapters_i 1 ;; Return (negb (truthy a1))
    else Return true
  else Return false.

(** [args.auto_detect_adapter and not adapters[0]] *)
Definition detect_se (auto : bool) (adapters_i : adapter_row)
    : result bool :=
  if auto then a0 <- row_get adapters_i 0 ;; Return (negb (truthy a0))
  else Return false.

(** Lines 160-179, the body of the loop for one [i]; the tasks are
    the fastqs given to [detect_most_likely_adapter]. *)
Definition detect_group (args : namespace float)
    (ret_vals : list (list nat)) (i : nat)
    : submit string (list (list nat)) :=
  (fastqs_i <- lift (index (fastqs args) i) ;;
   adapters_i <- lift (index (adapters args) i) ;;
   if paired_end args then
     yes <- lift (detect_pe (auto_detect_adapter args) adapters_i) ;;
     if (yes : bool) then
       f0 <- lift (index fastqs_i 0) ;;
       ret_val1 <- apply_async f0 ;;
       f1 <- lift (index fastqs_i 1) ;;
       ret_val2 <- apply_async f1 ;;
       submit_ret (ret_vals ++ [[ret_val1; ret_val2]])
     else submit_ret ret_vals
   else
     yes <- lift (detect_se (auto_detect_adapter args) adapters_i) ;;
     if (yes : bool) then
       f0 <- lift (index fastqs_i 0) ;;
       ret_val1 <- apply_async f0 ;;
       submit_ret (ret_vals ++ [[ret_val1]])
     else submit_ret ret_vals)%submit.

(** Lines 157-179. *)
Definition detect_submit (args : namespace float)
    : submit string (list (list nat)) :=
  for_each (detect_group args) (seq 0 (length (fastqs args))) [].

(** Line 184: [args.adapters[i][j] = str(ret_val.get(BIG_INT))],
    once the value is there. *)
Definition record_adapter (adapters : list adapter_row) (ij : nat * nat)
    (v : option string) : result (list adapter_row) :=
  matrix_set adapters ij.1 ij.2 (str_adapter v).

(** Lines 157-186: the detection phase, the workers finishing tasks
    in the order [sched] before the main thread waits for them.
    Returns [args.adapters] after the update. *)
Definition detect_phase (sched : list nat) (args : namespace float)
    (w : world) : pool (T:=string) (R:=option string) * result (list adapter_row) :=
  let '(queue, submitted) := detect_submit args [] in
  let p := run_sched detect_most_likely_adapter sched (new_pool w queue) in
  match submitted with
  | Raise e => (p, Raise e)
  | Return ret_vals =>
      get_each detect_most_likely_adapter record_adapter
        (enumerate2 ret_vals) (adapters args) p
  end.

(** Lines 191-211 in paired-end mode, the body of the loop for one
    [i]. *)
Definition trim_group_pe (args : namespace float) (ret_vals : list nat)
    (i : nat) : submit (pe_args float) (list nat) :=
  (fastqs_i <- lift (index (fastqs args) i) ;;
   adapters_i <- lift (index (adapters args) i) ;;
   f0 <- lift (index fastqs_i 0) ;;
   f1 <- lift (index fastqs_i 1) ;;
   a0 <- lift (row_get adapters_i 0) ;;
   a1 <- lift (row_get adapters_i 1) ;;
   ret_val <- apply_async
     {| pe_fastq1 := f0; pe_fastq2 := f1;
        pe_adapter1 := a0; pe_adapter2 := a1;
        pe_min_trim_len := min_trim_len args;
        pe_err_rate := err_rate args;
        pe_out_dir := out_dir args |} ;;
   submit_ret (ret_vals ++ [ret_val]))%submit.

(** Lines 191-211 in single-end mode, the body of the loop for one
    [i]. *)
Definition trim_group_se (args : namespace float) (ret_vals : list nat)
    (i : nat) : submit (se_args float) (list nat) :=
  (fastqs_i <- lift (index (fastqs args) i) ;;
   adapters_i <- lift (index (adapters args) i) ;;
   f0 <- lift (index fastqs_i 0) ;;
   a0 <- lift (row_get adapters_i 0) ;;
   ret_val <- apply_async
     {| se_fastq := f0; se_adapter := a0;
        se_min_trim_len := min_trim_len args;
        se_err_rate := err_rate args;
        se_out_dir := out_dir args |} ;;
   submit_ret (ret_vals ++ [ret_val]))%submit.

Definition trim_submit_pe (args : namespace float)
    : submit (pe_args float) (list nat) :=
  for_each (trim_group_pe args) (seq 0 (length (fastqs args))) [].

Definition trim_submit_se (args : namespace float)
    : submit (se_args float) (list nat) :=
  for_each (trim_group_se args) (seq 0 (length (fastqs args))) [].

(** Lines 217 and 219: [trimmed_fastqs.append(...)]. *)
Definition append_pe (trimmed_fastqs : list (list string)) (i : nat)
    (v : list string) : result (list (list string)) :=
  Return (trimmed_fastqs ++ [v]).

Definition append_se (trimmed_fastqs : list (list string)) (i : nat)
    (v : string) : result (list (list string)) :=
  Return (trimmed_fastqs ++ [[v]]).

(** Lines 188-219: the trimming phase.  [args.paired_end] is the
    same at every iteration of the two loops, so the test made there
    is made once here.  Returns the world, the handles in the order
    their tasks finished and [trimmed_fastqs]. *)
Definition trim_phase (sched : list nat) (args : namespace float)
    (w : world)
    : world * list (nat * option exn) * result (list (list string)) :=
  if paired_end args then
    let '(queue, submitted) := trim_submit_pe args [] in
    let p := run_sched run_pe sched (new_pool w queue) in
    match submitted with
    | Raise e => (os p, finished p, Raise e)
    | Return ret_vals =>
        let '(p', r) := get_each run_pe append_pe (enumerate ret_vals) [] p in
        (os p', finished p', r)
    end
  else
    let '(queue, submitted) := trim_submit_se args [] in
    let p := run_sched run_se sched (new_pool w queue) in
    match submitted with
    | Raise e => (os p, finished p, Raise e)
    | Return ret_vals =>
        let '(p', r) := get_each run_se append_se (enumerate ret_vals) [] p in
        (os p', finished p', r)
    end.

(** [args.adapters] is updated in place. *)
Definition with_adapters (args : namespace float)
    (adapters' : list adapter_row) : namespace float :=
  {| fastqs := fastqs args;
     adapters := adapters';
     auto_detect_adapter := auto_detect_adapter args;
     min_trim_len := min_trim_len args;
     err_rate := err_rate args;
     paired_end := paired_end args;
     nth := nth args;
     out_dir := out_dir args;
     out_tsv := out_tsv args |}.

Definition tasks_done (ph : phase) (fin : list (nat * option exn))
    : list event :=
  (λ '(h, e), task_done ph h e) <$> fin.

Definition stop (w : world) (events : list event) (e : exn) : run world :=
  {| last := w; log := events; exit := Raise e |}.

(** Lines 143-230, after the arguments are parsed.  [sched1] and
    [sched2] are the orders in which the workers finish the tasks of
    the two phases ahead of the main thread; [multiprocessing.Pool]
    raises [ValueError] for less than one process. *)
Definition run_batch (sched1 sched2 : list nat) (args : namespace float)
    (w0 : world) : run world :=
  let '(w1, made) := mkdir_p (out_dir args) w0 in
  let log1 := [mkdir_p_called (out_dir args)] in
  match made with
  | Raise e => stop w1 log1 e
  | Return _ =>
  if num_process args <? 1 then stop w1 log1 ValueError else
  let log2 := log1 ++ [pool_made (num_process args)] in
  let '(p1, detected) := detect_phase sched1 args w1 in
  let log3 := log2 ++ tasks_done detection (finished p1) in
  match detected with
  | Raise e => stop (os p1) log3 e
  | Return adapters' =>
  let '(w2, fin2, trimmed) :=
    trim_phase sched2 (with_adapters args adapters') (os p1) in
  let log4 := log3 ++ tasks_done trimming fin2 in
  match trimmed with
  | Raise e => stop w2 log4 e
  | Return trimmed_fastqs =>
  let tsv := os_path_join (out_dir args) (out_tsv args) in
  let '(w3, wrote) := write_tsv tsv trimmed_fastqs w2 in
  {| last := w3;
     log := log4 ++ [write_tsv_called tsv trimmed_fastqs];
     exit := wrote |}
  end end end.

Definition main (sched1 sched2 : list nat) (cl : cmdline float)
    (w0 : world) : run world :=
  match parse_arguments read_tsv os_path_exists cl with
  | Raise e => stop w0 [] e
  | Return args => run_batch sched1 sched2 args w0
  end.

End Main.

(** ** A concrete world, for running the program on examples *)

Module Demo.

(** The text of a float such as [0.1], as ['{}'.format] prints it. *)
Definition float : Type := string.
Definition str_float (x : float) : string := x.

Fixpoint strip_suffix (suffix s : string) : option string :=
  if String.eqb s suffix then Some EmptyString
  else match s with
       | EmptyString => None
       | String c s' => String c <$> strip_suffix suffix s'
       end.

(** Modelled from the spec: [strip_ext_fastq] of [encode_dcc_common],
    whose source is not at hand; the spec names its result the
    basename "without fastq extension" and writes the trimmed name as
    that result followed by [.trim.fastq.gz]. *)
Definition strip_ext_fastq (fastq : string) : string :=
  match strip_suffix ".fastq.gz" fastq with
  | Some s => s
  | None =>
      match strip_suffix ".fq.gz" fastq with
      | Some s => s
      | None => fastq
      end
  end.

(** The world is the list of helper calls made so far.  A call in
    [bad] raises; [os.link] raises when its destination is there
    already. *)
Definition world : Type := list call.

Definition links_to (dst : string) (c : call) : bool :=
  match c with
  | os_link _ dst' => String.eqb dst dst'
  | run_shell_cmd _ => false
  end.

Definition run_call (bad : call → bool) (c : call) (w : world)
    : world * result unit :=
  if bad c then (w, Raise (Exception "helper failed"))
  else match c with
       | os_link _ dst =>
           if existsb (links_to dst) w
           then (w, Raise (OSError "File exists"))
           else (w ++ [c], Return ())
       | run_shell_cmd _ => (w ++ [c], Return ())
       end.

Definition detect (answer : string → result (option string))
    (fastq : string) (w : world) : world * result (option string) :=
  (w, answer fastq).

Definition mkdir_p (dir : string) (w : world) : world * result unit :=
  (w, Return ()).

Definition write_tsv (tsv : string) (rows : list (list string)) (w : world)
    : world * result unit :=
  (w, Return ()).

(** No file exists and no TSV can be read: every argument is an
    inline list. *)
Definition no_tsv (path : string) : result (list (list string)) :=
  Raise (OSError "No such file").
Definition no_file (path : string) : bool := false.

Definition never (c : call) : bool := false.

(** A file system of TSV files, each path with its rows. *)
Definition read_tsv (files : list (string * list (list string)))
    (path : string) : result (list (list string)) :=
  match find (λ file, String.eqb path file.1) files with
  | Some file => Return file.2
  | None => Raise (OSError "No such file")
  end.

Definition os_path_exists (files : list (string * list (list string)))
    (path : string) : bool :=
  existsb (λ file, String.eqb path file.1) files.

Definition main (answer : string → result (option string))
    (bad : call → bool) (read_tsv : string → result (list (list string)))
    (os_path_exists : string → bool) (sched1 sched2 : list nat)
    (cl : cmdline float) : run world :=
  main str_float strip_ext_fastq read_tsv os_path_exists
    (run_call bad) (detect answer) mkdir_p write_tsv sched1 sched2 cl [].

Definition run_batch (answer : string → result (option string))
    (bad : call → bool) (sched1 sched2 : list nat)
    (args : namespace float) : run world :=
  run_batch str_float strip_ext_fastq
    (run_call bad) (detect answer) mkdir_p write_tsv sched1 sched2 args [].

Definition cmd (fastqs : list string) (adapters : option (list string))
    (auto paired : bool) (threads : Z) : cmdline float :=
  {| arg_fastqs := fastqs;
     arg_auto_detect_adapter := auto;
     arg_min_trim_len := 5;
     arg_err_rate := "0.1";
     arg_adapters := adapters;
     arg_paired_end := paired;
     arg_nth := threads;
     arg_out_dir := "out";
     arg_out_tsv := "out.tsv" |}.

Definition batch (fastqs : list (list string)) (adapters : list (list string))
    (auto paired : bool) (threads : Z) : namespace float :=
  {| fastqs := fastqs;
     adapters := row_list <$> adapters;
     auto_detect_adapter := auto;
     min_trim_len := 5;
     err_rate := "0.1";
     paired_end := paired;
     nth := threads;
     out_dir := "out";
     out_tsv := "out.tsv" |}.

End Demo.

(** ** Vocabulary of the specification *)

(** [sub] occurs in [s]. *)
Definition contains (s sub : string) : Prop :=
  ∃ before after, s = before +:+ sub +:+ after.

(** The name of a trimmed and of a passed-through output. *)
Definition trimmed_path (strip_ext_fastq : string → string)
    (out_dir fastq : string) : string :=
  os_path_join out_dir (basename (strip_ext_fastq fastq)) +:+ ".trim.fastq.gz".

Definition linked_path (out_dir fastq : string) : string :=
  os_path_join out_dir (basename fastq).

(** Slots per group: 2 for paired end, 1 for single end. *)
Definition arity (paired_end : bool) : nat := if paired_end then 2%nat else 1%nat.

(** The shape contract of the two matrices is violated: the outer
    lengths differ, or a group has not the arity of the mode, or a
    group has not as many files as adapters. *)
Definition shape_violation (paired_end : bool)
    (fastqs : list (list string)) (adapters : list adapter_row) : Prop :=
  length adapters ≠ length fastqs
  ∨ (∃ i row, fastqs !! i = Some row ∧ length row ≠ arity paired_end)
  ∨ (∃ i row ad, fastqs !! i = Some row ∧ adapters !! i = Some ad
                 ∧ length row ≠ row_len ad).

(** The first group, counted from 1 as [merge_id] is, that has not the
    arity of the mode or not as many files as adapters. *)
Fixpoint offending_group_from (paired_end : bool) (merge_id : nat)
    (fastqs : list (list string)) (adapters : list adapter_row) : option nat :=
  match fastqs, adapters with
  | row :: fastqs', ad :: adapters' =>
      if bool_decide (length row = arity paired_end ∧ length row = row_len ad)
      then offending_group_from paired_end (S merge_id) fastqs' adapters'
      else Some merge_id
  | _, _ => None
  end.

Definition offending_group (paired_end : bool)
    (fastqs : list (list string)) (adapters : list adapter_row) : option nat :=
  offending_group_from paired_end 1 fastqs adapters.

(** The messages of the three [ArgumentTypeError]s of
    [parse_arguments]. *)
Definition shape_message (msg : string) : Prop :=
  msg = need_2_fastqs ∨ msg = need_1_fastq ∨ msg = dimension_mismatch.

(** The message for a file matrix of arities [2, 1] in paired-end mode:
    the arity message when the adapter matrix has two rows of which the
    first has two adapters, the dimension message otherwise. *)
Definition two_one_message (adapters : list adapter_row) : string :=
  match adapters with
  | [ad1; _] =>
      if (row_len ad1 =? 2)%nat then need_2_fastqs else dimension_mismatch
  | _ => dimension_mismatch
  end.

(** A TSV of adapters with one row of two columns, and the file system
    in which only it exists. *)
Definition one_row_tsv (path : string) : result (list (list string)) :=
  if String.eqb path "adapters.tsv"
  then Return [["AGATCGGAAGAGC"; "AGATCGGAAGAGC"]]
  else Raise (OSError "No such file").

Definition only_adapters_tsv (path : string) : bool :=
  String.eqb path "adapters.tsv".

(** A TSV of fastqs with a group of two files and a group of one. *)
Definition two_one_tsv (path : string) : result (list (list string)) :=
  if String.eqb path "fastqs.tsv"
  then Return [["a_R1.fastq.gz"; "a_R2.fastq.gz"]; ["b_R1.fastq.gz"]]
  else Raise (OSError "No such file").

(** What holds of a pool at any time: no task has finished twice, the
    handles that finished are those with an outcome, each listed with
    the exception its task raised, and every outcome is what the task
    function gave in some world. *)
Definition pool_inv {world T R : Type} (body : T → world → world * result R)
    (p : pool (world:=world) (T:=T) (R:=R)) : Prop :=
  NoDup (finished p).*1
  ∧ (∀ h e, (h, e) ∈ finished p →
       ∃ t r, slots p !! h = Some {| job := t; outcome := Some r |}
              ∧ raised r = e)
  ∧ (∀ h t r, slots p !! h = Some {| job := t; outcome := Some r |} →
       (h, raised r) ∈ finished p ∧ ∃ w, (body t w).2 = r).

(** [p'] is a later state of the pool [p]: the same tasks, the
    outcomes there were, and more handles finished. *)
Definition extends {world T R : Type}
    (p p' : pool (world:=world) (T:=T) (R:=R)) : Prop :=
  job <$> slots p' = job <$> slots p
  ∧ (∀ h t r, slots p !! h = Some {| job := t; outcome := Some r |} →
       slots p' !! h = Some {| job := t; outcome := Some r |})
  ∧ finished p `prefix_of` finished p'.

(** The cells of a row of [args.adapters], as indexing reads them. *)
Definition cells (r : adapter_row) : list string :=
  match r with
  | row_list l => l
  | row_str s => (λ c, String c EmptyString) <$> list_ascii_of_string s
  end.

(** A group gets detection tasks when auto-detection is on and one of
    its adapters is empty. *)
Definition group_detects (auto : bool) (ad : adapter_row) : bool :=
  auto && negb (forallb truthy (cells ad)).

(** The two matrices have the shape of the mode. *)
Definition well_shaped {float : Type} (args : namespace float) : Prop :=
  length (adapters args) = length (fastqs args)
  ∧ ∀ i row, fastqs args !! i = Some row →
      length row = arity (paired_end args)
      ∧ ∃ ad, adapters args !! i = Some ad
              ∧ length (cells ad) = arity (paired_end args).

(** The rows of [args.adapters] are lists, or no group gets detection
    tasks: what [parse_arguments] gives in all its branches. *)
Definition assignable {float : Type} (args : namespace float) : Prop :=
  Forall (λ ad, ∃ l, ad = row_list l) (adapters args)
  ∨ Forall (λ ad, group_detects (auto_detect_adapter args) ad = false)
      (adapters args).

(** The files of group [i] if it gets detection tasks. *)
Definition detection_of {float : Type} (args : namespace float) (i : nat)
    : list (list string) :=
  match fastqs args !! i, adapters args !! i with
  | Some row, Some ad =>
      if group_detects (auto_detect_adapter args) ad then [row] else []
  | _, _ => []
  end.

(** The files of the groups that get detection tasks, in group
    order. *)
Definition detections {float : Type} (args : namespace float)
    : list (list string) :=
  concat (detection_of args <$> seq 0 (length (fastqs args))).

(** Consecutive handles from [start] on, in rows as long as those of
    [rows]. *)
Fixpoint handles_for {A} (start : nat) (rows : list (list A))
    : list (list nat) :=
  match rows with
  | [] => []
  | row :: rows' =>
      seq start (length row) :: handles_for (start + length row) rows'
  end.

(** The trim task of group [i]. *)
Definition se_task_at {float : Type} (args : namespace float) (i : nat)
    : option (se_args float) :=
  match fastqs args !! i, adapters args !! i with
  | Some [f0], Some ad =>
      match cells ad with
      | [a0] =>
          Some {| se_fastq := f0; se_adapter := a0;
                  se_min_trim_len := min_trim_len args;
                  se_err_rate := err_rate args;
                  se_out_dir := out_dir args |}
      | _ => None
      end
  | _, _ => None
  end.

Definition pe_task_at {float : Type} (args : namespace float) (i : nat)
    : option (pe_args float) :=
  match fastqs args !! i, adapters args !! i with
  | Some [f0; f1], Some ad =>
      match cells ad with
      | [a0; a1] =>
          Some {| pe_fastq1 := f0; pe_fastq2 := f1;
                  pe_adapter1 := a0; pe_adapter2 := a1;
                  pe_min_trim_len := min_trim_len args;
                  pe_err_rate := err_rate args;
                  pe_out_dir := out_dir args |}
      | _ => None
      end
  | _, _ => None
  end.

(** What the update loop keeps of [args.adapters]: its length, the
    length and the kind of every row, and the rows from [bound] on. *)
Definition kept (adapters : list adapter_row) (bound : nat)
    (ads : list adapter_row) : Prop :=
  length ads = length adapters
  ∧ ∀ i ad, adapters !! i = Some ad →
      ∃ ad', ads !! i = Some ad'
        ∧ length (cells ad') = length (cells ad)
        ∧ ((∃ l, ad = row_list l) → ∃ l', ad' = row_list l')
        ∧ ((bound ≤ i)%nat → ad' = ad).

(** The row of the manifest for group [i]: what the trim task of the
    group returns. *)
Definition trimmed_row {float : Type} (str_float : float → string)
    (strip_ext_fastq : string → string) (args : namespace float) (i : nat)
    : option (list string) :=
  if paired_end args then
    match pe_task_at args i with
    | Some t =>
        Some (trim_adapter_pe str_float strip_ext_fastq
                (pe_fastq1 t) (pe_fastq2 t) (pe_adapter1 t) (pe_adapter2 t)
                (pe_min_trim_len t) (pe_err_rate t) (pe_out_dir t)).2
    | None => None
    end
  else
    match se_task_at args i with
    | Some t =>
        Some [(trim_adapter_se str_float strip_ext_fastq
                 (se_fastq t) (se_adapter t) (se_min_trim_len t)
                 (se_err_rate t) (se_out_dir t)).2]
    | None => None
    end.

(** Of [n] queued tasks some have run, each once. *)
Definition ran_some (n : nat) (fin : list (nat * option exn)) : Prop :=
  NoDup fin.*1 ∧ ∀ h e, (h, e) ∈ fin → (h < n)%nat.

(** Each of [n] queued tasks has run once and has returned. *)
Definition ran_all (n : nat) (fin : list (nat * option exn)) : Prop :=
  ran_some n fin
  ∧ (∀ h e, (h, e) ∈ fin → e = None)
  ∧ ∀ h, (h < n)%nat → (h, None) ∈ fin.

(** The log every run starts with once the pool is made. *)
Definition start {float : Type} (args : namespace float) (n : Z) : list event :=
  [mkdir_p_called (out_dir args); pool_made n].

(** The four ways a batch ends, with the log and the exit of each: an
    exception before the pool is there; the exception of a detection
    task; the exception of a trim task after every detection task has
    returned; the manifest written after every task has returned. *)
Inductive batch_shape {float : Type} (str_float : float → string)
    (strip_ext_fastq : string → string) (n : Z) (args : namespace float)
    : list event → result unit → Prop :=
| stopped_before_pool (e : exn) :
    batch_shape str_float strip_ext_fastq n args
      [mkdir_p_called (out_dir args)] (Raise e)
| detection_raised (fin1 : list (nat * option exn)) (h : nat) (e : exn) :
    ran_some (length (concat (detections args))) fin1 →
    (h, Some e) ∈ fin1 →
    batch_shape str_float strip_ext_fastq n args
      (start args n ++ tasks_done detection fin1) (Raise e)
| trimming_raised (fin1 fin2 : list (nat * option exn)) (h : nat) (e : exn) :
    ran_all (length (concat (detections args))) fin1 →
    ran_some (length (fastqs args)) fin2 →
    (h, Some e) ∈ fin2 →
    batch_shape str_float strip_ext_fastq n args
      (start args n ++ tasks_done detection fin1 ++ tasks_done trimming fin2)
      (Raise e)
| manifest_written (fin1 fin2 : list (nat * option exn))
    (ads : list adapter_row) (rows : list (list string)) (res : result unit) :
    ran_all (length (concat (detections args))) fin1 →
    ran_all (length (fastqs args)) fin2 →
    kept (adapters args) (length (detections args)) ads →
    Forall2 (λ i row,
               trimmed_row str_float strip_ext_fastq (with_adapters args ads) i
               = Some row)
      (seq 0 (length (fastqs args))) rows →
    batch_shape str_float strip_ext_fastq n args
      (start args n ++ tasks_done detection fin1 ++ tasks_done trimming fin2
       ++ [write_tsv_called (os_path_join (out_dir args) (out_tsv args)) rows])
      res.

(** The task an event is about. *)
Definition task_id (ev : event) : option (phase * nat) :=
  match ev with
  | task_done ph h _ => Some (ph, h)
  | _ => None
  end.

(** The files of the slots whose adapter is empty, when auto-detection
    is on: the slots the specification gives a detection task. *)
Definition empty_slots {float : Type} (args : namespace float) : list string :=
  if auto_detect_adapter args then
    concat (zip_with
              (λ row ad,
                 omap (λ fa, if truthy fa.2 then None else Some fa.1)
                   (zip row (cells ad)))
              (fastqs args) (adapters args))
  else [].

(** The link of the first file fails. *)
Definition first_link_fails (c : call) : bool :=
  match c with
  | os_link src _ => String.eqb src "a/r1.fastq.gz"
  | run_shell_cmd _ => false
  end.

(** The message for a group that stops the loop of lines 76-85: the
    arity test of the mode comes first, the comparison with the adapters
    of the group second. *)
Definition violation_message (paired_end : bool) (row : list string) : string :=
  if paired_end then
    if (length row =? 2)%nat then dimension_mismatch else need_2_fastqs
  else
    if (length row =? 1)%nat then dimension_mismatch else need_1_fastq.

(** The loop of [get_each] on the values the tasks returned, without
    the pool. *)
Fixpoint fold_values {S K R} (k : S → K → R → result S)
    (values : list (K * R)) (acc : S) : result S :=
  match values with
  | [] => Return acc
  | (key, v) :: values' => acc' <- k acc key v ;; fold_values k values' acc'
  end.

(** The arity message of a mode. *)
Definition arity_message (paired_end : bool) : string :=
  if paired_end then need_2_fastqs else need_1_fastq.

(** The cell at row [i], column [j] of [args.adapters]. *)
Definition cell (adapters : list adapter_row) (ij : nat * nat) : option string :=
  match adapters !! ij.1 with
  | Some r => cells r !! ij.2
  | None => None
  end.

(** The command line without its [--adapters]. *)
Definition without_adapters {float : Type} (cl : cmdline float) : cmdline float :=
  {| arg_fastqs := arg_fastqs cl;
     arg_auto_detect_adapter := arg_auto_detect_adapter cl;
     arg_min_trim_len := arg_min_trim_len cl;
     arg_err_rate := arg_err_rate cl;
     arg_adapters := None;
     arg_paired_end := arg_paired_end cl;
     arg_nth := arg_nth cl;
     arg_out_dir := arg_out_dir cl;
     arg_out_tsv := arg_out_tsv cl |}.

(** A file system with an adapter TSV without rows and one with a row
    of one adapter, and no TSV of fastqs. *)
Definition adapter_tsvs (path : string) : result (list (list string)) :=
  if String.eqb path "empty.tsv" then Return []
  else if String.eqb path "adapters.tsv" then Return [["AGATCGGAAGAGC"]]
  else Raise (OSError "No such file").

Definition adapter_tsvs_exist (path : string) : bool :=
  String.eqb path "empty.tsv" || String.eqb path "adapters.tsv".

(** The name a single-end trim task gives its output in [out_dir]. *)
Definition output_name (strip_ext_fastq : string → string)
    (adapter fastq : string) : string :=
  if truthy adapter
  then basename (strip_ext_fastq fastq) +:+ ".trim.fastq.gz"
  else basename fastq.

(** * Properties *)

Example basename_ex : basename "/data/rep1/R1.fastq.gz" = "R1.fastq.gz".
Proof. reflexivity. Qed.

Example join_ex : os_path_join "out" "R1.fastq.gz" = "out/R1.fastq.gz".
Proof. reflexivity. Qed.

Example join_empty_ex : os_path_join "" "R1.fastq.gz" = "R1.fastq.gz".
Proof. reflexivity. Qed.

Example demo_se_passthrough :
  let r := Demo.main (λ _, Return None) Demo.never Demo.no_tsv Demo.no_file
             [] [] (Demo.cmd ["a/r1.fastq.gz"; "b/r2.fastq.gz"] None false false 4) in
  log r = [mkdir_p_called "out"; pool_made 2;
           task_done trimming 0 None; task_done trimming 1 None;
           write_tsv_called "out/out.tsv" [["out/r1.fastq.gz"]; ["out/r2.fastq.gz"]]]
  ∧ exit r = Return ()
  ∧ last r = [os_link "a/r1.fastq.gz" "out/r1.fastq.gz";
              os_link "b/r2.fastq.gz" "out/r2.fastq.gz"].
Proof. vm_compute. auto. Qed.

(** ** The task bodies *)

#[local] Arguments String.append !_ _ / : simpl nomatch.

Lemma truthy_true (s : string) : truthy s = true ↔ s ≠ "".
Proof. destruct s; simpl; split; congruence. Qed.

Lemma truthy_false (s : string) : truthy s = false ↔ s = "".
Proof. destruct s; simpl; split; congruence. Qed.

Lemma append_assoc (a b c : string) : (a +:+ b) +:+ c = a +:+ (b +:+ c).
Proof. induction a as [|x a IH]; simpl; [reflexivity | now rewrite IH]. Qed.

Lemma contains_suffix (a b : string) : contains (a +:+ b) b.
Proof.
  exists a, "". f_equal. induction b as [|x b IH]; simpl; congruence.
Qed.

Lemma contains_prefix (a b : string) : contains (a +:+ b) a.
Proof. exists "", b. reflexivity. Qed.

Lemma contains_append_r (a s sub : string) :
  contains s sub → contains (a +:+ s) sub.
Proof.
  intros (before & after & ->). exists (a +:+ before), after.
  now rewrite append_assoc.
Qed.

Lemma startswith_sep (s : string) :
  startswith s "/" = true → has_sep s = true.
Proof.
  unfold startswith. destruct s as [|c s]; [discriminate|].
  cbn [String.prefix].
  destruct (ascii_dec "/" c) as [<-|Hne]; [reflexivity | discriminate].
Qed.

Lemma basename_no_sep (p : string) : has_sep (basename p) = false.
Proof.
  induction p as [|c p IH]; simpl; [reflexivity|].
  destruct (has_sep p) eqn:Hp; [exact IH|].
  destruct (Ascii.eqb c sep) eqn:Hc; [exact Hp|].
  simpl. now rewrite Hc.
Qed.

(** In an output directory with a name that is not empty and does not
    end with ['/'], the joined path is the directory, ['/'] and the
    basename. *)
Lemma os_path_join_basename (out_dir p : string) :
  out_dir ≠ "" → endswith out_dir "/" = false →
  os_path_join out_dir (basename p) = out_dir +:+ "/" +:+ basename p.
Proof.
  intros Hne Hend. unfold os_path_join.
  destruct (startswith (basename p) "/") eqn:Hs.
  - apply startswith_sep in Hs. rewrite basename_no_sep in Hs. discriminate.
  - apply truthy_true in Hne. now rewrite Hne, Hend.
Qed.

Section TaskBodyFacts.

Context {float : Type} (str_float : float → string).
Variable strip_ext_fastq : string → string.

Abbreviation trim_adapter_se := (trim_adapter_se str_float strip_ext_fastq).
Abbreviation trim_adapter_pe := (trim_adapter_pe str_float strip_ext_fastq).

Lemma prefix_nil (s : string) : String.prefix "" s = true.
Proof. now destruct s. Qed.

Lemma prefix_append (a b : string) : String.prefix a (a +:+ b) = true.
Proof.
  induction a as [|c a IH]; simpl; [apply prefix_nil|].
  destruct (ascii_dec c c); [exact IH | congruence].
Qed.

Lemma prefix_append2 (a b c : string) :
  String.prefix (a +:+ b) (a +:+ b +:+ c) = true.
Proof. rewrite <- append_assoc. apply prefix_append. Qed.

Lemma min_len_option_prefix (m : Z) (rest : string) :
  startswith ("cutadapt " +:+ min_len_option m +:+ " -e " +:+ rest)
             "cutadapt -m " = true ↔ 0 < m.
Proof.
  unfold min_len_option, startswith. destruct (0 <? m) eqn:Hm; simpl.
  - apply Z.ltb_lt in Hm. split; [intros _; exact Hm|intros _; apply prefix_nil].
  - apply Z.ltb_ge in Hm. split; [discriminate | lia].
Qed.

(** C4. Single-end trimming.  With a non-empty adapter the task makes
    one helper call, the external command: it starts with the
    minimum-length filter [-m] exactly when [min_trim_len > 0] (then
    with the given length), always carries the given error rate, the
    adapter and the input, and writes to the returned path, which is
    [out_dir] joined with the basename of the input without its fastq
    extension, followed by [.trim.fastq.gz].  With an empty adapter
    the only call is the hard link of the input to the returned path,
    [out_dir] joined with the original basename, and no command is
    built. *)
Theorem trim_adapter_se_contract
    (fastq adapter : string) (min_trim_len : Z) (err_rate : float)
    (out_dir : string) :
  let task := trim_adapter_se fastq adapter min_trim_len err_rate out_dir in
  if truthy adapter then
    task.2 = os_path_join out_dir (basename (strip_ext_fastq fastq))
             +:+ ".trim.fastq.gz"
    ∧ ∃ cmd,
        task.1 = [run_shell_cmd cmd]
        ∧ (startswith cmd "cutadapt -m " = true ↔ 0 < min_trim_len)
        ∧ (if 0 <? min_trim_len
           then startswith cmd
                  ("cutadapt -m " +:+ str_int min_trim_len +:+ " -e ") = true
           else startswith cmd "cutadapt  -e " = true)
        ∧ contains cmd
            (" -e " +:+ str_float err_rate +:+ " -a " +:+ adapter +:+
             " " +:+ fastq +:+ " | gzip -nc > " +:+ task.2)
  else
    task.2 = os_path_join out_dir (basename fastq)
    ∧ task.1 = [os_link fastq task.2]
    ∧ Forall (λ c, is_shell c = false) task.1.
Proof.
  unfold trim_adapter_se. destruct (truthy adapter); simpl.
  - split; [reflexivity|]. eexists. split; [reflexivity|].
    split; [apply min_len_option_prefix|]. split.
    + unfold min_len_option, startswith.
      destruct (0 <? min_trim_len); simpl; [|apply prefix_nil].
      apply (prefix_append2 _ " -e ").
    + apply (contains_append_r "cutadapt "), contains_suffix.
  - repeat split. repeat constructor.
Qed.

(** C5. Paired-end trimming.  The external command is called exactly
    when both adapters are non-empty; it then is the only call, carries
    both adapters, both inputs and both outputs, and the task returns
    the trimmed path of read 1 and then that of read 2.  Otherwise both
    mates are hard-linked under their original basenames, read 1 first,
    and the task returns the two links in that order. *)
Theorem trim_adapter_pe_contract
    (fastq1 fastq2 adapter1 adapter2 : string) (min_trim_len : Z)
    (err_rate : float) (out_dir : string) :
  let task := trim_adapter_pe fastq1 fastq2 adapter1 adapter2
                min_trim_len err_rate out_dir in
  ((∃ cmd, run_shell_cmd cmd ∈ task.1) ↔ adapter1 ≠ "" ∧ adapter2 ≠ "")
  ∧ if truthy adapter1 && truthy adapter2 then
      task.2 = [trimmed_path strip_ext_fastq out_dir fastq1;
                trimmed_path strip_ext_fastq out_dir fastq2]
      ∧ ∃ cmd,
          task.1 = [run_shell_cmd cmd]
          ∧ (startswith cmd "cutadapt -m " = true ↔ 0 < min_trim_len)
          ∧ contains cmd
              (" -e " +:+ str_float err_rate +:+
               " -a " +:+ adapter1 +:+ " -A " +:+ adapter2 +:+
               " " +:+ fastq1 +:+ " " +:+ fastq2 +:+
               " -o " +:+ trimmed_path strip_ext_fastq out_dir fastq1 +:+
               " -p " +:+ trimmed_path strip_ext_fastq out_dir fastq2)
    else
      task.2 = [linked_path out_dir fastq1; linked_path out_dir fastq2]
      ∧ task.1 = [os_link fastq1 (linked_path out_dir fastq1);
                  os_link fastq2 (linked_path out_dir fastq2)].
Proof.
  unfold trim_adapter_pe. rewrite <- !truthy_true.
  assert (Hlinks : ∀ a b c d,
            (∃ cmd, run_shell_cmd cmd ∈ [os_link a b; os_link c d]) → False).
  { intros a b c d [cmd Hin].
    apply elem_of_cons in Hin as [Hin|Hin]; [discriminate|].
    apply elem_of_cons in Hin as [Hin|Hin]; [discriminate|].
    now apply elem_of_nil in Hin. }
  destruct (truthy adapter1), (truthy adapter2); simpl.
  - split.
    + split; [intros _; split; reflexivity|]. intros _. eexists. left.
    + split; [reflexivity|]. eexists. split; [reflexivity|].
      split; [apply min_len_option_prefix|].
      apply (contains_append_r "cutadapt "), contains_suffix.
  - split; [|split; reflexivity]. split; [intros H; destruct (Hlinks _ _ _ _ H)|].
    intros [_ ?]; discriminate.
  - split; [|split; reflexivity]. split; [intros H; destruct (Hlinks _ _ _ _ H)|].
    intros [? _]; discriminate.
  - split; [|split; reflexivity]. split; [intros H; destruct (Hlinks _ _ _ _ H)|].
    intros [? _]; discriminate.
Qed.

End TaskBodyFacts.

(** ** Parsing and validating the matrices *)

Lemma bind_Return {A B} (m : result A) (k : A → result B) (b : B) :
  bind m k = Return b → ∃ a, m = Return a ∧ k a = Return b.
Proof. destruct m as [a|e]; simpl; [eauto | discriminate]. Qed.

Lemma index_Return {A} (l : list A) (i : nat) (a : A) :
  index l i = Return a ↔ l !! i = Some a.
Proof. unfold index. destruct (l !! i); split; congruence. Qed.

Lemma index_lt {A} (l : list A) (i : nat) :
  (i < length l)%nat → ∃ a, index l i = Return a ∧ l !! i = Some a.
Proof.
  intros Hi. destruct (lookup_lt_is_Some_2 l i Hi) as [a Ha].
  exists a. split; [now apply index_Return | exact Ha].
Qed.

Lemma check_rows_cases (paired_end : bool) (adapters : list adapter_row)
    (rest : list (list string)) (i : nat) :
  (i + length rest ≤ length adapters)%nat →
  check_rows paired_end adapters i rest = Return ()
  ∨ ∃ msg, shape_message msg
           ∧ check_rows paired_end adapters i rest
             = Raise (ArgumentTypeError msg).
Proof.
  revert i. induction rest as [|row rest IH]; intros i Hlen; simpl in *.
  - now left.
  - destruct (paired_end && negb (length row =? 2)%nat).
    { right. exists need_2_fastqs. split; [now left | reflexivity]. }
    destruct (negb paired_end && negb (length row =? 1)%nat).
    { right. exists need_1_fastq. split; [right; now left | reflexivity]. }
    destruct (index_lt adapters i) as (ad & -> & _); [lia|]. simpl.
    destruct (negb (length row =? row_len ad)%nat).
    { right. exists dimension_mismatch. split; [right; now right | reflexivity]. }
    apply IH. lia.
Qed.

Lemma check_rows_ok (paired_end : bool) (adapters : list adapter_row)
    (rest : list (list string)) (i : nat) :
  check_rows paired_end adapters i rest = Return () →
  ∀ k row, rest !! k = Some row →
    length row = arity paired_end
    ∧ ∃ ad, adapters !! (i + k)%nat = Some ad ∧ length row = row_len ad.
Proof.
  revert i. induction rest as [|row0 rest IH]; intros i Hok k row Hk.
  - discriminate.
  - simpl in Hok.
    destruct (paired_end && negb (length row0 =? 2)%nat) eqn:H2; [discriminate|].
    destruct (negb paired_end && negb (length row0 =? 1)%nat) eqn:H1;
      [discriminate|].
    apply bind_Return in Hok as (ad & Had & Hok). apply index_Return in Had.
    destruct (length row0 =? row_len ad)%nat eqn:Hl; [|discriminate].
    simpl in Hok. apply Nat.eqb_eq in Hl.
    destruct k as [|k]; simpl in Hk.
    + injection Hk as <-. split.
      * destruct paired_end; simpl in *.
        -- apply negb_false_iff, Nat.eqb_eq in H2. exact H2.
        -- apply negb_false_iff, Nat.eqb_eq in H1. exact H1.
      * exists ad. rewrite Nat.add_0_r. now split.
    + replace (i + S k)%nat with (S i + k)%nat by lia. now apply (IH (S i)).
Qed.

(** What [check_dimension] accepts has the shape the mode asks for. *)
Lemma check_dimension_ok (paired_end : bool) (fastqs : list (list string))
    (adapters : list adapter_row) :
  check_dimension paired_end fastqs adapters = Return () →
  length adapters = length fastqs
  ∧ ∀ i row, fastqs !! i = Some row →
      length row = arity paired_end
      ∧ ∃ ad, adapters !! i = Some ad ∧ length row = row_len ad.
Proof.
  unfold check_dimension.
  destruct (length adapters =? length fastqs)%nat eqn:Hlen; [|discriminate].
  simpl. intros Hok. apply Nat.eqb_eq in Hlen. split; [exact Hlen|].
  intros i row Hi. exact (check_rows_ok _ _ _ 0%nat Hok i row Hi).
Qed.

Lemma check_dimension_cases (paired_end : bool) (fastqs : list (list string))
    (adapters : list adapter_row) :
  check_dimension paired_end fastqs adapters = Return ()
  ∨ ∃ msg, shape_message msg
           ∧ check_dimension paired_end fastqs adapters
             = Raise (ArgumentTypeError msg).
Proof.
  unfold check_dimension.
  destruct (length adapters =? length fastqs)%nat eqn:Hlen; simpl.
  - apply Nat.eqb_eq in Hlen. apply check_rows_cases. lia.
  - right. exists dimension_mismatch. split; [right; now right | reflexivity].
Qed.

Lemma check_dimension_violation (paired_end : bool)
    (fastqs : list (list string)) (adapters : list adapter_row) :
  shape_violation paired_end fastqs adapters →
  ∃ msg, shape_message msg
         ∧ check_dimension paired_end fastqs adapters
           = Raise (ArgumentTypeError msg).
Proof.
  intros Hbad. destruct (check_dimension_cases paired_end fastqs adapters)
    as [Hok|Hraise]; [|exact Hraise].
  exfalso. apply check_dimension_ok in Hok as [Hlen Hrows].
  destruct Hbad as [Hne|[(i & row & Hi & Hne)|(i & row & ad & Hi & Had & Hne)]].
  - contradiction.
  - destruct (Hrows i row Hi) as [Har _]. contradiction.
  - destruct (Hrows i row Hi) as [_ (ad' & Had' & Hl)]. congruence.
Qed.

Section ParseFacts.

Context {float world : Type}.
Variable str_float : float → string.
Variable strip_ext_fastq : string → string.
Variable read_tsv : string → result (list (list string)).
Variable os_path_exists : string → bool.
Variable run_call : call → world → world * result unit.
Variable detect_most_likely_adapter :
  string → world → world * result (option string).
Variable mkdir_p : string → world → world * result unit.
Variable write_tsv :
  string → list (list string) → world → world * result unit.

Abbreviation parse_arguments' := (parse_arguments (float:=float) read_tsv os_path_exists).
Abbreviation main' :=
  (main str_float strip_ext_fastq read_tsv os_path_exists run_call
     detect_most_likely_adapter mkdir_p write_tsv).

Lemma check_dimension_two_one (f1 f2 f3 : string)
    (adapters : list adapter_row) :
  check_dimension true [[f1; f2]; [f3]] adapters
  = Raise (ArgumentTypeError (two_one_message adapters)).
Proof.
  destruct adapters as [|ad1 [|ad2 [|ad3 rest]]]; try reflexivity.
  unfold check_dimension, two_one_message.
  cbn [length Nat.eqb negb check_rows andb]. unfold index.
  cbn [lookup list_lookup bind].
  now destruct (row_len ad1) as [|[|[|n]]].
Qed.

(** C6, as the code has it.  Whenever the two matrices that reach the
    check of lines 72-85 violate the shape contract (outer lengths
    differ, a group has not the arity of the mode, or a group has not
    as many files as adapters), [parse_arguments] raises an
    [ArgumentTypeError] whose message is one of the three fixed texts,
    and [main] ends with that exception before anything else happens:
    no directory made, no pool, no task, no manifest, the world
    untouched.  The message names the kind of violation, not the
    group: for a file matrix of arities [2, 1] in paired-end mode it is
    the arity message when the adapter matrix has two rows of which the
    first has two adapters, and the dimension message otherwise. *)
Theorem shape_mismatch_rejected
    (sched1 sched2 : list nat) (cl : cmdline float) (w : world)
    (fastqs0 fastqs1 : list (list string))
    (adapters0 : option (list adapter_row)) :
  parse_fastqs read_tsv (arg_fastqs cl) = Return fastqs0 →
  parse_adapters read_tsv os_path_exists fastqs0 (arg_adapters cl)
    = Return (fastqs1, adapters0) →
  shape_violation (arg_paired_end cl) fastqs1
    (fill_adapters fastqs1 adapters0) →
  ∃ msg, shape_message msg
    ∧ parse_arguments' cl = Raise (ArgumentTypeError msg)
    ∧ main' sched1 sched2 cl w
      = {| last := w; log := []; exit := Raise (ArgumentTypeError msg) |}
    ∧ (arg_paired_end cl = true →
       ∀ f1 f2 f3, fastqs1 = [[f1; f2]; [f3]] →
         msg = two_one_message (fill_adapters fastqs1 adapters0)).
Proof.
  intros Hfq Had Hbad.
  destruct (check_dimension_violation _ _ _ Hbad) as (msg & Hmsg & Hraise).
  exists msg. split; [exact Hmsg|].
  assert (Hparse : parse_arguments' cl = Raise (ArgumentTypeError msg)).
  { unfold parse_arguments. rewrite Hfq. simpl. rewrite Had. simpl.
    rewrite Hraise. reflexivity. }
  split; [exact Hparse|].
  split; [unfold main; rewrite Hparse; reflexivity|].
  intros Hpe f1 f2 f3 Hrows. subst fastqs1.
  rewrite Hpe, check_dimension_two_one in Hraise. congruence.
Qed.

(** C2, what the code does.  When the first [--adapters] argument is
    not an existing file, the singleton rows made of the adapter tokens
    are assigned to [args.fastqs], replacing the fastq matrix, and
    [args.adapters] stays the list of tokens, each "row" a string. *)
Theorem inline_adapters_replace_fastqs
    (fastqs : list (list string)) (a0 : string) (others : list string) :
  os_path_exists a0 = false →
  parse_adapters read_tsv os_path_exists fastqs (Some (a0 :: others))
  = Return ((λ a, [a]) <$> (a0 :: others), Some (row_str <$> (a0 :: others))).
Proof. intros Hno. unfold parse_adapters. rewrite Hno. reflexivity. Qed.

Lemma check_rows_singleton_paired (adapters : list adapter_row)
    (f : string) (rest : list (list string)) (i : nat) :
  check_rows true adapters i ([f] :: rest)
  = Raise (ArgumentTypeError need_2_fastqs).
Proof. reflexivity. Qed.

Lemma check_dimension_singletons_paired (given : list string)
    (adapters : list adapter_row) :
  given ≠ [] →
  check_dimension true ((λ f, [f]) <$> given) adapters
  = Raise (ArgumentTypeError
             (if bool_decide (length adapters = length given)
              then need_2_fastqs else dimension_mismatch)).
Proof.
  intros Hne. unfold check_dimension. rewrite length_fmap.
  destruct (Nat.eqb_spec (length adapters) (length given)) as [Heq|Hneq]; simpl.
  - rewrite bool_decide_eq_true_2 by exact Heq.
    destruct given as [|f given]; [contradiction | reflexivity].
  - now rewrite bool_decide_eq_false_2 by exact Hneq.
Qed.

(** C10, as the code has it.  In paired-end mode a list of fastqs given
    inline never passes [parse_arguments].  The exception is the
    "Need 2 fastqs per replicate" error when no adapters are given,
    when the adapters are given inline, and when the adapters TSV has
    no row or as many rows as there are fastqs; it is the "dimension
    mismatch" error when the adapters TSV has another number of rows,
    and the exception of [read_tsv] when the adapters TSV cannot be
    read. *)
Theorem inline_fastqs_rejected_paired_end
    (cl : cmdline float) (f0 : string) (others : list string) :
  arg_paired_end cl = true →
  arg_fastqs cl = f0 :: others →
  endswith f0 ".gz" = true →
  ∃ e, parse_arguments' cl = Raise e
    ∧ match arg_adapters cl with
      | None | Some [] => e = ArgumentTypeError need_2_fastqs
      | Some (a0 :: _) =>
          if os_path_exists a0 then
            match read_tsv a0 with
            | Raise e' => e = e'
            | Return [] => e = ArgumentTypeError need_2_fastqs
            | Return rows =>
                if bool_decide (length rows = length (f0 :: others))
                then e = ArgumentTypeError need_2_fastqs
                else e = ArgumentTypeError dimension_mismatch
            end
          else e = ArgumentTypeError need_2_fastqs
      end.
Proof.
  intros Hpe Hfq Hgz.
  assert (Hfill : ∀ l : list string, l ≠ [] →
            check_dimension true ((λ f, [f]) <$> l)
              (fill_adapters ((λ f, [f]) <$> l) None)
            = Raise (ArgumentTypeError need_2_fastqs)).
  { intros l Hl. unfold fill_adapters.
    rewrite check_dimension_singletons_paired by exact Hl.
    now rewrite !length_fmap, bool_decide_eq_true_2. }
  assert (Hfq0 : parse_fastqs read_tsv (arg_fastqs cl)
                 = Return ((λ f, [f]) <$> (f0 :: others))).
  { unfold parse_fastqs. rewrite Hfq. unfold index. simpl. now rewrite Hgz. }
  unfold parse_arguments. rewrite Hfq0, Hpe. unfold bind at 1.
  unfold parse_adapters.
  destruct (arg_adapters cl) as [[|a0 ads]|].
  - eexists. split; [|reflexivity]. unfold bind at 1.
    change (fill_adapters ?x (None (A:=list adapter_row)))
      with (fill_adapters x None).
    now rewrite (Hfill (f0 :: others)).
  - destruct (os_path_exists a0).
    + destruct (read_tsv a0) as [[|row rows]|e'].
      * eexists. split; [|reflexivity]. unfold bind at 1 2.
        change (fill_adapters ?x (Some (row_list <$> [])))
          with (fill_adapters x None).
        now rewrite (Hfill (f0 :: others)).
      * unfold bind at 1 2.
        change (fill_adapters ?x (Some (row_list <$> row :: rows)))
          with (row_list <$> row :: rows).
        rewrite (check_dimension_singletons_paired (f0 :: others))
          by discriminate.
        rewrite !length_fmap.
        eexists. split; [reflexivity|].
        destruct (bool_decide (length (row :: rows) = length (f0 :: others)));
          reflexivity.
      * eexists. split; reflexivity.
    + unfold bind at 1.
      change (fill_adapters ?x (Some (row_str <$> a0 :: ads)))
        with (row_str <$> a0 :: ads).
      rewrite (check_dimension_singletons_paired (a0 :: ads)) by discriminate.
      rewrite !length_fmap, bool_decide_eq_true_2 by reflexivity.
      eexists. split; reflexivity.
  - eexists. split; [|reflexivity]. unfold bind at 1.
    now rewrite (Hfill (f0 :: others)).
Qed.

End ParseFacts.

(** The [2, 1] matrix in paired-end mode: the exception is the arity
    error, with no group in it. *)
Example two_one_paired_end :
  parse_arguments two_one_tsv Demo.no_file
    (Demo.cmd ["fastqs.tsv"] None false true 2)
  = Raise (ArgumentTypeError "Need 2 fastqs per replicate for paired end.").
Proof. reflexivity. Qed.

(** The same file matrix with a TSV of one adapter per group: the
    first group has two files and one adapter, and the exception is the
    dimension error. *)
Example two_one_given_adapters :
  let files := [("fastqs.tsv",
                 [["a_R1.fastq.gz"; "a_R2.fastq.gz"]; ["b_R1.fastq.gz"]]);
                ("adapters.tsv", [["AGATCGGAAGAGC"]; ["AGATCGGAAGAGC"]])] in
  parse_arguments (Demo.read_tsv files) (Demo.os_path_exists files)
    (Demo.cmd ["fastqs.tsv"] (Some ["adapters.tsv"]) false true 2)
  = Raise (ArgumentTypeError "fastqs and adapters dimension mismatch.").
Proof. reflexivity. Qed.

Lemma shape_mismatch_rejected_witness :
  let cl := Demo.cmd ["fastqs.tsv"] None false true 2 in
  shape_violation true
    [["a_R1.fastq.gz"; "a_R2.fastq.gz"]; ["b_R1.fastq.gz"]]
    (fill_adapters [["a_R1.fastq.gz"; "a_R2.fastq.gz"]; ["b_R1.fastq.gz"]] None)
  ∧ ∃ msg, shape_message msg
      ∧ parse_arguments two_one_tsv Demo.no_file cl
        = Raise (ArgumentTypeError msg)
      ∧ Demo.main (λ _, Return None) Demo.never two_one_tsv Demo.no_file [] [] cl
        = {| last := []; log := []; exit := Raise (ArgumentTypeError msg) |}
      ∧ msg = "Need 2 fastqs per replicate for paired end.".
Proof.
  assert (Hbad : shape_violation true
            [["a_R1.fastq.gz"; "a_R2.fastq.gz"]; ["b_R1.fastq.gz"]]
            (fill_adapters
               [["a_R1.fastq.gz"; "a_R2.fastq.gz"]; ["b_R1.fastq.gz"]] None)).
  { right; left. exists 1%nat, ["b_R1.fastq.gz"].
    split; [reflexivity | discriminate]. }
  split; [exact Hbad|].
  destruct (shape_mismatch_rejected Demo.str_float Demo.strip_ext_fastq
              two_one_tsv Demo.no_file (Demo.run_call Demo.never)
              (Demo.detect (λ _, Return None)) Demo.mkdir_p Demo.write_tsv
              [] [] (Demo.cmd ["fastqs.tsv"] None false true 2) []
              _ _ None eq_refl eq_refl Hbad)
    as (msg & Hmsg & Hparse & Hmain & Htwo).
  exists msg. split; [exact Hmsg|]. split; [exact Hparse|].
  split; [exact Hmain|].
  exact (Htwo eq_refl "a_R1.fastq.gz" "a_R2.fastq.gz" "b_R1.fastq.gz" eq_refl).
Defined.

(** C6, the claim as stated fails: the exception does not tell the
    offending group.  A matrix whose second group is short and one whose
    first group is short raise the same exception. *)
Lemma error_does_not_identify_group :
  ¬ ∃ locate : exn → nat,
      ∀ (paired_end : bool) (fastqs : list (list string))
        (adapters : list adapter_row) (e : exn) (g : nat),
        check_dimension paired_end fastqs adapters = Raise e →
        offending_group paired_end fastqs adapters = Some g →
        locate e = g.
Proof.
  intros [locate Hlocate].
  pose proof (Hlocate true
    [["a_R1.fastq.gz"; "a_R2.fastq.gz"]; ["b_R1.fastq.gz"]]
    [row_list [""; ""]; row_list [""]] _ 2%nat eq_refl eq_refl) as H2.
  pose proof (Hlocate true
    [["b_R1.fastq.gz"]; ["a_R1.fastq.gz"; "a_R2.fastq.gz"]]
    [row_list [""]; row_list [""; ""]] _ 1%nat eq_refl eq_refl) as H1.
  simpl in H1, H2. congruence.
Qed.

Lemma inline_adapters_replace_fastqs_witness :
  Demo.no_file "AGATCGGAAGAGC" = false
  ∧ parse_adapters Demo.no_tsv Demo.no_file [["r1.fastq.gz"]]
      (Some ["AGATCGGAAGAGC"])
    = Return ([["AGATCGGAAGAGC"]], Some [row_str "AGATCGGAAGAGC"]).
Proof.
  split; [reflexivity|].
  exact (inline_adapters_replace_fastqs Demo.no_tsv Demo.no_file
           [["r1.fastq.gz"]] "AGATCGGAAGAGC" [] eq_refl).
Defined.

(** One fastq and its adapter, both inline: the fastq is lost and the
    string "row" has as many "columns" as the adapter has letters. *)
Example inline_adapter_rejected :
  parse_arguments Demo.no_tsv Demo.no_file
    (Demo.cmd ["r1.fastq.gz"] (Some ["AGATCGGAAGAGC"]) false false 1)
  = Raise (ArgumentTypeError "fastqs and adapters dimension mismatch.").
Proof. reflexivity. Qed.

(** A one-letter adapter passes, and the file trimmed is the adapter. *)
Example inline_adapter_one_letter :
  fastqs <$> returned (parse_arguments Demo.no_tsv Demo.no_file
    (Demo.cmd ["r1.fastq.gz"] (Some ["A"]) false false 1))
  = Some [["A"]].
Proof. reflexivity. Qed.

(** C10, the claim as stated fails: with an adapters TSV of one row,
    two inline fastqs in paired-end mode raise the dimension error, not
    the arity error. *)
Lemma inline_fastqs_dimension_error :
  let cl := Demo.cmd ["a_R1.fastq.gz"; "a_R2.fastq.gz"]
              (Some ["adapters.tsv"]) false true 2 in
  arg_paired_end cl = true
  ∧ endswith "a_R1.fastq.gz" ".gz" = true
  ∧ parse_arguments one_row_tsv only_adapters_tsv cl
    = Raise (ArgumentTypeError "fastqs and adapters dimension mismatch.")
  ∧ parse_arguments one_row_tsv only_adapters_tsv cl
    ≠ Raise (ArgumentTypeError "Need 2 fastqs per replicate for paired end.").
Proof. repeat split. discriminate. Qed.

Lemma inline_fastqs_rejected_paired_end_witness :
  let cl := Demo.cmd ["a_R1.fastq.gz"; "a_R2.fastq.gz"] None false true 2 in
  ∃ e, parse_arguments Demo.no_tsv Demo.no_file cl = Raise e
       ∧ e = ArgumentTypeError need_2_fastqs.
Proof.
  exact (inline_fastqs_rejected_paired_end Demo.no_tsv Demo.no_file
           (Demo.cmd ["a_R1.fastq.gz"; "a_R2.fastq.gz"] None false true 2)
           "a_R1.fastq.gz" ["a_R2.fastq.gz"] eq_refl eq_refl eq_refl).
Defined.

(** ** The pool *)

Section PoolFacts.

Context {world T R : Type}.
Variable body : T → world → world * result R.

Abbreviation pool' := (pool (world:=world) (T:=T) (R:=R)).

Lemma extends_refl (p : pool') : extends p p.
Proof. repeat split; auto. Qed.

Lemma extends_trans (p1 p2 p3 : pool') :
  extends p1 p2 → extends p2 p3 → extends p1 p3.
Proof.
  intros (Hj1 & Hd1 & Hf1) (Hj2 & Hd2 & Hf2). repeat split.
  - congruence.
  - auto.
  - etransitivity; eassumption.
Qed.

Lemma new_pool_inv (w : world) (queue : list T) :
  pool_inv body (new_pool w queue).
Proof.
  unfold pool_inv, new_pool; simpl. split; [constructor|]. split.
  - intros h e Hin. now apply elem_of_nil in Hin.
  - intros h t r Hh. rewrite list_lookup_fmap in Hh.
    destruct (queue !! h); simpl in Hh; congruence.
Qed.

Lemma work_cases (h : nat) (p : pool') :
  work body h p = p
  ∨ ∃ t, slots p !! h = Some {| job := t; outcome := None |}
       ∧ work body h p
         = {| os := (body t (os p)).1;
              slots := <[h := {| job := t;
                                 outcome := Some (body t (os p)).2 |}]>
                         (slots p);
              finished := finished p ++ [(h, raised (body t (os p)).2)] |}.
Proof.
  unfold work. destruct (slots p !! h) as [[t [r|]]|] eqn:Hh; auto.
  right. exists t. split; [reflexivity|]. now destruct (body t (os p)).
Qed.

Lemma work_extends (h : nat) (p : pool') : extends p (work body h p).
Proof.
  destruct (work_cases h p) as [->|(t & Hh & ->)]; [apply extends_refl|].
  repeat split; simpl.
  - rewrite list_fmap_insert. simpl. apply list_insert_id.
    rewrite list_lookup_fmap, Hh. reflexivity.
  - intros h' t' r' Hh'. destruct (decide (h = h')) as [<-|Hne].
    + congruence.
    + now rewrite list_lookup_insert_ne.
  - now apply prefix_app_r.
Qed.

Lemma work_inv (h : nat) (p : pool') :
  pool_inv body p → pool_inv body (work body h p).
Proof.
  intros (Hnd & Hfin & Hdone).
  destruct (work_cases h p) as [->|(t & Hh & ->)];
    [exact (conj Hnd (conj Hfin Hdone))|].
  assert (Hlt : (h < length (slots p))%nat) by (eapply lookup_lt_Some; eauto).
  split; [|split]; simpl.
  - rewrite fmap_app. apply NoDup_app. split; [exact Hnd|]. split.
    + intros x Hx Hx'. apply list_elem_of_singleton in Hx' as ->.
      apply list_elem_of_fmap in Hx as ([h' e] & Heq & Hin).
      simpl in Heq. subst h'.
      destruct (Hfin _ _ Hin) as (t' & r' & Hh' & _). congruence.
    + apply NoDup_singleton.
  - intros h' e Hin. apply elem_of_app in Hin as [Hin|Hin].
    + destruct (Hfin _ _ Hin) as (t' & r' & Hh' & He).
      exists t', r'. split; [|exact He].
      destruct (decide (h = h')) as [<-|Hne]; [congruence|].
      now rewrite list_lookup_insert_ne.
    + apply list_elem_of_singleton in Hin. injection Hin as -> ->.
      eexists _, _. split; [|reflexivity].
      now rewrite list_lookup_insert_eq.
  - intros h' t' r' Hh'. destruct (decide (h = h')) as [<-|Hne].
    + rewrite list_lookup_insert_eq in Hh' by exact Hlt.
      injection Hh' as <- <-. split.
      * apply elem_of_app. right. now apply list_elem_of_singleton.
      * now exists (os p).
    + rewrite list_lookup_insert_ne in Hh' by exact Hne.
      destruct (Hdone _ _ _ Hh') as [Hin Hw]. split; [|exact Hw].
      apply elem_of_app. now left.
Qed.

Lemma run_sched_extends (sched : list nat) (p : pool') :
  extends p (run_sched body sched p).
Proof.
  revert p. induction sched as [|h sched IH]; intros p; simpl.
  - apply extends_refl.
  - eapply extends_trans; [apply (work_extends h)|apply IH].
Qed.

Lemma run_sched_inv (sched : list nat) (p : pool') :
  pool_inv body p → pool_inv body (run_sched body sched p).
Proof.
  revert p. induction sched as [|h sched IH]; intros p Hp; simpl.
  - exact Hp.
  - apply IH, work_inv, Hp.
Qed.

Lemma get_spec (h : nat) (p p' : pool') (r : result R) :
  get body h p = (p', r) →
  p' = work body h p
  ∧ ((h < length (slots p))%nat →
       ∃ t, slots p' !! h = Some {| job := t; outcome := Some r |})
  ∧ ((length (slots p) ≤ h)%nat → r = Raise ValueError).
Proof.
  unfold get. intros Hget.
  assert (Hp' : p' = work body h p).
  { destruct (slots (work body h p) !! h) as [[t [r0|]]|]; congruence. }
  subst p'. split; [reflexivity|]. split.
  - intros Hlt. destruct (lookup_lt_is_Some_2 _ _ Hlt) as [[t o] Hh].
    destruct (work_cases h p) as [Heq|(t' & Hh' & Heq)].
    + rewrite Heq in *. rewrite Hh in Hget.
      destruct o as [r0|].
      * exists t. injection Hget as <-. exact Hh.
      * exfalso. unfold work in Heq. rewrite Hh in Heq.
        destruct (body t (os p)) as [w' r'] eqn:Hb.
        apply (f_equal finished) in Heq. simpl in Heq.
        apply (f_equal length) in Heq. rewrite length_app in Heq.
        simpl in Heq. lia.
    + rewrite Heq in *. simpl in *.
      rewrite list_lookup_insert_eq in Hget by exact Hlt.
      exists t'. rewrite list_lookup_insert_eq by exact Hlt.
      injection Hget as <-. reflexivity.
  - intros Hge. unfold work in Hget. cbv zeta in Hget.
    rewrite !(lookup_ge_None_2 _ _ Hge) in Hget. congruence.
Qed.

Lemma get_inv (h : nat) (p p' : pool') (r : result R) :
  get body h p = (p', r) → pool_inv body p →
  pool_inv body p' ∧ extends p p'.
Proof.
  intros Hget Hp. apply get_spec in Hget as (-> & _).
  split; [now apply work_inv | apply work_extends].
Qed.

Lemma extends_length (p p' : pool') :
  extends p p' → length (slots p') = length (slots p).
Proof.
  intros (Hj & _). apply (f_equal length) in Hj.
  now rewrite !length_fmap in Hj.
Qed.

Lemma get_each_inv {S K} (k : S → K → R → result S)
    (handles : list (K * nat)) (acc : S) (p p' : pool') (res : result S) :
  get_each body k handles acc p = (p', res) → pool_inv body p →
  pool_inv body p' ∧ extends p p'.
Proof.
  revert acc p. induction handles as [|[key h] handles IH]; intros acc p; simpl.
  - intros [= <- <-] Hp. split; [exact Hp | apply extends_refl].
  - destruct (get body h p) as [p1 r] eqn:Hget. intros Hres Hp.
    destruct (get_inv _ _ _ _ Hget Hp) as [Hp1 Hext1].
    destruct (bind r (k acc key)) as [acc'|e].
    + destruct (IH _ _ Hres Hp1) as [Hp' Hext]. split; [exact Hp'|].
      eapply extends_trans; eassumption.
    + injection Hres as <- <-. now split.
Qed.

(** When the main thread has got every value, every task it waited for
    has returned, and what [k] keeps of the accumulator is kept. *)
Lemma get_each_Return {S K} (k : S → K → R → result S) (I : S → Prop)
    (handles : list (K * nat)) (acc acc' : S) (p p' : pool') :
  (∀ a key h v a', (key, h) ∈ handles → I a → k a key v = Return a' → I a') →
  I acc → pool_inv body p →
  get_each body k handles acc p = (p', Return acc') →
  I acc'
  ∧ ∀ key h, (key, h) ∈ handles →
      ∃ t v, slots p' !! h = Some {| job := t; outcome := Some (Return v) |}.
Proof.
  revert acc p. induction handles as [|[key h] handles IH];
    intros acc p Hk Hacc Hp; simpl.
  - intros [= <- <-]. split; [exact Hacc|]. intros key h Hin.
    now apply elem_of_nil in Hin.
  - destruct (get body h p) as [p1 r] eqn:Hget.
    destruct (get_inv _ _ _ _ Hget Hp) as [Hp1 Hext1].
    destruct r as [v|e]; simpl; [|discriminate].
    destruct (k acc key v) as [acc1|e] eqn:Hkv; [|discriminate].
    intros Hres.
    assert (Hacc1 : I acc1).
    { eapply (Hk acc key h v); [left | exact Hacc | exact Hkv]. }
    destruct (IH acc1 p1) as [Hacc' Hall]; auto.
    { intros a key' h' v' a' Hin. apply (Hk a key' h'). now right. }
    split; [exact Hacc'|]. intros key' h' Hin.
    apply elem_of_cons in Hin as [[= -> ->]|Hin]; [|eauto].
    destruct (get_spec _ _ _ _ Hget) as (_ & Hlt & Hge).
    destruct (decide (h < length (slots p))%nat) as [Hh|Hh].
    + destruct (Hlt Hh) as [t Ht]. exists t, v.
      destruct (get_each_inv _ _ _ _ _ _ Hres Hp1) as [_ (_ & Hstable & _)].
      now apply Hstable.
    + discriminate Hge. lia.
Qed.

(** When [k] cannot raise, an exception of the loop is the exception of
    a task the main thread waited for. *)
Lemma get_each_total {S K} (k : S → K → R → result S) (I : S → Prop)
    (handles : list (K * nat)) (acc : S) (p p' : pool') (res : result S) :
  (∀ a key h v, (key, h) ∈ handles → I a →
     ∃ a', k a key v = Return a' ∧ I a') →
  (∀ key h, (key, h) ∈ handles → (h < length (slots p))%nat) →
  I acc → pool_inv body p →
  get_each body k handles acc p = (p', res) →
  match res with
  | Return acc' => I acc'
  | Raise e =>
      ∃ key h t, (key, h) ∈ handles
        ∧ slots p' !! h = Some {| job := t; outcome := Some (Raise e) |}
  end.
Proof.
  revert acc p. induction handles as [|[key h] handles IH];
    intros acc p Hk Hlt Hacc Hp; simpl.
  - intros [= <- <-]. exact Hacc.
  - destruct (get body h p) as [p1 r] eqn:Hget.
    destruct (get_inv _ _ _ _ Hget Hp) as [Hp1 Hext1].
    destruct (get_spec _ _ _ _ Hget) as (_ & Hdone & _).
    destruct Hdone as [t Ht]; [apply (Hlt key); left|].
    destruct r as [v|e]; simpl.
    + destruct (Hk acc key h v) as (acc1 & -> & Hacc1); [left | exact Hacc|].
      intros Hres. specialize (IH acc1 p1).
      destruct res as [acc'|e].
      * eapply IH; eauto.
        -- intros a key' h' v' Hin. apply (Hk a key' h'). now right.
        -- intros key' h' Hin. rewrite (extends_length _ _ Hext1).
           apply (Hlt key'). now right.
      * destruct IH as (key' & h' & t' & Hin & Hslot); auto.
        -- intros a key' h' v' Hin. apply (Hk a key' h'). now right.
        -- intros key' h' Hin. rewrite (extends_length _ _ Hext1).
           apply (Hlt key'). now right.
        -- exists key', h', t'. split; [now right | exact Hslot].
    + intros [= <- <-]. exists key, h, t. split; [left | exact Ht].
Qed.

(** The loops that append: the rows appended are made, in the order of
    the handles, of values the tasks of these handles returned. *)
Lemma get_each_append {K X} (f : R → X) (handles : list (K * nat))
    (acc acc' : list X) (p p' : pool') :
  pool_inv body p →
  get_each body (λ a (_ : K) v, Return (a ++ [f v])) handles acc p
    = (p', Return acc') →
  ∃ vs, acc' = acc ++ (f <$> vs)
    ∧ Forall2 (λ kh v, ∃ t w, (job <$> slots p) !! kh.2 = Some t
                              ∧ (body t w).2 = Return v) handles vs.
Proof.
  revert acc p. induction handles as [|[key h] handles IH];
    intros acc p Hp; simpl.
  - intros [= <- <-]. exists []. split; [now rewrite app_nil_r | constructor].
  - destruct (get body h p) as [p1 r] eqn:Hget.
    destruct (get_inv _ _ _ _ Hget Hp) as [Hp1 Hext1].
    destruct r as [v|e]; simpl; [|discriminate]. intros Hres.
    destruct (IH _ _ Hp1 Hres) as (vs & -> & Hvs).
    exists (v :: vs). split; [now rewrite <- app_assoc|].
    destruct Hext1 as (Hjobs & _). rewrite Hjobs in Hvs.
    constructor; [|exact Hvs]. simpl.
    destruct (get_spec _ _ _ _ Hget) as (_ & Hlt & Hge).
    destruct (decide (h < length (slots p))%nat) as [Hh|Hh];
      [|discriminate Hge; lia].
    destruct (Hlt Hh) as [t Ht].
    destruct Hp1 as (_ & _ & Hdone).
    destruct (Hdone _ _ _ Ht) as [_ [w Hw]]. exists t, w.
    split; [|exact Hw].
    rewrite <- Hjobs, list_lookup_fmap, Ht. reflexivity.
Qed.

End PoolFacts.

(** ** Rows, indices and handles *)

Lemma get_list_ascii (s : string) (j : nat) :
  String.get j s = list_ascii_of_string s !! j.
Proof.
  revert j. induction s as [|c s IH]; intros [|j]; simpl; auto.
Qed.

Lemma row_get_cells (r : adapter_row) (j : nat) :
  row_get r j = index (cells r) j.
Proof.
  destruct r as [l|s]; simpl; [reflexivity|].
  unfold index. rewrite list_lookup_fmap, get_list_ascii.
  now destruct (list_ascii_of_string s !! j).
Qed.

Lemma row_len_cells (r : adapter_row) : row_len r = length (cells r).
Proof.
  destruct r as [l|s]; simpl; [reflexivity|]. rewrite length_fmap.
  induction s as [|c s IH]; simpl; congruence.
Qed.

Lemma elem_of_concat {A} (x : A) (ll : list (list A)) :
  x ∈ concat ll ↔ ∃ l, x ∈ l ∧ l ∈ ll.
Proof.
  induction ll as [|l ll IH]; simpl.
  - split; [intros H; now apply elem_of_nil in H|].
    intros (l & _ & H). now apply elem_of_nil in H.
  - rewrite elem_of_app, IH. split.
    + intros [H|(l' & Hx & Hl')].
      * exists l. split; [exact H | left].
      * exists l'. split; [exact Hx | now right].
    + intros (l' & Hx & Hl'). apply elem_of_cons in Hl' as [->|Hl'].
      * now left.
      * right. eauto.
Qed.

Lemma enumerate_from_lookup {A} (l : list A) (s : nat) (i : nat) (x : A) :
  (i, x) ∈ enumerate_from s l ↔ (s ≤ i)%nat ∧ l !! (i - s)%nat = Some x.
Proof.
  revert s. induction l as [|y l IH]; intros s; simpl.
  - split; [intros H; now apply elem_of_nil in H | intros [_ H]; discriminate].
  - rewrite elem_of_cons, IH. split.
    + intros [[= -> ->]|[Hle Hx]].
      * split; [lia|]. now rewrite Nat.sub_diag.
      * split; [lia|]. replace (i - s)%nat with (S (i - S s)) by lia. exact Hx.
    + intros [Hle Hx]. destruct (decide (i = s)) as [->|Hne].
      * left. rewrite Nat.sub_diag in Hx. simpl in Hx. congruence.
      * right. split; [lia|].
        replace (i - s)%nat with (S (i - S s)) in Hx by lia. exact Hx.
Qed.

Lemma enumerate_lookup {A} (l : list A) (i : nat) (x : A) :
  (i, x) ∈ enumerate l ↔ l !! i = Some x.
Proof.
  unfold enumerate. rewrite enumerate_from_lookup, Nat.sub_0_r.
  split; [now intros [_ H] | intros H; split; [lia | exact H]].
Qed.

Lemma enumerate2_lookup {A} (ll : list (list A)) (i j : nat) (x : A) :
  ((i, j), x) ∈ enumerate2 ll ↔ ∃ l, ll !! i = Some l ∧ l !! j = Some x.
Proof.
  unfold enumerate2. rewrite elem_of_concat. split.
  - intros (l' & Hx & Hl'). apply list_elem_of_fmap in Hl' as ([i' l] & -> & Hil).
    apply list_elem_of_fmap in Hx as ([j' x'] & [= -> -> ->] & Hjx).
    apply enumerate_lookup in Hil, Hjx. eauto.
  - intros (l & Hl & Hx).
    exists ((λ '(j, x), ((i, j), x)) <$> enumerate l). split.
    + apply list_elem_of_fmap. exists (j, x). split; [reflexivity|].
      apply enumerate_lookup, Hx.
    + apply list_elem_of_fmap. exists (i, l). split; [reflexivity|].
      apply enumerate_lookup, Hl.
Qed.

Lemma enumerate_from_snd {A} (l : list A) (s : nat) :
  (enumerate_from s l).*2 = l.
Proof.
  revert s. induction l as [|x l IH]; intros s; simpl; [reflexivity|].
  now rewrite IH.
Qed.

Lemma enumerate2_snd {A} (ll : list (list A)) :
  (enumerate2 ll).*2 = concat ll.
Proof.
  unfold enumerate2, enumerate at 2. generalize 0%nat.
  induction ll as [|l ll IH]; intros s; simpl; [reflexivity|].
  rewrite fmap_app, IH. f_equal.
  rewrite <- list_fmap_compose. rewrite <- (enumerate_from_snd l 0) at 2.
  apply list_fmap_ext. now intros _ [j x] _.
Qed.

Lemma handles_for_app {A} (start : nat) (rows1 rows2 : list (list A)) :
  handles_for start (rows1 ++ rows2)
  = handles_for start rows1
    ++ handles_for (start + length (concat rows1)) rows2.
Proof.
  revert start. induction rows1 as [|row rows1 IH]; intros start; simpl.
  - now rewrite Nat.add_0_r.
  - rewrite IH, length_app, Nat.add_assoc. reflexivity.
Qed.

Lemma handles_for_concat {A} (start : nat) (rows : list (list A)) :
  concat (handles_for start rows) = seq start (length (concat rows)).
Proof.
  revert start. induction rows as [|row rows IH]; intros start; simpl.
  - reflexivity.
  - now rewrite IH, length_app, seq_app.
Qed.

Lemma handles_for_lookup {A} (start : nat) (rows : list (list A))
    (i : nat) (hs : list nat) :
  handles_for start rows !! i = Some hs →
  ∃ row, rows !! i = Some row ∧ length hs = length row.
Proof.
  revert start i. induction rows as [|row rows IH]; intros start [|i]; simpl;
    try discriminate.
  - intros [= <-]. exists row. now rewrite length_seq.
  - apply IH.
Qed.

(** ** Queuing the tasks *)

Section SubmitFacts.

Context {float : Type}.
Implicit Types args : namespace float.

Lemma well_shaped_lookup args (i : nat) :
  well_shaped args → (i < length (fastqs args))%nat →
  ∃ row ad, fastqs args !! i = Some row ∧ adapters args !! i = Some ad
    ∧ length row = arity (paired_end args)
    ∧ length (cells ad) = arity (paired_end args).
Proof.
  intros [_ Hrows] Hi. destruct (lookup_lt_is_Some_2 _ _ Hi) as [row Hrow].
  destruct (Hrows i row Hrow) as (Hlen & ad & Had & Hcells). eauto 10.
Qed.

Lemma for_each_cons {T S X} (step : S → X → submit T S) (x : X)
    (xs : list X) (acc : S) (q : list T) :
  for_each step (x :: xs) acc q
  = match step acc x q with
    | (q', Return acc') => for_each step xs acc' q'
    | (q', Raise e) => (q', Raise e)
    end.
Proof. reflexivity. Qed.

Lemma detect_group_spec args (rv : list (list nat)) (i : nat)
    (q : list string) :
  well_shaped args → (i < length (fastqs args))%nat →
  detect_group args rv i q
  = (q ++ concat (detection_of args i),
     Return (rv ++ handles_for (length q) (detection_of args i))).
Proof.
  intros Hws Hi.
  destruct (well_shaped_lookup args i Hws Hi)
    as (row & ad & Hrow & Had & Hlen & Hcells).
  unfold detect_group, detection_of, submit_bind, lift, index,
    detect_pe, detect_se, group_detects.
  rewrite Hrow, Had, !row_get_cells. unfold index.
  destruct (paired_end args); simpl in Hlen, Hcells.
  - destruct row as [|f0 [|f1 [|]]]; try discriminate.
    destruct (cells ad) as [|a0 [|a1 [|]]]; try discriminate.
    destruct (auto_detect_adapter args), a0, a1; simpl;
      rewrite ?app_nil_r, <- ?app_assoc, ?length_app, ?Nat.add_1_r;
      reflexivity.
  - destruct row as [|f0 [|]]; try discriminate.
    destruct (cells ad) as [|a0 [|]]; try discriminate.
    destruct (auto_detect_adapter args), a0; simpl;
      rewrite ?app_nil_r; reflexivity.
Qed.

Lemma detect_loop_spec args (n i : nat) (rv : list (list nat))
    (q : list string) :
  well_shaped args → (i + n ≤ length (fastqs args))%nat →
  for_each (detect_group args) (seq i n) rv q
  = (q ++ concat (concat (detection_of args <$> seq i n)),
     Return (rv ++ handles_for (length q)
                     (concat (detection_of args <$> seq i n)))).
Proof.
  intros Hws. revert i rv q. induction n as [|n IH]; intros i rv q Hi.
  - simpl. now rewrite !app_nil_r.
  - cbn [seq]. rewrite for_each_cons, detect_group_spec by (auto; lia).
    rewrite IH by lia. cbn [fmap list_fmap concat].
    rewrite concat_app, handles_for_app, length_app, !app_assoc.
    reflexivity.
Qed.

Lemma detect_submit_spec args :
  well_shaped args →
  detect_submit args []
  = (concat (detections args), Return (handles_for 0 (detections args))).
Proof.
  intros Hws. unfold detect_submit, detections.
  now rewrite detect_loop_spec by (auto; lia).
Qed.

Lemma trim_group_se_spec args (rv : list nat) (i : nat)
    (q : list (se_args float)) :
  well_shaped args → paired_end args = false →
  (i < length (fastqs args))%nat →
  ∃ t, se_task_at args i = Some t
    ∧ trim_group_se args rv i q = (q ++ [t], Return (rv ++ [length q])).
Proof.
  intros Hws Hse Hi.
  destruct (well_shaped_lookup args i Hws Hi)
    as (row & ad & Hrow & Had & Hlen & Hcells).
  rewrite Hse in Hlen, Hcells. simpl in Hlen, Hcells.
  unfold trim_group_se, se_task_at, submit_bind, lift, index.
  rewrite Hrow, Had, !row_get_cells. unfold index.
  destruct row as [|f0 [|]]; try discriminate.
  destruct (cells ad) as [|a0 [|]]; try discriminate.
  eexists. split; reflexivity.
Qed.

Lemma trim_group_pe_spec args (rv : list nat) (i : nat)
    (q : list (pe_args float)) :
  well_shaped args → paired_end args = true →
  (i < length (fastqs args))%nat →
  ∃ t, pe_task_at args i = Some t
    ∧ trim_group_pe args rv i q = (q ++ [t], Return (rv ++ [length q])).
Proof.
  intros Hws Hpe Hi.
  destruct (well_shaped_lookup args i Hws Hi)
    as (row & ad & Hrow & Had & Hlen & Hcells).
  rewrite Hpe in Hlen, Hcells. simpl in Hlen, Hcells.
  unfold trim_group_pe, pe_task_at, submit_bind, lift, index.
  rewrite Hrow, Had, !row_get_cells. unfold index.
  destruct row as [|f0 [|f1 [|]]]; try discriminate.
  destruct (cells ad) as [|a0 [|a1 [|]]]; try discriminate.
  eexists. split; reflexivity.
Qed.

Lemma trim_loop_se_spec args (n i : nat) (rv : list nat)
    (q : list (se_args float)) :
  well_shaped args → paired_end args = false →
  (i + n ≤ length (fastqs args))%nat →
  ∃ ts, Forall2 (λ k t, se_task_at args k = Some t) (seq i n) ts
    ∧ for_each (trim_group_se args) (seq i n) rv q
      = (q ++ ts, Return (rv ++ seq (length q) n)).
Proof.
  intros Hws Hse. revert i rv q. induction n as [|n IH]; intros i rv q Hi.
  - exists []. split; [constructor|]. simpl. now rewrite !app_nil_r.
  - destruct (trim_group_se_spec args rv i q Hws Hse) as (t & Ht & Hstep);
      [lia|].
    destruct (IH (S i) (rv ++ [length q]) (q ++ [t])) as (ts & Hts & Hloop);
      [lia|].
    exists (t :: ts). split; [now constructor|].
    cbn [seq]. rewrite for_each_cons, Hstep, Hloop.
    rewrite length_app, <- !app_assoc. simpl. rewrite Nat.add_1_r.
    reflexivity.
Qed.

Lemma trim_loop_pe_spec args (n i : nat) (rv : list nat)
    (q : list (pe_args float)) :
  well_shaped args → paired_end args = true →
  (i + n ≤ length (fastqs args))%nat →
  ∃ ts, Forall2 (λ k t, pe_task_at args k = Some t) (seq i n) ts
    ∧ for_each (trim_group_pe args) (seq i n) rv q
      = (q ++ ts, Return (rv ++ seq (length q) n)).
Proof.
  intros Hws Hpe. revert i rv q. induction n as [|n IH]; intros i rv q Hi.
  - exists []. split; [constructor|]. simpl. now rewrite !app_nil_r.
  - destruct (trim_group_pe_spec args rv i q Hws Hpe) as (t & Ht & Hstep);
      [lia|].
    destruct (IH (S i) (rv ++ [length q]) (q ++ [t])) as (ts & Hts & Hloop);
      [lia|].
    exists (t :: ts). split; [now constructor|].
    cbn [seq]. rewrite for_each_cons, Hstep, Hloop.
    rewrite length_app, <- !app_assoc. simpl. rewrite Nat.add_1_r.
    reflexivity.
Qed.

End SubmitFacts.

(** ** What [parse_arguments] returns *)

Section ParsedFacts.

Context {float : Type}.
Variable read_tsv : string → result (list (list string)).
Variable os_path_exists : string → bool.

Lemma fill_adapters_lists (fastqs : list (list string))
    (adapters0 : option (list adapter_row)) :
  (∀ rows, adapters0 = Some rows → Forall (λ ad, ∃ l, ad = row_list l) rows) →
  Forall (λ ad, ∃ l, ad = row_list l) (fill_adapters fastqs adapters0).
Proof.
  intros Hrows. unfold fill_adapters.
  assert (Hfill : Forall (λ ad, ∃ l, ad = row_list l)
            ((λ row, row_list ((λ _, "") <$> row)) <$> fastqs)).
  { apply Forall_fmap, Forall_forall. intros row _. simpl. eauto. }
  destruct adapters0 as [[|ad rows]|]; auto.
Qed.

Lemma one_cell_truthy (s : string) :
  length (cells (row_str s)) = 1%nat →
  forallb truthy (cells (row_str s)) = true.
Proof. destruct s as [|c [|c' s]]; simpl; try discriminate. reflexivity. Qed.

Lemma parse_arguments_fields (cl : cmdline float) (args : namespace float) :
  parse_arguments read_tsv os_path_exists cl = Return args →
  paired_end args = arg_paired_end cl
  ∧ auto_detect_adapter args = arg_auto_detect_adapter cl
  ∧ nth args = arg_nth cl
  ∧ out_dir args = arg_out_dir cl
  ∧ out_tsv args = arg_out_tsv cl
  ∧ check_dimension (paired_end args) (fastqs args) (adapters args)
    = Return ()
  ∧ ∃ fastqs0 adapters0,
      parse_adapters read_tsv os_path_exists fastqs0 (arg_adapters cl)
        = Return (fastqs args, adapters0)
      ∧ adapters args = fill_adapters (fastqs args) adapters0.
Proof.
  unfold parse_arguments. intros Hparse.
  apply bind_Return in Hparse as (fastqs0 & _ & Hparse).
  apply bind_Return in Hparse as ([fastqs1 adapters0] & Had & Hparse).
  apply bind_Return in Hparse as ([] & Hcheck & [= <-]). simpl.
  repeat split; auto. eauto.
Qed.

Lemma parse_arguments_well_shaped (cl : cmdline float)
    (args : namespace float) :
  parse_arguments read_tsv os_path_exists cl = Return args →
  well_shaped args ∧ assignable args.
Proof.
  intros Hparse.
  destruct (parse_arguments_fields cl args Hparse)
    as (_ & _ & _ & _ & _ & Hcheck & fastqs0 & adapters0 & Had & Hfill).
  apply check_dimension_ok in Hcheck as [Hlen Hrows].
  assert (Hws : well_shaped args).
  { split; [exact Hlen|]. intros i row Hrow.
    destruct (Hrows i row Hrow) as (Har & ad & Hadi & Hl).
    split; [exact Har|]. exists ad. split; [exact Hadi|].
    now rewrite <- row_len_cells, <- Hl. }
  split; [exact Hws|]. unfold assignable. rewrite Hfill.
  unfold parse_adapters in Had.
  destruct (arg_adapters cl) as [[|a0 given]|].
  - injection Had as _ <-. left. now apply fill_adapters_lists.
  - destruct (os_path_exists a0).
    + apply bind_Return in Had as (rows & _ & [= _ <-]). left.
      apply fill_adapters_lists. intros rows' [= <-].
      apply Forall_fmap, Forall_forall. intros l _. simpl. eauto.
    + assert (Hfq : fastqs args = (λ a, [a]) <$> (a0 :: given))
        by congruence.
      assert (Had0 : adapters0 = Some (row_str <$> (a0 :: given)))
        by congruence.
      clear Had. subst adapters0. right.
      assert (Hads : adapters args = row_str <$> (a0 :: given))
        by exact Hfill.
      rewrite <- Hads.
      assert (Hse : arity (paired_end args) = 1%nat).
      { destruct (Hrows 0%nat [a0]) as [<- _]; [|reflexivity].
        now rewrite Hfq. }
      destruct Hws as [_ Hws].
      apply Forall_forall. intros ad Hin. rewrite Hads in Hin.
      apply list_elem_of_fmap in Hin as (s & -> & Hs).
      apply list_elem_of_lookup in Hs as [i Hi].
      assert (Hrow : fastqs args !! i = Some [s])
        by now rewrite Hfq, list_lookup_fmap, Hi.
      destruct (Hws i [s] Hrow) as (_ & ad & Hadi & Hcells).
      rewrite Hads, list_lookup_fmap, Hi in Hadi. injection Hadi as <-.
      unfold group_detects. rewrite one_cell_truthy by congruence.
      now destruct (auto_detect_adapter args).
  - injection Had as _ <-. left. now apply fill_adapters_lists.
Qed.

End ParsedFacts.

(** ** The detection phase *)

Section DetectionFacts.

Context {float world : Type}.
Variable detect_most_likely_adapter :
  string → world → world * result (option string).
Implicit Types args : namespace float.

Lemma detection_of_cases args (i : nat) :
  detection_of args i = []
  ∨ ∃ row ad, detection_of args i = [row]
      ∧ fastqs args !! i = Some row ∧ adapters args !! i = Some ad
      ∧ group_detects (auto_detect_adapter args) ad = true.
Proof.
  unfold detection_of.
  destruct (fastqs args !! i) as [row|]; [|now left].
  destruct (adapters args !! i) as [ad|]; [|now left].
  destruct (group_detects (auto_detect_adapter args) ad) eqn:Hd; [|now left].
  right. eauto 10.
Qed.

Lemma detections_rows args (row : list string) :
  row ∈ detections args →
  ∃ i ad, fastqs args !! i = Some row ∧ adapters args !! i = Some ad
    ∧ group_detects (auto_detect_adapter args) ad = true.
Proof.
  unfold detections. intros Hin.
  apply elem_of_concat in Hin as (rows & Hrow & Hrows).
  apply list_elem_of_fmap in Hrows as (i & -> & _).
  destruct (detection_of_cases args i)
    as [Hnil|(row' & ad & Heq & Hfq & Had & Hd)].
  - rewrite Hnil in Hrow. now apply elem_of_nil in Hrow.
  - rewrite Heq in Hrow. apply list_elem_of_singleton in Hrow as ->. eauto.
Qed.

Lemma detections_length_from args (i n : nat) :
  (length (concat (detection_of args <$> seq i n)) ≤ n)%nat.
Proof.
  revert i. induction n as [|n IH]; intros i; [simpl; lia|].
  specialize (IH (S i)). cbn [seq]. rewrite fmap_cons. cbn [concat].
  rewrite length_app.
  destruct (detection_of_cases args i) as [->|(row & ad & -> & _)];
    simpl; lia.
Qed.

Lemma detections_length args :
  (length (detections args) ≤ length (fastqs args))%nat.
Proof. apply detections_length_from. Qed.

Lemma detections_none args :
  Forall (λ ad, group_detects (auto_detect_adapter args) ad = false)
    (adapters args) →
  detections args = [].
Proof.
  intros Hno. destruct (detections args) as [|row rows] eqn:Hd; [reflexivity|].
  destruct (detections_rows args row) as (i & ad & _ & Had & Hyes).
  { rewrite Hd. left. }
  rewrite Forall_forall in Hno.
  rewrite Hno in Hyes; [discriminate|].
  apply list_elem_of_lookup. eauto.
Qed.

Lemma kept_refl (adapters : list adapter_row) (bound : nat) :
  kept adapters bound adapters.
Proof. split; [reflexivity|]. intros i ad Had. exists ad. auto. Qed.

Lemma kept_all (adapters ads : list adapter_row) :
  kept adapters 0 ads → ads = adapters.
Proof.
  intros [Hlen Hkept]. apply list_eq_same_length with (length adapters);
    [reflexivity | exact Hlen|].
  intros i ad' ad Hi Hads Had.
  destruct (Hkept i ad Had) as (ad'' & Had'' & _ & _ & Hsame).
  rewrite (Hsame ltac:(lia)) in Had''. congruence.
Qed.

Lemma record_adapter_kept (adapters ads : list adapter_row) (bound : nat)
    (i j : nat) (v : option string) (l : list string) :
  kept adapters bound ads →
  adapters !! i = Some (row_list l) → (j < length l)%nat → (i < bound)%nat →
  ∃ ads', record_adapter ads (i, j) v = Return ads' ∧ kept adapters bound ads'.
Proof.
  intros [Hlen Hkept] Hi Hj Hb.
  destruct (Hkept i _ Hi) as (ad' & Hadi & Hcells & Hlist & _).
  destruct Hlist as [l' ->]; [eauto|]. simpl in Hcells.
  unfold record_adapter, matrix_set, index. simpl. rewrite Hadi. simpl.
  rewrite bool_decide_eq_true_2 by lia. simpl.
  eexists. split; [reflexivity|]. split; [now rewrite length_insert|].
  intros i' ad Hadi'. destruct (Hkept i' ad Hadi') as (ad'' & H1 & H2 & H3 & H4).
  destruct (decide (i = i')) as [<-|Hne].
  - rewrite list_lookup_insert_eq by (eapply lookup_lt_Some; eauto).
    eexists. split; [reflexivity|]. simpl. rewrite length_insert.
    assert (ad = row_list l) as -> by congruence. simpl.
    repeat split; [congruence | eauto | lia].
  - rewrite list_lookup_insert_ne by exact Hne. eauto.
Qed.

Lemma kept_well_shaped args (ads : list adapter_row) (bound : nat) :
  well_shaped args → kept (adapters args) bound ads →
  well_shaped (with_adapters args ads).
Proof.
  intros [Hlen Hrows] [Hlen' Hkept]. split; simpl; [congruence|].
  intros i row Hrow. destruct (Hrows i row Hrow) as (Har & ad & Had & Hcells).
  split; [exact Har|].
  destruct (Hkept i ad Had) as (ad' & Had' & Hcells' & _).
  exists ad'. split; [exact Had' | congruence].
Qed.

(** The detection phase on parsed arguments.  The tasks of the pool are
    the detections of the files of the groups that get detection; when
    the phase returns, every task has run and returned, the adapters
    keep the shape and the rows of the groups after the last row
    written; when it raises, the exception is that of a task. *)
Lemma detect_phase_spec (sched : list nat) args (w : world)
    (p1 : pool) (res : result (list adapter_row)) :
  well_shaped args → assignable args →
  detect_phase detect_most_likely_adapter sched args w = (p1, res) →
  pool_inv detect_most_likely_adapter p1
  ∧ job <$> slots p1 = concat (detections args)
  ∧ match res with
    | Return ads =>
        kept (adapters args) (length (detections args)) ads
        ∧ (∀ h e, (h, e) ∈ finished p1 → e = None)
        ∧ (∀ h, (h < length (concat (detections args)))%nat →
             ∃ e, (h, e) ∈ finished p1)
    | Raise e => ∃ h, (h, Some e) ∈ finished p1
    end.
Proof.
  intros Hws Hassign. unfold detect_phase.
  rewrite detect_submit_spec by exact Hws.
  set (queue := concat (detections args)).
  set (p0 := run_sched _ sched (new_pool w queue)).
  assert (Hp0 : pool_inv detect_most_likely_adapter p0)
    by apply run_sched_inv, new_pool_inv.
  assert (Hjobs0 : job <$> slots p0 = queue).
  { destruct (run_sched_extends detect_most_likely_adapter sched
                (new_pool w queue)) as (Hj & _).
    fold p0 in Hj. rewrite Hj. simpl. rewrite <- list_fmap_compose.
    apply list_fmap_id. }
  assert (Hlen0 : length (slots p0) = length queue).
  { now rewrite <- Hjobs0, length_fmap. }
  set (handles := enumerate2 (handles_for 0 (detections args))).
  assert (Hsnd : handles.*2 = seq 0 (length queue)).
  { unfold handles. now rewrite enumerate2_snd, handles_for_concat. }
  assert (Hrange : ∀ key h, (key, h) ∈ handles → (h < length (slots p0))%nat).
  { intros key h Hin. rewrite Hlen0.
    assert (Hh : h ∈ handles.*2).
    { apply list_elem_of_fmap. now exists (key, h). }
    rewrite Hsnd in Hh. apply elem_of_seq in Hh. lia. }
  intros Hget.
  destruct (get_each_inv _ _ _ _ _ _ _ Hget Hp0) as [Hp1 Hext].
  split; [exact Hp1|]. split; [destruct Hext as (-> & _); exact Hjobs0|].
  assert (Hrecord : ∀ a key h v, (key, h) ∈ handles →
            kept (adapters args) (length (detections args)) a →
            ∃ a', record_adapter a key v = Return a'
                  ∧ kept (adapters args) (length (detections args)) a').
  { intros a [i j] h v Hin Ha. unfold handles in Hin.
    apply enumerate2_lookup in Hin as (hs & Hhs & Hj).
    apply handles_for_lookup in Hhs as (row & Hrow & Hlen).
    assert (Hi : (i < length (detections args))%nat)
      by (eapply lookup_lt_Some; eauto).
    assert (Hjlt : (j < length row)%nat).
    { rewrite <- Hlen. eapply lookup_lt_Some; eauto. }
    destruct (detections_rows args row) as (g & ad & Hg & _).
    { apply list_elem_of_lookup. eauto. }
    destruct Hws as [Hl Hrows].
    destruct (Hrows g row Hg) as (Har & _).
    destruct Hassign as [Hlists|Hnone].
    2:{ rewrite (detections_none args Hnone) in Hi. simpl in Hi. lia. }
    pose proof (detections_length args) as Hdl.
    destruct (lookup_lt_is_Some_2 (adapters args) i) as [adi Hadi]; [lia|].
    rewrite Forall_forall in Hlists.
    destruct (Hlists adi) as [l ->]; [apply list_elem_of_lookup; eauto|].
    destruct (lookup_lt_is_Some_2 (fastqs args) i) as [rowi Hrowi]; [lia|].
    destruct (Hrows i rowi Hrowi) as (_ & ad' & Had' & Hcells).
    rewrite Hadi in Had'. injection Had' as <-. simpl in Hcells.
    eapply record_adapter_kept; eauto. lia. }
  assert (Htotal := get_each_total detect_most_likely_adapter record_adapter
    (kept (adapters args) (length (detections args)))
    handles (adapters args) p0 p1 res).
  destruct res as [ads|e].
  - split; [apply Htotal; auto using kept_refl|].
    destruct (get_each_Return detect_most_likely_adapter record_adapter
                (λ _, True) handles (adapters args) ads p0 p1)
      as [_ Hall]; auto.
    assert (Hcover : ∀ h, (h < length queue)%nat →
              ∃ t v, slots p1 !! h
                     = Some {| job := t; outcome := Some (Return v) |}).
    { intros h Hh.
      assert (Hin : h ∈ handles.*2) by (rewrite Hsnd; apply elem_of_seq; lia).
      apply list_elem_of_fmap in Hin as ([key h'] & -> & Hin). eauto. }
    destruct Hp1 as (_ & Hfin & Hdone). split.
    + intros h e Hin. destruct (Hfin h e Hin) as (t & r & Hslot & <-).
      destruct (Hcover h) as (t' & v & Hslot').
      { rewrite <- Hlen0, <- (extends_length _ _ Hext).
        eapply lookup_lt_Some; eauto. }
      rewrite Hslot in Hslot'. now injection Hslot' as _ ->.
    + intros h Hh. destruct (Hcover h Hh) as (t & v & Hslot).
      destruct (Hdone _ _ _ Hslot) as [Hin _]. eauto.
  - destruct Htotal as (key & h & t & Hin & Hslot); auto using kept_refl.
    destruct Hp1 as (_ & _ & Hdone).
    destruct (Hdone _ _ _ Hslot) as [Hfin _]. eauto.
Qed.

End DetectionFacts.

(** ** A phase of appending loops *)

Lemma enumerate_from_nth {A} (l : list A) (s i : nat) :
  enumerate_from s l !! i = (λ x, ((s + i)%nat, x)) <$> l !! i.
Proof.
  revert s i. induction l as [|x l IH]; intros s [|i]; simpl; auto.
  - now rewrite Nat.add_0_r.
  - rewrite IH. now replace (S s + i)%nat with (s + S i)%nat by lia.
Qed.

Section AppendPhase.

Context {world T R X : Type}.
Variable body : T → world → world * result R.
Variable f : R → X.

Lemma append_phase_spec (sched : list nat) (queue : list T) (w : world)
    (p' : pool) (res : result (list X)) :
  get_each body (λ a (_ : nat) v, Return (a ++ [f v]))
    (enumerate (seq 0 (length queue))) []
    (run_sched body sched (new_pool w queue)) = (p', res) →
  pool_inv body p'
  ∧ match res with
    | Return rows =>
        (∀ h e, (h, e) ∈ finished p' → e = None)
        ∧ (∀ h, (h < length queue)%nat → ∃ e, (h, e) ∈ finished p')
        ∧ Forall2 (λ t row, ∃ w v, (body t w).2 = Return v ∧ row = f v)
            queue rows
    | Raise e => ∃ h, (h, Some e) ∈ finished p'
    end
  ∧ ∀ h e, (h, e) ∈ finished p' → (h < length queue)%nat.
Proof.
  set (p0 := run_sched body sched (new_pool w queue)).
  set (handles := enumerate (seq 0 (length queue))).
  assert (Hp0 : pool_inv body p0) by apply run_sched_inv, new_pool_inv.
  assert (Hjobs0 : job <$> slots p0 = queue).
  { destruct (run_sched_extends body sched (new_pool w queue)) as (Hj & _).
    fold p0 in Hj. rewrite Hj. simpl. rewrite <- list_fmap_compose.
    apply list_fmap_id. }
  assert (Hlen0 : length (slots p0) = length queue).
  { now rewrite <- Hjobs0, length_fmap. }
  assert (Hhandles : ∀ key h, (key, h) ∈ handles ↔
            key = h ∧ (h < length queue)%nat).
  { intros key h. unfold handles. rewrite enumerate_lookup. split.
    - intros Hk. assert (Hlt := lookup_lt_Some _ _ _ Hk).
      rewrite length_seq in Hlt. rewrite lookup_seq_lt in Hk by exact Hlt.
      simpl in Hk. injection Hk as <-. now split.
    - intros [-> Hlt]. now rewrite lookup_seq_lt. }
  intros Hget.
  destruct (get_each_inv _ _ _ _ _ _ _ Hget Hp0) as [Hp1 Hext].
  assert (Hlen1 : length (slots p') = length queue).
  { now rewrite (extends_length _ _ Hext). }
  split; [exact Hp1|]. split.
  2:{ intros h e Hin. destruct Hp1 as (_ & Hfin & _).
      destruct (Hfin h e Hin) as (t & r & Hslot & _).
      rewrite <- Hlen1. eapply lookup_lt_Some; eauto. }
  destruct res as [rows|e].
  - destruct (get_each_Return body (λ a (_ : nat) v, Return (a ++ [f v]))
                (λ _, True) handles [] rows p0 p')
      as [_ Hall]; auto.
    assert (Hcover : ∀ h, (h < length queue)%nat →
              ∃ t v, slots p' !! h
                     = Some {| job := t; outcome := Some (Return v) |}).
    { intros h Hh. apply (Hall h h). now apply Hhandles. }
    destruct (get_each_append body f handles [] rows p0 p' Hp0 Hget)
      as (vs & -> & Hvs).
    destruct Hp1 as (_ & Hfin & Hdone). split; [|split].
    + intros h e Hin. destruct (Hfin h e Hin) as (t & r & Hslot & <-).
      destruct (Hcover h) as (t' & v & Hslot').
      { rewrite <- Hlen1. eapply lookup_lt_Some; eauto. }
      rewrite Hslot in Hslot'. now injection Hslot' as _ ->.
    + intros h Hh. destruct (Hcover h Hh) as (t & v & Hslot).
      destruct (Hdone _ _ _ Hslot) as [Hin _]. eauto.
    + simpl. apply Forall2_fmap_r.
      assert (Hlenv : length vs = length queue).
      { apply Forall2_length in Hvs. unfold handles, enumerate in Hvs.
        rewrite <- Hvs.
        rewrite <- (length_fmap snd), enumerate_from_snd, length_seq.
        reflexivity. }
      apply Forall2_same_length_lookup. split; [congruence|].
      intros i t v Ht Hv.
      assert (Hi : (i < length queue)%nat) by (eapply lookup_lt_Some; eauto).
      assert (Hkh : handles !! i = Some (i, i)).
      { unfold handles, enumerate.
        rewrite enumerate_from_nth, lookup_seq_lt by exact Hi. reflexivity. }
      destruct (Forall2_lookup_lr _ _ _ _ _ _ Hvs Hkh Hv)
        as (t' & w' & Ht' & Hbody).
      simpl in Ht'. rewrite Hjobs0, Ht in Ht'. injection Ht' as <-. eauto.
  - destruct (get_each_total body (λ a (_ : nat) v, Return (a ++ [f v]))
                (λ _, True) handles [] p0 p' (Raise e))
      as (key & h & t & Hin & Hslot); auto.
    + intros a key h v _ _. eauto.
    + intros key h Hin. rewrite Hlen0. now apply Hhandles in Hin.
    + destruct Hp1 as (_ & _ & Hdone).
      destruct (Hdone _ _ _ Hslot) as [Hfin _]. eauto.
Qed.

End AppendPhase.

(** ** The trimming phase *)

Section TrimFacts.

Context {float world : Type}.
Variable str_float : float → string.
Variable strip_ext_fastq : string → string.
Variable run_call : call → world → world * result unit.
Implicit Types args : namespace float.

Abbreviation trim_phase' := (trim_phase str_float strip_ext_fastq run_call).

Lemma run_body_Return {A} (b : list call * A) (w : world) (v : A) :
  (run_body run_call b w).2 = Return v → v = b.2.
Proof.
  unfold run_body. destruct (run_calls run_call b.1 w) as [w' [[]|e]]; simpl;
    congruence.
Qed.

Lemma Forall2_compose {A B C} (P : A → B → Prop) (Q : B → C → Prop)
    (S : A → C → Prop) (la : list A) (lb : list B) (lc : list C) :
  (∀ a b c, P a b → Q b c → S a c) →
  Forall2 P la lb → Forall2 Q lb lc → Forall2 S la lc.
Proof.
  intros HS HP. revert lc. induction HP as [|a b la lb Hab _ IH];
    intros lc HQ; inversion HQ; subst; constructor; eauto.
Qed.

(** The trimming phase on well-shaped arguments.  No task finishes
    twice and the tasks are those of the groups; when the phase
    returns, every task has run and returned and the rows collected
    are, in group order, what the tasks of the groups return; when it
    raises, the exception is that of a task. *)
Lemma trim_phase_spec (sched : list nat) args (w w2 : world)
    (fin : list (nat * option exn)) (res : result (list (list string))) :
  well_shaped args →
  trim_phase' sched args w = (w2, fin, res) →
  NoDup fin.*1
  ∧ (∀ h e, (h, e) ∈ fin → (h < length (fastqs args))%nat)
  ∧ match res with
    | Return rows =>
        (∀ h e, (h, e) ∈ fin → e = None)
        ∧ (∀ h, (h < length (fastqs args))%nat → ∃ e, (h, e) ∈ fin)
        ∧ Forall2 (λ i row,
                     trimmed_row str_float strip_ext_fastq args i = Some row)
            (seq 0 (length (fastqs args))) rows
    | Raise e => ∃ h, (h, Some e) ∈ fin
    end.
Proof.
  intros Hws. unfold trim_phase, trimmed_row.
  destruct (paired_end args) eqn:Hmode.
  - destruct (trim_loop_pe_spec args (length (fastqs args)) 0 [] [] Hws Hmode)
      as (ts & Hts & Hsub); [lia|].
    unfold trim_submit_pe. rewrite Hsub. simpl.
    assert (Hlen : length (fastqs args) = length ts).
    { apply Forall2_length in Hts. now rewrite length_seq in Hts. }
    rewrite Hlen in Hts |- *.
    destruct (get_each _ _ _ _ _) as [p' r] eqn:Hget. intros [= <- <- <-].
    destruct (append_phase_spec _ (λ v : list string, v) sched ts w p' r Hget)
      as ((Hnd & _) & Hres & Hrange).
    split; [exact Hnd|]. split; [exact Hrange|].
    destruct r as [rows|e]; [|exact Hres].
    destruct Hres as (Hnone & Hall & Hrows). repeat split; auto.
    eapply Forall2_compose; [|exact Hts|exact Hrows].
    intros i t row -> (w' & v & Hv & ->).
    now rewrite (run_body_Return _ _ _ Hv).
  - destruct (trim_loop_se_spec args (length (fastqs args)) 0 [] [] Hws Hmode)
      as (ts & Hts & Hsub); [lia|].
    unfold trim_submit_se. rewrite Hsub. simpl.
    assert (Hlen : length (fastqs args) = length ts).
    { apply Forall2_length in Hts. now rewrite length_seq in Hts. }
    rewrite Hlen in Hts |- *.
    destruct (get_each _ _ _ _ _) as [p' r] eqn:Hget. intros [= <- <- <-].
    destruct (append_phase_spec _ (λ v : string, [v]) sched ts w p' r Hget)
      as ((Hnd & _) & Hres & Hrange).
    split; [exact Hnd|]. split; [exact Hrange|].
    destruct r as [rows|e]; [|exact Hres].
    destruct Hres as (Hnone & Hall & Hrows). repeat split; auto.
    eapply Forall2_compose; [|exact Hts|exact Hrows].
    intros i t row -> (w' & v & Hv & ->).
    now rewrite (run_body_Return _ _ _ Hv).
Qed.

End TrimFacts.

(** ** The runs of a batch *)

Section BatchFacts.

Context {float world : Type}.
Variable str_float : float → string.
Variable strip_ext_fastq : string → string.
Variable read_tsv : string → result (list (list string)).
Variable os_path_exists : string → bool.
Variable run_call : call → world → world * result unit.
Variable detect_most_likely_adapter :
  string → world → world * result (option string).
Variable mkdir_p : string → world → world * result unit.
Variable write_tsv :
  string → list (list string) → world → world * result unit.
Implicit Types args : namespace float.

Abbreviation run_batch' :=
  (run_batch str_float strip_ext_fastq run_call detect_most_likely_adapter
     mkdir_p write_tsv).
Abbreviation the_main :=
  (main str_float strip_ext_fastq read_tsv os_path_exists run_call
     detect_most_likely_adapter mkdir_p write_tsv).

Lemma ran_all_intro (n : nat) (fin : list (nat * option exn)) :
  NoDup fin.*1 → (∀ h e, (h, e) ∈ fin → (h < n)%nat) →
  (∀ h e, (h, e) ∈ fin → e = None) →
  (∀ h, (h < n)%nat → ∃ e, (h, e) ∈ fin) →
  ran_all n fin.
Proof.
  intros Hnd Hlt Hnone Hall. repeat split; auto.
  intros h Hh. destruct (Hall h Hh) as [e He].
  now rewrite <- (Hnone h e He).
Qed.

(** Every run of a batch on parsed arguments has one of the four
    shapes. *)
Lemma run_batch_shape (sched1 sched2 : list nat) args (w : world) :
  well_shaped args → assignable args →
  batch_shape str_float strip_ext_fastq (num_process args) args
    (log (run_batch' sched1 sched2 args w))
    (exit (run_batch' sched1 sched2 args w)).
Proof.
  intros Hws Hassign. unfold run_batch.
  destruct (mkdir_p (out_dir args) w) as [w1 [[]|e]]; [|constructor].
  destruct (num_process args <? 1); [constructor|].
  destruct (detect_phase _ sched1 args w1) as [p1 detected] eqn:Hdetect.
  destruct (detect_phase_spec _ _ _ _ _ _ Hws Hassign Hdetect)
    as (Hinv1 & Hjobs1 & Hres1).
  assert (Hsome1 : ran_some (length (concat (detections args))) (finished p1)).
  { destruct Hinv1 as (Hnd & Hfin & _). split; [exact Hnd|].
    intros h e Hin. destruct (Hfin h e Hin) as (t & r & Hslot & _).
    rewrite <- Hjobs1, length_fmap. eapply lookup_lt_Some; eauto. }
  destruct detected as [ads|e].
  2:{ destruct Hres1 as [h Hh]. unfold stop. cbn [log exit].
      exact (detection_raised _ _ _ _ _ h e Hsome1 Hh). }
  destruct Hres1 as (Hkept & Hnone1 & Hall1).
  assert (Hran1 : ran_all (length (concat (detections args))) (finished p1)).
  { destruct Hsome1. now apply ran_all_intro. }
  destruct (trim_phase _ _ _ sched2 (with_adapters args ads) (os p1))
    as [[w2 fin2] trimmed] eqn:Htrim.
  destruct (trim_phase_spec _ _ _ _ _ _ _ _ _
              (kept_well_shaped _ _ _ Hws Hkept) Htrim)
    as (Hnd2 & Hlt2 & Hres2).
  simpl in Hlt2, Hres2.
  destruct trimmed as [rows|e].
  2:{ destruct Hres2 as [h Hh]. unfold stop. cbn [log exit].
      rewrite <- (app_assoc _ (tasks_done detection _)).
      apply (trimming_raised _ _ _ _ _ _ h e Hran1); [now split | exact Hh]. }
  destruct Hres2 as (Hnone2 & Hall2 & Hrows).
  destruct (write_tsv _ rows w2) as [w3 wrote]. cbn [log exit].
  rewrite <- (app_assoc _ (tasks_done trimming _)).
  rewrite <- (app_assoc _ (tasks_done detection _)).
  apply (manifest_written _ _ _ _ _ _ ads rows wrote Hran1); auto.
  now apply ran_all_intro.
Qed.

End BatchFacts.

(** ** What the shape of a run tells *)

Section ShapeFacts.

Context {float : Type}.
Variable str_float : float → string.
Variable strip_ext_fastq : string → string.
Implicit Types args : namespace float.

Abbreviation shape := (batch_shape str_float strip_ext_fastq).

Lemma in_tasks_done (ph : phase) (fin : list (nat * option exn)) (ev : event) :
  ev ∈ tasks_done ph fin ↔ ∃ h e, ev = task_done ph h e ∧ (h, e) ∈ fin.
Proof.
  unfold tasks_done. rewrite list_elem_of_fmap. split.
  - intros ([h e] & -> & Hin). eauto.
  - intros (h & e & -> & Hin). now exists (h, e).
Qed.

Lemma in_start args (n : Z) (ev : event) :
  ev ∈ start args n ↔ ev = mkdir_p_called (out_dir args) ∨ ev = pool_made n.
Proof.
  unfold start. rewrite !elem_of_cons. split; [|tauto].
  intros [?|[?|H]]; auto. now apply elem_of_nil in H.
Qed.

Lemma task_ids_tasks_done (ph : phase) (fin : list (nat * option exn)) :
  omap task_id (tasks_done ph fin) = (λ h, (ph, h)) <$> fin.*1.
Proof.
  unfold tasks_done. induction fin as [|[h e] fin IH]; [reflexivity|].
  rewrite !fmap_cons. cbn [omap list_omap task_id]. now rewrite <- IH.
Qed.

Lemma task_ids_nodup (fin1 fin2 : list (nat * option exn)) :
  NoDup fin1.*1 → NoDup fin2.*1 →
  NoDup (omap task_id (tasks_done detection fin1 ++ tasks_done trimming fin2)).
Proof.
  intros H1 H2. rewrite omap_app, !task_ids_tasks_done. apply NoDup_app.
  split; [|split].
  - apply NoDup_fmap; [intros a b; congruence | exact H1].
  - intros [ph h] Hin1 Hin2.
    apply list_elem_of_fmap in Hin1 as (h1 & [= -> ->] & _).
    apply list_elem_of_fmap in Hin2 as (h2 & [= _] & _).
  - apply NoDup_fmap; [intros a b; congruence | exact H2].
Qed.

Lemma task_ids_start args (n : Z) (lg : list event) :
  omap task_id (start args n ++ lg) = omap task_id lg.
Proof. reflexivity. Qed.

(** The pool of a run has the size [n]. *)
Lemma shape_pool (n : Z) args (lg : list event) (ex : result unit) (m : Z) :
  shape n args lg ex → pool_made m ∈ lg → m = n.
Proof.
  intros Hshape Hin.
  assert (Hstart : pool_made m ∈ start args n → m = n).
  { intros H. apply in_start in H as [H|H]; congruence. }
  assert (Htd : ∀ ph fin, pool_made m ∈ tasks_done ph fin → m = n).
  { intros ph fin H. apply in_tasks_done in H as (h & e & H & _).
    discriminate. }
  destruct Hshape as [e|fin1 h e _ _|fin1 fin2 h e _ _ _
                     |fin1 fin2 ads rows res _ _ _ _];
    rewrite ?elem_of_app in Hin.
  - apply list_elem_of_singleton in Hin. discriminate.
  - destruct Hin as [Hm|Hm]; eauto.
  - destruct Hin as [Hm|[Hm|Hm]]; eauto.
  - destruct Hin as [Hm|[Hm|[Hm|Hm]]]; eauto.
    apply list_elem_of_singleton in Hm. discriminate.
Qed.

(** No task runs twice. *)
Lemma shape_no_retry (n : Z) args (lg : list event) (ex : result unit) :
  shape n args lg ex → NoDup (omap task_id lg).
Proof.
  intros Hshape. destruct Hshape as
    [e|fin1 h e [Hnd1 _] _|fin1 fin2 h e [[Hnd1 _] _] [Hnd2 _] _
    |fin1 fin2 ads rows res [[Hnd1 _] _] [[Hnd2 _] _] _ _].
  - simpl. constructor.
  - rewrite task_ids_start.
    rewrite <- (app_nil_r (tasks_done detection fin1)).
    change [] with (tasks_done trimming []).
    apply task_ids_nodup; [exact Hnd1 | constructor].
  - rewrite task_ids_start. now apply task_ids_nodup.
  - rewrite task_ids_start.
    rewrite (app_assoc (tasks_done detection fin1)), omap_app.
    cbn [omap list_omap task_id]. rewrite app_nil_r.
    now apply task_ids_nodup.
Qed.

(** A task that raised ends the run with the exception of a task,
    without a manifest, and without trimming if it was a detection. *)
Lemma shape_failure (n : Z) args (lg : list event) (ex : result unit)
    (ph : phase) (h : nat) (e : exn) :
  shape n args lg ex → task_done ph h (Some e) ∈ lg →
  (∃ ph' h' e', task_done ph' h' (Some e') ∈ lg ∧ ex = Raise e')
  ∧ (∀ tsv rows, write_tsv_called tsv rows ∉ lg)
  ∧ (ph = detection → ∀ h' e', task_done trimming h' e' ∉ lg).
Proof.
  intros Hshape Hin.
  assert (Hstart : ∀ ev, ev ∈ start args n → task_id ev = None
                         ∧ ∀ tsv rows, ev ≠ write_tsv_called tsv rows).
  { intros ev H. apply in_start in H as [->| ->]; split; auto; discriminate. }
  destruct Hshape as
    [e0|fin1 h0 e0 _ Hh0|fin1 fin2 h0 e0 (_ & Hnone1 & _) _ Hh0
    |fin1 fin2 ads rows res (_ & Hnone1 & _) (_ & Hnone2 & _) _ _].
  - apply list_elem_of_singleton in Hin. discriminate.
  - split; [|split].
    + exists detection, h0, e0. split; [|reflexivity].
      apply elem_of_app. right. apply in_tasks_done. eauto.
    + intros tsv rows Hw. apply elem_of_app in Hw as [Hw|Hw].
      * destruct (Hstart _ Hw) as [_ Hne]. now apply (Hne tsv rows).
      * apply in_tasks_done in Hw as (? & ? & ? & _). discriminate.
    + intros _ h' e' Hw. apply elem_of_app in Hw as [Hw|Hw].
      * destruct (Hstart _ Hw) as [Hid _]. discriminate.
      * apply in_tasks_done in Hw as (? & ? & ? & _). discriminate.
  - split; [|split].
    + exists trimming, h0, e0. split; [|reflexivity].
      rewrite !elem_of_app. right. right. apply in_tasks_done. eauto.
    + intros tsv rows Hw. rewrite !elem_of_app in Hw.
      destruct Hw as [Hw|[Hw|Hw]].
      * destruct (Hstart _ Hw) as [_ Hne]. now apply (Hne tsv rows).
      * apply in_tasks_done in Hw as (? & ? & ? & _). discriminate.
      * apply in_tasks_done in Hw as (? & ? & ? & _). discriminate.
    + intros -> h' e' _. rewrite !elem_of_app in Hin.
      destruct Hin as [Hin|[Hin|Hin]].
      * destruct (Hstart _ Hin) as [Hid _]. discriminate.
      * apply in_tasks_done in Hin as (? & ? & [= <- <-] & Hin).
        discriminate (Hnone1 _ _ Hin).
      * apply in_tasks_done in Hin as (? & ? & ? & _). discriminate.
  - exfalso. rewrite !elem_of_app in Hin. destruct Hin as [Hin|[Hin|[Hin|Hin]]].
    + destruct (Hstart _ Hin) as [Hid _]. discriminate.
    + apply in_tasks_done in Hin as (? & ? & [= _ <- <-] & Hin).
      discriminate (Hnone1 _ _ Hin).
    + apply in_tasks_done in Hin as (? & ? & [= _ <- <-] & Hin).
      discriminate (Hnone2 _ _ Hin).
    + apply list_elem_of_singleton in Hin. discriminate.
Qed.

(** A manifest is written last, once, after every task of both phases
    has returned, and its rows are those of the groups. *)
Lemma shape_written (n : Z) args (lg : list event) (ex : result unit)
    (tsv : string) (rows : list (list string)) :
  shape n args lg ex → write_tsv_called tsv rows ∈ lg →
  ∃ before ads,
    lg = before ++ [write_tsv_called tsv rows]
    ∧ tsv = os_path_join (out_dir args) (out_tsv args)
    ∧ (∀ tsv' rows', write_tsv_called tsv' rows' ∉ before)
    ∧ (∀ ph h e, task_done ph h e ∈ before → e = None)
    ∧ (∀ h, (h < length (concat (detections args)))%nat →
         task_done detection h None ∈ before)
    ∧ (∀ h, (h < length (fastqs args))%nat →
         task_done trimming h None ∈ before)
    ∧ kept (adapters args) (length (detections args)) ads
    ∧ Forall2 (λ i row,
                 trimmed_row str_float strip_ext_fastq
                   (with_adapters args ads) i = Some row)
        (seq 0 (length (fastqs args))) rows.
Proof.
  intros Hshape Hin.
  assert (Hstart : ∀ ev, ev ∈ start args n → task_id ev = None
                         ∧ ∀ tsv rows, ev ≠ write_tsv_called tsv rows).
  { intros ev H. apply in_start in H as [->| ->]; split; auto; discriminate. }
  assert (Htd : ∀ ph fin tsv rows,
            write_tsv_called tsv rows ∉ tasks_done ph fin).
  { intros ph fin tsv' rows' H.
    apply in_tasks_done in H as (? & ? & ? & _). discriminate. }
  destruct Hshape as
    [e0|fin1 h0 e0 _ Hh0|fin1 fin2 h0 e0 _ _ Hh0
    |fin1 fin2 ads rows0 res (_ & Hnone1 & Hall1) (_ & Hnone2 & Hall2)
       Hkept Hrows].
  - apply list_elem_of_singleton in Hin. discriminate.
  - apply elem_of_app in Hin as [Hin|Hin].
    + destruct (Hstart _ Hin) as [_ Hne]. now destruct (Hne tsv rows).
    + now destruct (Htd _ _ _ _ Hin).
  - rewrite !elem_of_app in Hin. destruct Hin as [Hin|[Hin|Hin]].
    + destruct (Hstart _ Hin) as [_ Hne]. now destruct (Hne tsv rows).
    + now destruct (Htd _ _ _ _ Hin).
    + now destruct (Htd _ _ _ _ Hin).
  - assert (Heq : write_tsv_called tsv rows
                  = write_tsv_called
                      (os_path_join (out_dir args) (out_tsv args)) rows0).
    { rewrite !elem_of_app in Hin. destruct Hin as [Hin|[Hin|[Hin|Hin]]].
      - destruct (Hstart _ Hin) as [_ Hne]. now destruct (Hne tsv rows).
      - now destruct (Htd _ _ _ _ Hin).
      - now destruct (Htd _ _ _ _ Hin).
      - now apply list_elem_of_singleton in Hin. }
    injection Heq as -> ->.
    exists (start args n ++ tasks_done detection fin1
            ++ tasks_done trimming fin2), ads.
    split; [now rewrite <- !app_assoc|]. split; [reflexivity|].
    split; [|split; [|split; [|split; [|split]]]]; auto.
    + intros tsv' rows' Hw. rewrite !elem_of_app in Hw.
      destruct Hw as [Hw|[Hw|Hw]].
      * destruct (Hstart _ Hw) as [_ Hne]. now destruct (Hne tsv' rows').
      * now destruct (Htd _ _ _ _ Hw).
      * now destruct (Htd _ _ _ _ Hw).
    + intros ph h e Hw. rewrite !elem_of_app in Hw.
      destruct Hw as [Hw|[Hw|Hw]].
      * destruct (Hstart _ Hw) as [Hid _]. discriminate.
      * apply in_tasks_done in Hw as (? & ? & [= _ <- <-] & Hw). eauto.
      * apply in_tasks_done in Hw as (? & ? & [= _ <- <-] & Hw). eauto.
    + intros h Hh. rewrite !elem_of_app. right. left.
      apply in_tasks_done. eauto.
    + intros h Hh. rewrite !elem_of_app. right. right.
      apply in_tasks_done. eauto.
Qed.

End ShapeFacts.

(** ** The claims about [main] *)

Section MainFacts.

Context {float world : Type}.
Variable str_float : float → string.
Variable strip_ext_fastq : string → string.
Variable read_tsv : string → result (list (list string)).
Variable os_path_exists : string → bool.
Variable run_call : call → world → world * result unit.
Variable detect_most_likely_adapter :
  string → world → world * result (option string).
Variable mkdir_p : string → world → world * result unit.
Variable write_tsv :
  string → list (list string) → world → world * result unit.
Implicit Types args : namespace float.

Abbreviation parse := (parse_arguments (float:=float) read_tsv os_path_exists).
Abbreviation main_run :=
  (main str_float strip_ext_fastq read_tsv os_path_exists run_call
     detect_most_likely_adapter mkdir_p write_tsv).
Abbreviation detect_phase' := (detect_phase detect_most_likely_adapter).

Lemma main_shape (sched1 sched2 : list nat) (cl : cmdline float)
    args (w : world) :
  parse cl = Return args →
  batch_shape str_float strip_ext_fastq (num_process args) args
    (log (main_run sched1 sched2 cl w)) (exit (main_run sched1 sched2 cl w)).
Proof.
  intros Hparse. unfold main. rewrite Hparse.
  destruct (parse_arguments_well_shaped _ _ _ _ Hparse) as [Hws Hassign].
  now apply run_batch_shape.
Qed.

Lemma num_process_min args :
  num_process args
  = Z.min (nth args)
      (Z.of_nat (length (fastqs args)) * Z.of_nat (arity (paired_end args))).
Proof. unfold num_process. destruct (paired_end args); simpl; lia. Qed.

(** C9. The pool of a run, the one pool both phases use, is made with
    [min(requested threads, groups * arity)] processes, arity 2 in
    paired-end mode and 1 in single-end mode; so it is never larger
    than the number of slots. *)
Theorem pool_size (sched1 sched2 : list nat) (cl : cmdline float) args
    (w : world) (n : Z) :
  parse cl = Return args →
  pool_made n ∈ log (main_run sched1 sched2 cl w) →
  n = Z.min (nth args)
        (Z.of_nat (length (fastqs args)) * Z.of_nat (arity (paired_end args)))
  ∧ n ≤ Z.of_nat (length (fastqs args) * arity (paired_end args)).
Proof.
  intros Hparse Hin.
  rewrite (shape_pool _ _ _ _ _ _ _ (main_shape sched1 sched2 cl args w Hparse)
             Hin).
  rewrite num_process_min. split; [reflexivity | lia].
Qed.

Lemma trimmed_row_cells args (i : nat) (row : list string) :
  trimmed_row str_float strip_ext_fastq args i = Some row →
  ∃ fs, fastqs args !! i = Some fs
    ∧ length row = arity (paired_end args)
    ∧ ∀ j f, fs !! j = Some f →
        ∃ p, row !! j = Some p
          ∧ (p = linked_path (out_dir args) f
             ∨ p = trimmed_path strip_ext_fastq (out_dir args) f).
Proof.
  unfold trimmed_row, pe_task_at, se_task_at.
  destruct (paired_end args).
  - destruct (fastqs args !! i) as [[|f0 [|f1 [|]]]|]; try discriminate.
    destruct (adapters args !! i) as [ad|]; try discriminate.
    destruct (cells ad) as [|a0 [|a1 [|]]]; try discriminate.
    intros [= <-]. exists [f0; f1]. split; [reflexivity|].
    unfold trim_adapter_pe. simpl.
    destruct (truthy a0 && truthy a1); simpl; (split; [reflexivity|]);
      intros [|[|j]] f [= <-]; eexists; (split; [reflexivity|]); auto.
  - destruct (fastqs args !! i) as [[|f0 [|]]|]; try discriminate.
    destruct (adapters args !! i) as [ad|]; try discriminate.
    destruct (cells ad) as [|a0 [|]]; try discriminate.
    intros [= <-]. exists [f0]. split; [reflexivity|].
    unfold trim_adapter_se. simpl.
    destruct (truthy a0); simpl; (split; [reflexivity|]);
      intros [|j] f [= <-]; eexists; (split; [reflexivity|]); auto.
Qed.

(** C7. When a batch completes, whatever the order in which the workers
    finished the tasks, the manifest written, the last thing the run
    does, has one row per group, every row has as many columns as the
    arity of the mode, and the path at row [i], column [j] is the
    output of the file at group [i], slot [j]: its hard link or its
    trimmed file. *)
Theorem manifest_rows (sched1 sched2 : list nat) (cl : cmdline float) args
    (w : world) :
  parse cl = Return args →
  exit (main_run sched1 sched2 cl w) = Return () →
  ∃ before rows,
    log (main_run sched1 sched2 cl w)
    = before
      ++ [write_tsv_called (os_path_join (out_dir args) (out_tsv args)) rows]
    ∧ (∀ tsv' rows', write_tsv_called tsv' rows' ∉ before)
    ∧ length rows = length (fastqs args)
    ∧ Forall (λ row, length row = arity (paired_end args)) rows
    ∧ ∀ i j fs f, fastqs args !! i = Some fs → fs !! j = Some f →
        ∃ row p, rows !! i = Some row ∧ row !! j = Some p
          ∧ (p = linked_path (out_dir args) f
             ∨ p = trimmed_path strip_ext_fastq (out_dir args) f).
Proof.
  intros Hparse Hexit.
  pose proof (main_shape sched1 sched2 cl args w Hparse) as Hshape.
  assert (Hwritten : ∃ tsv rows,
            write_tsv_called tsv rows ∈ log (main_run sched1 sched2 cl w)).
  { revert Hshape Hexit. generalize (log (main_run sched1 sched2 cl w)).
    generalize (exit (main_run sched1 sched2 cl w)).
    intros ex lg Hshape Hex. destruct Hshape; try discriminate.
    eexists _, _. rewrite !elem_of_app. do 3 right. left. }
  destruct Hwritten as (tsv & rows & Hin).
  destruct (shape_written _ _ _ _ _ _ _ _ Hshape Hin)
    as (before & ads & Hlog & -> & Hnow & _ & _ & _ & _ & Hrows).
  exists before, rows. split; [exact Hlog|]. split; [exact Hnow|].
  assert (Hlen : length rows = length (fastqs args)).
  { apply Forall2_length in Hrows. now rewrite length_seq in Hrows. }
  split; [exact Hlen|]. split.
  - apply Forall_forall. intros row Hrow.
    apply list_elem_of_lookup in Hrow as [i Hi].
    destruct (Forall2_lookup_r _ _ _ _ _ Hrows Hi) as (k & _ & Hk).
    now destruct (trimmed_row_cells _ _ _ Hk) as (_ & _ & Hl & _).
  - intros i j fs f Hfs Hf.
    assert (Hi : (i < length rows)%nat).
    { rewrite Hlen. eapply lookup_lt_Some; eauto. }
    destruct (lookup_lt_is_Some_2 _ _ Hi) as [row Hrow].
    assert (Hseq : seq 0 (length (fastqs args)) !! i = Some i).
    { rewrite lookup_seq_lt by lia. reflexivity. }
    pose proof (Forall2_lookup_lr _ _ _ _ _ _ Hrows Hseq Hrow) as Hk.
    destruct (trimmed_row_cells _ _ _ Hk) as (fs' & Hfs' & _ & Hcells).
    simpl in Hfs'. rewrite Hfs in Hfs'. injection Hfs' as <-.
    destruct (Hcells j f Hf) as (p & Hp & Hwhich). eauto.
Qed.

(** C8. A detection or trim task that raises ends the run with the
    exception of a task that raised; no manifest is written; no trim
    task has run if the task was a detection; and no task runs twice in
    any run.  A manifest is written at most once, as the last thing of
    the run, when every detection task and every trim task has run and
    returned. *)
Theorem failure_aborts_batch (sched1 sched2 : list nat) (cl : cmdline float)
    (w : world) :
  let r := main_run sched1 sched2 cl w in
  (∀ ph h e, task_done ph h (Some e) ∈ log r →
     (∃ ph' h' e', task_done ph' h' (Some e') ∈ log r ∧ exit r = Raise e')
     ∧ (∀ tsv rows, write_tsv_called tsv rows ∉ log r)
     ∧ (ph = detection → ∀ h' e', task_done trimming h' e' ∉ log r))
  ∧ NoDup (omap task_id (log r))
  ∧ (∀ tsv rows, write_tsv_called tsv rows ∈ log r →
       ∃ before,
         log r = before ++ [write_tsv_called tsv rows]
         ∧ (∀ tsv' rows', write_tsv_called tsv' rows' ∉ before)
         ∧ (∀ ph h e, task_done ph h e ∈ before → e = None)
         ∧ ∀ args, parse cl = Return args →
             (∀ h, (h < length (concat (detections args)))%nat →
                task_done detection h None ∈ before)
             ∧ (∀ h, (h < length (fastqs args))%nat →
                  task_done trimming h None ∈ before)).
Proof.
  intros r. destruct (parse cl) as [args|e0] eqn:Hparse.
  - pose proof (main_shape sched1 sched2 cl args w Hparse) as Hshape.
    fold r in Hshape. split; [|split].
    + intros ph h e Hin. exact (shape_failure _ _ _ _ _ _ _ _ _ Hshape Hin).
    + exact (shape_no_retry _ _ _ _ _ _ Hshape).
    + intros tsv rows Hin.
      destruct (shape_written _ _ _ _ _ _ _ _ Hshape Hin)
        as (before & ads & Hlog & _ & Hnow & Hnone & Hall1 & Hall2 & _).
      exists before. split; [exact Hlog|]. split; [exact Hnow|].
      split; [exact Hnone|]. intros args' Heq. injection Heq as <-.
      now split.
  - assert (Hlog : log r = []).
    { unfold r, main. now rewrite Hparse. }
    rewrite Hlog. split; [|split].
    + intros ph h e Hin. now apply elem_of_nil in Hin.
    + constructor.
    + intros tsv rows Hin. now apply elem_of_nil in Hin.
Qed.

(** C1, as the code has it.  The detection tasks queued are those of
    the files of every group in which, auto-detection being on, one
    adapter is empty: all the slots of such a group, in group order and
    slot order, and no task for any other group.  When no group gets
    detection (auto-detection is off, or every group has all its
    adapters), the adapters the trim phase reads are the ones given. *)
Theorem detection_per_group (sched : list nat) (cl : cmdline float) args
    (w : world) :
  parse cl = Return args →
  (detect_submit args []).1 = concat (detections args)
  ∧ ∀ p1 ads,
      detect_phase' sched args w = (p1, Return ads) →
      Forall (λ ad, group_detects (auto_detect_adapter args) ad = false)
        (adapters args) →
      adapters (with_adapters args ads) = adapters args.
Proof.
  intros Hparse.
  destruct (parse_arguments_well_shaped _ _ _ _ Hparse) as [Hws Hassign].
  split; [now rewrite detect_submit_spec|].
  intros p1 ads Hphase Hno.
  destruct (detect_phase_spec _ _ _ _ _ _ Hws Hassign Hphase)
    as (_ & _ & Hkept & _).
  rewrite (detections_none args Hno) in Hkept. cbn [length] in Hkept.
  apply kept_all in Hkept. subst ads. reflexivity.
Qed.

(** C3, what the code does.  The value recorded for a detection that
    returned [None] is the string ["None"], which is not empty: the
    single-end trim task given it builds the external command, with
    [-a None], and makes no hard link. *)
Theorem none_adapter_is_trimmed (ads : list adapter_row) (i j : nat)
    (fastq : string) (min_trim_len : Z) (err_rate : float)
    (out_dir : string) :
  record_adapter ads (i, j) None = matrix_set ads i j "None"
  ∧ truthy (str_adapter None) = true
  ∧ ∃ cmd,
      (trim_adapter_se str_float strip_ext_fastq fastq (str_adapter None)
         min_trim_len err_rate out_dir).1 = [run_shell_cmd cmd]
      ∧ contains cmd (" -a None " +:+ fastq).
Proof.
  split; [reflexivity|]. split; [reflexivity|].
  unfold trim_adapter_se. simpl. eexists. split; [reflexivity|].
  apply (contains_append_r "cutadapt ").
  apply (contains_append_r (min_len_option min_trim_len)).
  apply (contains_append_r " -e ").
  apply (contains_append_r (str_float err_rate)).
  eexists "", _. reflexivity.
Qed.

End MainFacts.

(** ** The claims on examples *)

Lemma pool_size_witness :
  let cl := Demo.cmd ["a/r1.fastq.gz"; "b/r2.fastq.gz"] None false false 4 in
  let r := Demo.main (λ _, Return None) Demo.never Demo.no_tsv Demo.no_file
             [] [] cl in
  pool_made 2 ∈ log r ∧ 2 = Z.min 4 (2 * 1) ∧ 2 ≤ 2.
Proof.
  assert (Hin : pool_made 2 ∈ log
            (Demo.main (λ _, Return None) Demo.never Demo.no_tsv Demo.no_file
               [] [] (Demo.cmd ["a/r1.fastq.gz"; "b/r2.fastq.gz"]
                        None false false 4))).
  { vm_compute. right. left. }
  split; [exact Hin|].
  exact (pool_size Demo.str_float Demo.strip_ext_fastq Demo.no_tsv Demo.no_file
           (Demo.run_call Demo.never) (Demo.detect (λ _, Return None))
           Demo.mkdir_p Demo.write_tsv [] []
           (Demo.cmd ["a/r1.fastq.gz"; "b/r2.fastq.gz"] None false false 4)
           (Demo.batch [["a/r1.fastq.gz"]; ["b/r2.fastq.gz"]] [[""]; [""]]
              false false 4)
           [] 2 eq_refl Hin).
Defined.

(** Two single-end groups, the second trim task finishing first: the
    manifest is in group order. *)
Example manifest_in_group_order :
  let r := Demo.main (λ _, Return None) Demo.never Demo.no_tsv Demo.no_file
             [] [1; 0]%nat
             (Demo.cmd ["a/r1.fastq.gz"; "b/r2.fastq.gz"] None false false 4) in
  log r = [mkdir_p_called "out"; pool_made 2;
           task_done trimming 1 None; task_done trimming 0 None;
           write_tsv_called "out/out.tsv" [["out/r1.fastq.gz"]; ["out/r2.fastq.gz"]]]
  ∧ last r = [os_link "b/r2.fastq.gz" "out/r2.fastq.gz";
              os_link "a/r1.fastq.gz" "out/r1.fastq.gz"].
Proof. vm_compute. auto. Qed.

Lemma manifest_rows_witness :
  let cl := Demo.cmd ["a/r1.fastq.gz"; "b/r2.fastq.gz"] None false false 4 in
  let r := Demo.main (λ _, Return None) Demo.never Demo.no_tsv Demo.no_file
             [] [1; 0]%nat cl in
  exit r = Return ()
  ∧ ∃ before rows,
      log r = before ++ [write_tsv_called "out/out.tsv" rows]
      ∧ (∀ tsv' rows', write_tsv_called tsv' rows' ∉ before)
      ∧ length rows = 2%nat
      ∧ Forall (λ row, length row = 1%nat) rows
      ∧ ∀ i j fs f,
          [["a/r1.fastq.gz"]; ["b/r2.fastq.gz"]] !! i = Some fs →
          fs !! j = Some f →
          ∃ row p, rows !! i = Some row ∧ row !! j = Some p
            ∧ (p = linked_path "out" f
               ∨ p = trimmed_path Demo.strip_ext_fastq "out" f).
Proof.
  split; [reflexivity|].
  exact (manifest_rows Demo.str_float Demo.strip_ext_fastq Demo.no_tsv
           Demo.no_file (Demo.run_call Demo.never)
           (Demo.detect (λ _, Return None)) Demo.mkdir_p Demo.write_tsv
           [] [1; 0]%nat
           (Demo.cmd ["a/r1.fastq.gz"; "b/r2.fastq.gz"] None false false 4)
           (Demo.batch [["a/r1.fastq.gz"]; ["b/r2.fastq.gz"]] [[""]; [""]]
              false false 4)
           [] eq_refl eq_refl).
Defined.

(** The trim task of the first group raises after that of the second
    has returned: the run ends with its exception and writes nothing. *)
Example failed_link_run :
  let r := Demo.main (λ _, Return None) first_link_fails Demo.no_tsv
             Demo.no_file [] [1; 0]%nat
             (Demo.cmd ["a/r1.fastq.gz"; "b/r2.fastq.gz"] None false false 4) in
  log r = [mkdir_p_called "out"; pool_made 2;
           task_done trimming 1 None;
           task_done trimming 0 (Some (Exception "helper failed"))]
  ∧ exit r = Raise (Exception "helper failed").
Proof. vm_compute. auto. Qed.

Lemma failure_aborts_batch_witness :
  let r := Demo.main (λ _, Return None) first_link_fails Demo.no_tsv
             Demo.no_file [] [1; 0]%nat
             (Demo.cmd ["a/r1.fastq.gz"; "b/r2.fastq.gz"] None false false 4) in
  task_done trimming 0 (Some (Exception "helper failed")) ∈ log r
  ∧ (∃ ph' h' e', task_done ph' h' (Some e') ∈ log r ∧ exit r = Raise e')
  ∧ (∀ tsv rows, write_tsv_called tsv rows ∉ log r).
Proof.
  assert (Hin : task_done trimming 0 (Some (Exception "helper failed")) ∈ log
            (Demo.main (λ _, Return None) first_link_fails Demo.no_tsv
               Demo.no_file [] [1; 0]%nat
               (Demo.cmd ["a/r1.fastq.gz"; "b/r2.fastq.gz"]
                  None false false 4))).
  { vm_compute. do 3 right. left. }
  split; [exact Hin|].
  destruct (proj1 (failure_aborts_batch Demo.str_float Demo.strip_ext_fastq
                     Demo.no_tsv Demo.no_file (Demo.run_call first_link_fails)
                     (Demo.detect (λ _, Return None)) Demo.mkdir_p
                     Demo.write_tsv [] [1; 0]%nat
                     (Demo.cmd ["a/r1.fastq.gz"; "b/r2.fastq.gz"]
                        None false false 4) [])
              trimming 0%nat (Exception "helper failed") Hin)
    as (Hexit & Hnone & _).
  split; [exact Hexit | exact Hnone].
Defined.

(** C1, the claim as stated fails.  A paired-end group given the
    adapter of read 1 only, auto-detection on: the specification asks
    for one detection task, for read 2; the program queues one for each
    read, and the adapter given for read 1 is replaced by the detected
    one before the trim phase. *)
Lemma detection_not_per_slot :
  let files := [("fastqs.tsv", [["a_R1.fastq.gz"; "a_R2.fastq.gz"]]);
                ("adapters.tsv", [["AGATCGGAAGAGC"; ""]])] in
  let cl := Demo.cmd ["fastqs.tsv"] (Some ["adapters.tsv"]) true true 2 in
  ∃ args,
    parse_arguments (Demo.read_tsv files) (Demo.os_path_exists files) cl
    = Return args
    ∧ adapters args = [row_list ["AGATCGGAAGAGC"; ""]]
    ∧ empty_slots args = ["a_R2.fastq.gz"]
    ∧ (detect_submit args []).1 = ["a_R1.fastq.gz"; "a_R2.fastq.gz"]
    ∧ (detect_submit args []).1 ≠ empty_slots args
    ∧ (detect_phase (Demo.detect (λ _, Return (Some "CTGTCTCTTATA")))
         [] args []).2
      = Return [row_list ["CTGTCTCTTATA"; "CTGTCTCTTATA"]].
Proof.
  eexists. split; [reflexivity|]. repeat split. discriminate.
Qed.

Lemma detection_per_group_witness :
  let files := [("adapters.tsv", [[""]; ["AGATCGGAAGAGC"]])] in
  let given := [("adapters.tsv", [["CTGTCTCTTATA"]; ["AGATCGGAAGAGC"]])] in
  let cl := Demo.cmd ["a/r1.fastq.gz"; "b/r2.fastq.gz"]
              (Some ["adapters.tsv"]) true false 2 in
  let detect := Demo.detect (λ _, Return (Some "TGGAATTCTCGG")) in
  (∃ args,
     parse_arguments (Demo.read_tsv files) (Demo.os_path_exists files) cl
     = Return args
     ∧ (detect_submit args []).1 = ["a/r1.fastq.gz"])
  ∧ ∃ args ads,
      parse_arguments (Demo.read_tsv given) (Demo.os_path_exists given) cl
      = Return args
      ∧ (detect_phase detect [] args []).2 = Return ads
      ∧ adapters (with_adapters args ads)
        = [row_list ["CTGTCTCTTATA"]; row_list ["AGATCGGAAGAGC"]].
Proof.
  set (files := [("adapters.tsv", [[""]; ["AGATCGGAAGAGC"]])]).
  set (given := [("adapters.tsv", [["CTGTCTCTTATA"]; ["AGATCGGAAGAGC"]])]).
  set (cl := Demo.cmd ["a/r1.fastq.gz"; "b/r2.fastq.gz"]
               (Some ["adapters.tsv"]) true false 2).
  set (detect := Demo.detect (λ _, Return (Some "TGGAATTCTCGG"))).
  set (args1 := Demo.batch [["a/r1.fastq.gz"]; ["b/r2.fastq.gz"]]
                  [[""]; ["AGATCGGAAGAGC"]] true false 2).
  set (args2 := Demo.batch [["a/r1.fastq.gz"]; ["b/r2.fastq.gz"]]
                  [["CTGTCTCTTATA"]; ["AGATCGGAAGAGC"]] true false 2).
  split.
  - exists args1. split; [reflexivity|].
    exact (proj1 (detection_per_group (world:=Demo.world)
                    (Demo.read_tsv files) (Demo.os_path_exists files) detect
                    [] cl args1 [] eq_refl)).
  - exists args2, (adapters args2). split; [reflexivity|].
    split; [reflexivity|].
    apply (proj2 (detection_per_group (world:=Demo.world)
                    (Demo.read_tsv given) (Demo.os_path_exists given) detect
                    [] cl args2 [] eq_refl)
             (detect_phase detect [] args2 []).1 (adapters args2) eq_refl).
    repeat constructor.
Defined.

(** The slip left out of C1: the values detected for the [k]-th group
    that gets detection are written to row [k] of the adapters, not to
    the row of the group.  Here the second group gets detection; the
    adapter given for the first group is replaced and the second stays
    empty. *)
Example detected_adapter_misplaced :
  let args := Demo.batch [["a/r1.fastq.gz"]; ["b/r2.fastq.gz"]]
                [["AGATCGGAAGAGC"]; [""]] true false 2 in
  (detect_submit args []).1 = ["b/r2.fastq.gz"]
  ∧ (detect_phase (Demo.detect (λ _, Return (Some "CTGTCTCTTATA")))
       [] args []).2
    = Return [row_list ["CTGTCTCTTATA"]; row_list [""]].
Proof. split; reflexivity. Qed.

(** C3 on a run: one single-end file, no adapter given, auto-detection
    on, the detector returning [None].  The trim task runs the external
    command with the adapter ["None"]; no hard link is made. *)
Example none_adapter_run :
  let r := Demo.main (λ _, Return None) Demo.never Demo.no_tsv Demo.no_file
             [] [] (Demo.cmd ["a/r1.fastq.gz"] None true false 1) in
  last r = [run_shell_cmd
              "cutadapt -m 5 -e 0.1 -a None a/r1.fastq.gz | gzip -nc > out/r1.trim.fastq.gz"]
  ∧ log r = [mkdir_p_called "out"; pool_made 1;
             task_done detection 0 None; task_done trimming 0 None;
             write_tsv_called "out/out.tsv" [["out/r1.trim.fastq.gz"]]].
Proof. vm_compute. auto. Qed.

(** * Further properties *)

(** ** Validation accepts exactly the well-shaped matrices *)

Lemma check_rows_raise (paired_end : bool) (adapters : list adapter_row)
    (rest : list (list string)) (i : nat) (e : exn) :
  (i + length rest ≤ length adapters)%nat →
  check_rows paired_end adapters i rest = Raise e →
  ∃ k row, rest !! k = Some row
    ∧ (length row ≠ arity paired_end
       ∨ ∃ ad, adapters !! (i + k)%nat = Some ad ∧ length row ≠ row_len ad).
Proof.
  revert i. induction rest as [|row rest IH]; intros i Hlen Hraise;
    [discriminate|]. simpl in Hlen, Hraise.
  destruct (paired_end && negb (length row =? 2)%nat) eqn:H2.
  { exists 0%nat, row. split; [reflexivity|]. left.
    apply andb_true_iff in H2 as [-> H2]. simpl.
    now apply negb_true_iff, Nat.eqb_neq in H2. }
  destruct (negb paired_end && negb (length row =? 1)%nat) eqn:H1.
  { exists 0%nat, row. split; [reflexivity|]. left.
    apply andb_true_iff in H1 as [Hse H1]. apply negb_true_iff in Hse as ->.
    simpl. now apply negb_true_iff, Nat.eqb_neq in H1. }
  destruct (index_lt adapters i) as (ad & Hidx & Had); [lia|].
  rewrite Hidx in Hraise. simpl in Hraise.
  destruct (length row =? row_len ad)%nat eqn:Hl; simpl in Hraise.
  - destruct (IH (S i)) as (k & row' & Hk & Hbad); [lia | exact Hraise|].
    exists (S k), row'. split; [exact Hk|].
    now replace (i + S k)%nat with (S i + k)%nat by lia.
  - exists 0%nat, row. split; [reflexivity|]. right. exists ad.
    rewrite Nat.add_0_r. split; [exact Had|]. now apply Nat.eqb_neq.
Qed.

Lemma check_dimension_raise (paired_end : bool) (fastqs : list (list string))
    (adapters : list adapter_row) (e : exn) :
  check_dimension paired_end fastqs adapters = Raise e →
  shape_violation paired_end fastqs adapters.
Proof.
  unfold check_dimension.
  destruct (Nat.eqb_spec (length adapters) (length fastqs)) as [Heq|Hne];
    simpl; [|now left].
  intros Hraise.
  assert (Hle : (0 + length fastqs ≤ length adapters)%nat) by lia.
  destruct (check_rows_raise _ _ _ 0%nat e Hle Hraise)
    as (k & row & Hk & [Har|(ad & Had & Hl)]).
  - right; left. eauto.
  - right; right. eauto 10.
Qed.

Lemma check_dimension_accepts (paired_end : bool)
    (fastqs : list (list string)) (adapters : list adapter_row) :
  ¬ shape_violation paired_end fastqs adapters →
  check_dimension paired_end fastqs adapters = Return ().
Proof.
  intros Hok.
  destruct (check_dimension paired_end fastqs adapters) as [[]|e] eqn:Hcheck;
    [reflexivity|].
  destruct Hok. eapply check_dimension_raise, Hcheck.
Qed.

(** X1. The dimension check of [parse_arguments] returns exactly when
    the two matrices keep the shape contract: equal outer lengths,
    every group of the arity of the mode and with as many adapters as
    files. *)
Theorem check_dimension_exact (paired_end : bool)
    (fastqs : list (list string)) (adapters : list adapter_row) :
  check_dimension paired_end fastqs adapters = Return ()
  ↔ ¬ shape_violation paired_end fastqs adapters.
Proof.
  split; [|apply check_dimension_accepts].
  intros Hok Hbad.
  destruct (check_dimension_violation _ _ _ Hbad) as (msg & _ & Hraise).
  congruence.
Qed.

Lemma check_rows_offending (paired_end : bool) (adapters : list adapter_row)
    (rest : list (list string)) (i m : nat) :
  length (drop i adapters) = length rest →
  match offending_group_from paired_end m rest (drop i adapters) with
  | None => check_rows paired_end adapters i rest = Return ()
  | Some g =>
      (m ≤ g)%nat
      ∧ ∃ row, rest !! (g - m)%nat = Some row
          ∧ check_rows paired_end adapters i rest
            = Raise (ArgumentTypeError (violation_message paired_end row))
  end.
Proof.
  revert i m. induction rest as [|row rest IH]; intros i m Hlen.
  - now destruct (drop i adapters).
  - destruct (drop i adapters) as [|ad ads] eqn:Hdrop; [discriminate|].
    assert (Had : adapters !! i = Some ad).
    { rewrite <- (Nat.add_0_r i), <- lookup_drop, Hdrop. reflexivity. }
    assert (Hnext : drop (S i) adapters = ads).
    { replace (S i) with (i + 1)%nat by lia.
      rewrite <- drop_drop, Hdrop. reflexivity. }
    cbn [offending_group_from check_rows]. unfold index. rewrite Had.
    cbn [bind]. unfold violation_message.
    destruct paired_end; cbn [arity andb negb].
    + destruct (Nat.eqb_spec (length row) 2) as [H2|H2]; cbn [negb].
      * destruct (Nat.eqb_spec (length row) (row_len ad)) as [Hl|Hl];
          cbn [negb].
        -- rewrite bool_decide_eq_true_2 by now split.
           specialize (IH (S i) (S m)). rewrite Hnext in IH.
           simpl in Hlen. injection Hlen as Hlen. specialize (IH Hlen).
           destruct (offending_group_from true (S m) rest ads) as [g|];
             [|exact IH].
           destruct IH as (Hg & row' & Hrow' & Hraise). split; [lia|].
           exists row'. split; [|exact Hraise].
           now replace (g - m)%nat with (S (g - S m)) by lia.
        -- rewrite bool_decide_eq_false_2 by (intros [_ ?]; contradiction).
           split; [lia|]. exists row. rewrite Nat.sub_diag.
           split; [reflexivity|]. apply Nat.eqb_eq in H2. now rewrite H2.
      * rewrite bool_decide_eq_false_2 by (intros [? _]; contradiction).
        split; [lia|]. exists row. rewrite Nat.sub_diag.
        split; [reflexivity|]. apply Nat.eqb_neq in H2. now rewrite H2.
    + destruct (Nat.eqb_spec (length row) 1) as [H1|H1]; cbn [negb].
      * destruct (Nat.eqb_spec (length row) (row_len ad)) as [Hl|Hl];
          cbn [negb].
        -- rewrite bool_decide_eq_true_2 by now split.
           specialize (IH (S i) (S m)). rewrite Hnext in IH.
           simpl in Hlen. injection Hlen as Hlen. specialize (IH Hlen).
           destruct (offending_group_from false (S m) rest ads) as [g|];
             [|exact IH].
           destruct IH as (Hg & row' & Hrow' & Hraise). split; [lia|].
           exists row'. split; [|exact Hraise].
           now replace (g - m)%nat with (S (g - S m)) by lia.
        -- rewrite bool_decide_eq_false_2 by (intros [_ ?]; contradiction).
           split; [lia|]. exists row. rewrite Nat.sub_diag.
           split; [reflexivity|]. apply Nat.eqb_eq in H1. now rewrite H1.
      * rewrite bool_decide_eq_false_2 by (intros [? _]; contradiction).
        split; [lia|]. exists row. rewrite Nat.sub_diag.
        split; [reflexivity|]. apply Nat.eqb_neq in H1. now rewrite H1.
Qed.

(** X2. When the two matrices have as many rows, the check stops at the
    first group that has not the arity of the mode or not as many files
    as adapters, and its message is decided by that group alone: the
    arity message of the mode if the group has not the arity, the
    dimension message otherwise.  Later groups are not looked at. *)
Theorem first_violation_decides_error (paired_end : bool)
    (fastqs : list (list string)) (adapters : list adapter_row) (g : nat) :
  length adapters = length fastqs →
  offending_group paired_end fastqs adapters = Some g →
  ∃ row, fastqs !! (g - 1)%nat = Some row
    ∧ check_dimension paired_end fastqs adapters
      = Raise (ArgumentTypeError (violation_message paired_end row)).
Proof.
  intros Hlen Hg. unfold check_dimension.
  rewrite Hlen, Nat.eqb_refl. cbn [negb].
  pose proof (check_rows_offending paired_end adapters fastqs 0 1) as Hrows.
  rewrite drop_0 in Hrows. unfold offending_group in Hg.
  rewrite Hg in Hrows. destruct (Hrows Hlen) as (_ & row & Hrow & Hraise).
  eauto.
Qed.

(** ** Inline arguments *)

Section InlineArguments.

Context {float : Type}.
Variable read_tsv : string → result (list (list string)).
Variable os_path_exists : string → bool.

Abbreviation parse_cl := (parse_arguments (float:=float) read_tsv os_path_exists).

Lemma singletons_shape (given : list string) (adapters : list adapter_row) :
  length adapters = length given →
  Forall (λ ad, row_len ad = 1%nat) adapters →
  ¬ shape_violation false ((λ f, [f]) <$> given) adapters.
Proof.
  intros Hlen Hone [Hne|[(i & row & Hi & Hne)|(i & row & ad & Hi & Had & Hne)]].
  - now rewrite length_fmap in Hne.
  - rewrite list_lookup_fmap in Hi. destruct (given !! i); [|discriminate].
    injection Hi as <-. now apply Hne.
  - rewrite list_lookup_fmap in Hi. destruct (given !! i); [|discriminate].
    injection Hi as <-. rewrite Forall_forall in Hone.
    rewrite Hone in Hne; [now apply Hne|]. apply list_elem_of_lookup. eauto.
Qed.

Lemma inline_single_end_parse (cl : cmdline float) (f0 : string)
    (others : list string) :
  arg_paired_end cl = false →
  arg_fastqs cl = f0 :: others →
  endswith f0 ".gz" = true →
  arg_adapters cl = None →
  ∃ args, parse_cl cl = Return args
    ∧ fastqs args = (λ f, [f]) <$> (f0 :: others)
    ∧ adapters args = (λ _, row_list [""]) <$> (f0 :: others).
Proof.
  intros Hse Hfq Hgz Hnone.
  assert (Hfill : fill_adapters ((λ f, [f]) <$> (f0 :: others)) None
                  = (λ _ : string, row_list [""]) <$> (f0 :: others)).
  { unfold fill_adapters. rewrite <- list_fmap_compose. reflexivity. }
  assert (Hfq0 : parse_fastqs read_tsv (arg_fastqs cl)
                 = Return ((λ f, [f]) <$> (f0 :: others))).
  { unfold parse_fastqs. rewrite Hfq. unfold index. simpl. now rewrite Hgz. }
  unfold parse_arguments. rewrite Hfq0, Hnone, Hse. unfold bind at 1.
  unfold parse_adapters, bind at 1. rewrite Hfill.
  rewrite check_dimension_accepts.
  - eexists. split; [reflexivity|]. split; reflexivity.
  - apply singletons_shape; [now rewrite !length_fmap|].
    apply Forall_fmap, Forall_forall. now intros f _.
Qed.

(** X3. A list of fastqs given inline in single-end mode without
    [--adapters] always parses: every fastq becomes a group of its own,
    in the order given, with one empty adapter. *)
Theorem inline_single_end_accepted (cl : cmdline float) (f0 : string)
    (others : list string) :
  arg_paired_end cl = false →
  arg_fastqs cl = f0 :: others →
  endswith f0 ".gz" = true →
  arg_adapters cl = None →
  ∃ args, parse_cl cl = Return args
    ∧ fastqs args = (λ f, [f]) <$> (f0 :: others)
    ∧ adapters args = (λ _, row_list [""]) <$> (f0 :: others)
    ∧ ¬ shape_violation false (fastqs args) (adapters args).
Proof.
  intros Hse Hfq Hgz Hnone.
  destruct (inline_single_end_parse cl f0 others Hse Hfq Hgz Hnone)
    as (args & Hparse & Hfastqs & Hads).
  exists args. split; [exact Hparse|]. split; [exact Hfastqs|].
  split; [exact Hads|]. rewrite Hfastqs, Hads.
  apply singletons_shape; [now rewrite !length_fmap|].
  apply Forall_fmap, Forall_forall. now intros f _.
Qed.

(** X4. Adapters given inline (the first is not an existing file) are
    accepted only in single-end mode and only when every adapter is a
    single character long; the fastq matrix then consists of the
    adapters, one per group, and the fastqs given are not in it. *)
Theorem inline_adapters_one_letter_only (cl : cmdline float)
    (args : namespace float) (a0 : string) (others : list string) :
  parse_cl cl = Return args →
  arg_adapters cl = Some (a0 :: others) →
  os_path_exists a0 = false →
  paired_end args = false
  ∧ fastqs args = (λ a, [a]) <$> (a0 :: others)
  ∧ Forall (λ a, String.length a = 1%nat) (a0 :: others).
Proof.
  intros Hparse Hgiven Hno.
  destruct (parse_arguments_fields _ _ _ _ Hparse)
    as (_ & _ & _ & _ & _ & Hcheck & fastqs0 & adapters0 & Had & Hfill).
  rewrite Hgiven in Had. unfold parse_adapters in Had. rewrite Hno in Had.
  assert (Hfq : fastqs args = (λ a, [a]) <$> (a0 :: others)) by congruence.
  assert (Hads : adapters args = row_str <$> (a0 :: others)).
  { rewrite Hfill.
    assert (adapters0 = Some (row_str <$> (a0 :: others))) as -> by congruence.
    reflexivity. }
  apply check_dimension_ok in Hcheck as [_ Hrows].
  assert (Hrow : ∀ i a, (a0 :: others) !! i = Some a →
            1%nat = arity (paired_end args) ∧ 1%nat = String.length a).
  { intros i a Hi. destruct (Hrows i [a]) as (Har & ad & Had' & Hl).
    { now rewrite Hfq, list_lookup_fmap, Hi. }
    rewrite Hads, list_lookup_fmap, Hi in Had'. injection Had' as <-.
    now split. }
  split; [|split; [exact Hfq|]].
  - destruct (Hrow 0%nat a0 eq_refl) as [Har _].
    now destruct (paired_end args).
  - apply Forall_forall. intros a Ha.
    apply list_elem_of_lookup in Ha as [i Hi].
    now destruct (Hrow i a Hi).
Qed.

End InlineArguments.

(** ** The names of the outputs *)

Lemma has_sep_app (a b : string) : has_sep (a +:+ b) = has_sep a || has_sep b.
Proof.
  induction a as [|c a IH]; simpl; [reflexivity|].
  destruct (Ascii.eqb c sep); [reflexivity | exact IH].
Qed.

Lemma basename_id (b : string) : has_sep b = false → basename b = b.
Proof.
  destruct b as [|c b]; simpl; [reflexivity|].
  destruct (Ascii.eqb c sep); [discriminate|]. now intros ->.
Qed.

Lemma basename_app (x s : string) :
  has_sep s = false → basename (x +:+ s) = basename x +:+ s.
Proof.
  intros Hs. induction x as [|c x IH]; simpl; [now apply basename_id|].
  rewrite has_sep_app, Hs, orb_false_r.
  destruct (has_sep x); [exact IH|].
  now destruct (Ascii.eqb c sep).
Qed.

Lemma endswith_cons (c : ascii) (a suffix : string) :
  endswith (String c a) suffix
  = if String.eqb (String c a) suffix then true else endswith a suffix.
Proof. reflexivity. Qed.

Lemma endswith_split (a suffix : string) :
  endswith a suffix = true → ∃ a', a = a' +:+ suffix.
Proof.
  induction a as [|c a IH].
  - destruct suffix; [now exists ""|discriminate].
  - rewrite endswith_cons.
    destruct (String.eqb_spec (String c a) suffix) as [<-|_]; [now exists ""|].
    intros Hend. destruct (IH Hend) as [a' ->]. now exists (String c a').
Qed.

Lemma endswith_append (a s : string) : endswith (a +:+ s) s = true.
Proof.
  induction a as [|c a IH].
  - destruct s; [reflexivity|]. cbn [String.append]. rewrite endswith_cons.
    now rewrite String.eqb_refl.
  - cbn [String.append]. rewrite endswith_cons.
    destruct (String.eqb (String c (a +:+ s)) s); [reflexivity | exact IH].
Qed.

Lemma basename_sep_end (a : string) : basename (a +:+ "/") = "".
Proof.
  induction a as [|c a IH]; simpl; [reflexivity|].
  rewrite has_sep_app. simpl. now rewrite orb_true_r.
Qed.

Lemma os_path_join_name (a b : string) :
  has_sep b = false → basename (os_path_join a b) = b.
Proof.
  intros Hb. unfold os_path_join.
  destruct (startswith b "/") eqn:Hs.
  { apply startswith_sep in Hs. congruence. }
  destruct (truthy a) eqn:Ha; cbn [negb orb].
  - destruct (endswith a "/") eqn:Hend.
    + apply endswith_split in Hend as [a' ->].
      now rewrite basename_app, basename_sep_end.
    + rewrite <- append_assoc, basename_app, basename_sep_end by exact Hb.
      reflexivity.
  - apply truthy_false in Ha as ->. now apply basename_id.
Qed.

Lemma os_path_join_append (a b s : string) :
  has_sep b = false → has_sep s = false →
  os_path_join a b +:+ s = os_path_join a (b +:+ s).
Proof.
  intros Hb Hs. unfold os_path_join.
  destruct (startswith b "/") eqn:Hb'.
  { apply startswith_sep in Hb'. congruence. }
  destruct (startswith (b +:+ s) "/") eqn:Hbs.
  { apply startswith_sep in Hbs. rewrite has_sep_app, Hb, Hs in Hbs.
    discriminate. }
  destruct (negb (truthy a) || endswith a "/");
    now rewrite ?append_assoc.
Qed.

Section OutputNames.

Context {float : Type} (str_float : float → string).
Variable strip_ext_fastq : string → string.

(** The name of the output for an input: the basename as it is when
    nothing is trimmed, the basename without the fastq extension
    followed by [.trim.fastq.gz] otherwise. *)
Lemma trimmed_path_name (out_dir fastq : string) :
  let name := basename (strip_ext_fastq fastq) +:+ ".trim.fastq.gz" in
  trimmed_path strip_ext_fastq out_dir fastq = os_path_join out_dir name
  ∧ has_sep name = false
  ∧ basename (trimmed_path strip_ext_fastq out_dir fastq) = name
  ∧ endswith (trimmed_path strip_ext_fastq out_dir fastq) ".trim.fastq.gz"
    = true.
Proof.
  unfold trimmed_path.
  assert (Hname : has_sep (basename (strip_ext_fastq fastq) +:+ ".trim.fastq.gz")
                  = false).
  { now rewrite has_sep_app, basename_no_sep. }
  rewrite os_path_join_append by (auto using basename_no_sep).
  repeat split; auto using os_path_join_name.
  rewrite <- os_path_join_append by (auto using basename_no_sep).
  apply endswith_append.
Qed.

Lemma linked_path_name (out_dir fastq : string) :
  basename (linked_path out_dir fastq) = basename fastq.
Proof. apply os_path_join_name, basename_no_sep. Qed.

(** X5. The output of a single-end trim task is an entry of [out_dir]
    itself, whatever directories the input path has: the returned path
    is [out_dir] joined with a name without ['/'], the basename of the
    input when nothing is trimmed, and the basename of the input
    without its fastq extension followed by [.trim.fastq.gz], which the
    path then ends with, when the adapter is trimmed. *)
Theorem se_output_in_out_dir (fastq adapter : string) (min_trim_len : Z)
    (err_rate : float) (out_dir : string) :
  let path := (trim_adapter_se str_float strip_ext_fastq fastq adapter
                 min_trim_len err_rate out_dir).2 in
  let name := if truthy adapter
              then basename (strip_ext_fastq fastq) +:+ ".trim.fastq.gz"
              else basename fastq in
  path = os_path_join out_dir name
  ∧ has_sep name = false
  ∧ basename path = name
  ∧ (if truthy adapter then endswith path ".trim.fastq.gz" = true else True).
Proof.
  unfold trim_adapter_se. destruct (truthy adapter); simpl.
  - apply trimmed_path_name.
  - repeat split; auto using basename_no_sep.
    apply os_path_join_name, basename_no_sep.
Qed.

(** X6. The two outputs of a paired-end trim task are entries of
    [out_dir] itself, read 1 first: each is [out_dir] joined with a
    name without ['/'], the basenames of the two inputs when nothing is
    trimmed, and the basenames without the fastq extension followed by
    [.trim.fastq.gz] when both adapters are given. *)
Theorem pe_outputs_in_out_dir (fastq1 fastq2 adapter1 adapter2 : string)
    (min_trim_len : Z) (err_rate : float) (out_dir : string) :
  let paths := (trim_adapter_pe str_float strip_ext_fastq fastq1 fastq2
                  adapter1 adapter2 min_trim_len err_rate out_dir).2 in
  let name fastq :=
    if truthy adapter1 && truthy adapter2
    then basename (strip_ext_fastq fastq) +:+ ".trim.fastq.gz"
    else basename fastq in
  paths = [os_path_join out_dir (name fastq1);
           os_path_join out_dir (name fastq2)]
  ∧ has_sep (name fastq1) = false ∧ has_sep (name fastq2) = false
  ∧ basename <$> paths = [name fastq1; name fastq2].
Proof.
  unfold trim_adapter_pe. destruct (truthy adapter1 && truthy adapter2); simpl.
  - destruct (trimmed_path_name out_dir fastq1) as (H1 & Hn1 & Hb1 & _).
    destruct (trimmed_path_name out_dir fastq2) as (H2 & Hn2 & Hb2 & _).
    unfold trimmed_path in *. simpl in *.
    rewrite Hb1, Hb2, H1, H2. auto.
  - pose proof (linked_path_name out_dir fastq1) as Hb1.
    pose proof (linked_path_name out_dir fastq2) as Hb2.
    unfold linked_path in *. rewrite Hb1, Hb2.
    repeat split; auto using basename_no_sep.
Qed.

End OutputNames.

(** ** The steps of a batch *)

Section BatchSteps.

Context {float world : Type}.
Variable str_float : float → string.
Variable strip_ext_fastq : string → string.
Variable read_tsv : string → result (list (list string)).
Variable os_path_exists : string → bool.
Variable run_call : call → world → world * result unit.
Variable detect_most_likely_adapter :
  string → world → world * result (option string).
Variable mkdir_p : string → world → world * result unit.
Variable write_tsv :
  string → list (list string) → world → world * result unit.
Implicit Types args : namespace float.

Abbreviation parse_args :=
  (parse_arguments (float:=float) read_tsv os_path_exists).
Abbreviation batch :=
  (run_batch str_float strip_ext_fastq run_call detect_most_likely_adapter
     mkdir_p write_tsv).
Abbreviation whole_main :=
  (main str_float strip_ext_fastq read_tsv os_path_exists run_call
     detect_most_likely_adapter mkdir_p write_tsv).
Abbreviation detecting := (detect_phase detect_most_likely_adapter).
Abbreviation trimming_phase :=
  (trim_phase str_float strip_ext_fastq run_call).

(** The steps of [run_batch], one after the other, up to the one that
    raises. *)
Lemma run_batch_steps (sched1 sched2 : list nat) args (w : world) :
  let r := batch sched1 sched2 args w in
  let tsv := os_path_join (out_dir args) (out_tsv args) in
  (∃ w1 e, mkdir_p (out_dir args) w = (w1, Raise e)
     ∧ r = stop w1 [mkdir_p_called (out_dir args)] e)
  ∨ ∃ w1, mkdir_p (out_dir args) w = (w1, Return ())
    ∧ ((num_process args < 1
        ∧ r = stop w1 [mkdir_p_called (out_dir args)] ValueError)
       ∨ 1 ≤ num_process args
         ∧ ∃ p1 detected, detecting sched1 args w1 = (p1, detected)
           ∧ ((∃ e, detected = Raise e
                 ∧ r = stop (os p1)
                         (start args (num_process args)
                          ++ tasks_done detection (finished p1)) e)
              ∨ ∃ ads w2 fin2 trimmed,
                  detected = Return ads
                  ∧ trimming_phase sched2 (with_adapters args ads) (os p1)
                    = (w2, fin2, trimmed)
                  ∧ ((∃ e, trimmed = Raise e
                        ∧ r = stop w2
                                (start args (num_process args)
                                 ++ tasks_done detection (finished p1)
                                 ++ tasks_done trimming fin2) e)
                     ∨ ∃ rows w3 wrote,
                         trimmed = Return rows
                         ∧ write_tsv tsv rows w2 = (w3, wrote)
                         ∧ r = {| last := w3;
                                  log := start args (num_process args)
                                         ++ tasks_done detection (finished p1)
                                         ++ tasks_done trimming fin2
                                         ++ [write_tsv_called tsv rows];
                                  exit := wrote |}))).
Proof.
  unfold run_batch.
  destruct (mkdir_p (out_dir args) w) as [w1 [[]|e]]; [|left; eauto].
  right. exists w1. split; [reflexivity|].
  destruct (Z.ltb_spec (num_process args) 1) as [Hlt|Hge]; [left; auto|].
  right. split; [exact Hge|].
  destruct (detect_phase _ sched1 args w1) as [p1 detected] eqn:Hdetect.
  exists p1, detected. split; [reflexivity|].
  destruct detected as [ads|e]; [|left; eauto].
  right.
  destruct (trim_phase _ _ _ sched2 (with_adapters args ads) (os p1))
    as [[w2 fin2] trimmed] eqn:Htrim.
  exists ads, w2, fin2, trimmed. split; [reflexivity|]. split; [exact Htrim|].
  destruct trimmed as [rows|e].
  - right. destruct (write_tsv _ rows w2) as [w3 wrote] eqn:Hwrite.
    exists rows, w3, wrote. split; [reflexivity|]. split; [exact Hwrite|].
    now rewrite <- !app_assoc.
  - left. exists e. split; [reflexivity|]. now rewrite <- !app_assoc.
Qed.

Lemma main_is_batch (sched1 sched2 : list nat) (cl : cmdline float) args
    (w : world) :
  parse_args cl = Return args →
  whole_main sched1 sched2 cl w = batch sched1 sched2 args w.
Proof. intros Hparse. unfold main. now rewrite Hparse. Qed.

(** X7. A batch without group (an empty TSV of fastqs parses) or with
    less than one thread requested does nothing but make the output
    directory: making the pool raises [ValueError], no task is queued
    and no manifest is written. *)
Theorem no_process_no_batch (sched1 sched2 : list nat) (cl : cmdline float)
    args (w w1 : world) :
  parse_args cl = Return args →
  (fastqs args = [] ∨ arg_nth cl < 1) →
  mkdir_p (out_dir args) w = (w1, Return ()) →
  whole_main sched1 sched2 cl w
  = {| last := w1;
       log := [mkdir_p_called (out_dir args)];
       exit := Raise ValueError |}.
Proof.
  intros Hparse Hnone Hmkdir.
  rewrite (main_is_batch _ _ _ _ _ Hparse). unfold run_batch.
  rewrite Hmkdir.
  assert (Hlt : (num_process args <? 1) = true).
  { apply Z.ltb_lt.
    destruct (parse_arguments_fields _ _ _ _ Hparse) as (_ & _ & Hnth & _).
    unfold num_process. rewrite Hnth.
    destruct Hnone as [-> | Hn]; simpl; destruct (paired_end args); lia. }
  now rewrite Hlt.
Qed.

(** X8. On parsed arguments the main thread raises nothing of its own
    but the [ValueError] of a pool of less than one process: the
    exception a run ends with is that of [mkdir_p], of a detection or
    trim task, or of [write_tsv].  No index of [main] is out of range
    and no assignment fails. *)
Theorem only_helpers_raise (sched1 sched2 : list nat) (cl : cmdline float)
    args (w : world) (e : exn) :
  parse_args cl = Return args →
  exit (whole_main sched1 sched2 cl w) = Raise e →
  (mkdir_p (out_dir args) w).2 = Raise e
  ∨ (num_process args < 1 ∧ e = ValueError)
  ∨ (∃ ph h, task_done ph h (Some e) ∈ log (whole_main sched1 sched2 cl w))
  ∨ (∃ tsv rows w2,
       write_tsv_called tsv rows ∈ log (whole_main sched1 sched2 cl w)
       ∧ (write_tsv tsv rows w2).2 = Raise e).
Proof.
  intros Hparse. rewrite (main_is_batch _ _ _ _ _ Hparse).
  destruct (parse_arguments_well_shaped _ _ _ _ Hparse) as [Hws Hassign].
  destruct (run_batch_steps sched1 sched2 args w)
    as [(w1 & e1 & Hmk & ->)
       |(w1 & Hmk & [[Hlt ->]
                    |(Hge & p1 & detected & Hdetect &
                      [(e1 & -> & ->)
                      |(ads & w2 & fin2 & trimmed & -> & Htrim &
                        [(e2 & -> & ->)
                        |(rows & w3 & wrote & -> & Hwrite & ->)])])])];
    cbn [exit log stop]; intros Hexit.
  - left. rewrite Hmk. simpl. congruence.
  - right; left. split; [exact Hlt | congruence].
  - right; right; left. injection Hexit as ->.
    destruct (detect_phase_spec _ _ _ _ _ _ Hws Hassign Hdetect)
      as (_ & _ & h & Hh).
    exists detection, h. rewrite !elem_of_app. right.
    apply in_tasks_done. eauto.
  - right; right; left. injection Hexit as ->.
    destruct (detect_phase_spec _ _ _ _ _ _ Hws Hassign Hdetect)
      as (_ & _ & Hkept & _).
    destruct (trim_phase_spec _ _ _ _ _ _ _ _ _
                (kept_well_shaped _ _ _ Hws Hkept) Htrim)
      as (_ & _ & h & Hh).
    exists trimming, h. rewrite !elem_of_app. right. right.
    apply in_tasks_done. eauto.
  - right; right; right. eexists _, rows, w2.
    split; [rewrite !elem_of_app; do 3 right; left|].
    rewrite Hwrite. exact Hexit.
Qed.


Lemma written_when_returned (sched1 sched2 : list nat) args (w : world) :
  exit (batch sched1 sched2 args w) = Return () →
  ∃ tsv rows, write_tsv_called tsv rows ∈ log (batch sched1 sched2 args w).
Proof.
  destruct (run_batch_steps sched1 sched2 args w)
    as [(w1 & e1 & Hmk & ->)
       |(w1 & Hmk & [[Hlt ->]
                    |(Hge & p1 & detected & Hdetect &
                      [(e1 & -> & ->)
                      |(ads & w2 & fin2 & trimmed & -> & Htrim &
                        [(e2 & -> & ->)
                        |(rows & w3 & wrote & -> & Hwrite & ->)])])])];
    cbn [exit log stop]; try discriminate.
  intros _. eexists _, rows. rewrite !elem_of_app. do 3 right. left.
Qed.

Lemma rows_without_detection (sched1 sched2 : list nat)
    (cl : cmdline float) args (w : world) :
  parse_args cl = Return args →
  Forall (λ ad, group_detects (auto_detect_adapter args) ad = false)
    (adapters args) →
  exit (whole_main sched1 sched2 cl w) = Return () →
  ∃ before rows,
    log (whole_main sched1 sched2 cl w)
    = before
      ++ [write_tsv_called (os_path_join (out_dir args) (out_tsv args)) rows]
    ∧ Forall2 (λ i row,
                 trimmed_row str_float strip_ext_fastq args i = Some row)
        (seq 0 (length (fastqs args))) rows.
Proof.
  intros Hparse Hnone Hexit.
  pose proof (main_shape str_float strip_ext_fastq read_tsv os_path_exists
                run_call detect_most_likely_adapter mkdir_p write_tsv
                sched1 sched2 cl args w Hparse) as Hshape.
  rewrite (main_is_batch _ _ _ _ _ Hparse) in Hexit, Hshape |- *.
  destruct (written_when_returned _ _ _ _ Hexit) as (tsv & rows & Hin).
  destruct (shape_written _ _ _ _ _ _ _ _ Hshape Hin)
    as (before & ads & Hlog & -> & _ & _ & _ & _ & Hkept & Hrows).
  exists before, rows. split; [exact Hlog|].
  rewrite (detections_none args Hnone) in Hkept.
  apply kept_all in Hkept. subst ads. exact Hrows.
Qed.

(** X9. When no group gets detection (auto-detection is off, or every
    adapter is given), the manifest of a run that completes is a
    function of the parsed arguments alone: it has a row for every
    group, and row [i] is what the trim task of group [i] returns for
    the files and the adapters given, whatever the order in which the
    tasks finished and whatever the world. *)
Theorem manifest_without_detection (sched1 sched2 : list nat)
    (cl : cmdline float) args (w : world) :
  parse_args cl = Return args →
  Forall (λ ad, group_detects (auto_detect_adapter args) ad = false)
    (adapters args) →
  exit (whole_main sched1 sched2 cl w) = Return () →
  ∃ before rows,
    log (whole_main sched1 sched2 cl w)
    = before
      ++ [write_tsv_called (os_path_join (out_dir args) (out_tsv args)) rows]
    ∧ length rows = length (fastqs args)
    ∧ ∀ i row, rows !! i = Some row →
        trimmed_row str_float strip_ext_fastq args i = Some row.
Proof.
  intros Hparse Hnone Hexit.
  destruct (rows_without_detection sched1 sched2 cl args w Hparse Hnone Hexit)
    as (before & rows & Hlog & Hrows).
  exists before, rows. split; [exact Hlog|].
  assert (Hlen : length rows = length (fastqs args)).
  { apply Forall2_length in Hrows. now rewrite length_seq in Hrows. }
  split; [exact Hlen|]. intros i row Hrow.
  assert (Hi : (i < length (fastqs args))%nat).
  { rewrite <- Hlen. eapply lookup_lt_Some; eauto. }
  assert (Hseq : seq 0 (length (fastqs args)) !! i = Some i).
  { now rewrite lookup_seq_lt. }
  exact (Forall2_lookup_lr _ _ _ _ _ _ Hrows Hseq Hrow).
Qed.

(** X10. Fastqs given inline in single-end mode, no adapters,
    auto-detection off: the manifest of a run that completes has one
    row per fastq, in the order given, with the hard link of the fastq
    in the output directory under its own basename. *)
Theorem inline_single_end_manifest (sched1 sched2 : list nat)
    (cl : cmdline float) (f0 : string) (others : list string) (w : world) :
  arg_paired_end cl = false →
  arg_fastqs cl = f0 :: others →
  endswith f0 ".gz" = true →
  arg_adapters cl = None →
  arg_auto_detect_adapter cl = false →
  exit (whole_main sched1 sched2 cl w) = Return () →
  ∃ before,
    log (whole_main sched1 sched2 cl w)
    = before
      ++ [write_tsv_called (os_path_join (arg_out_dir cl) (arg_out_tsv cl))
            ((λ f, [linked_path (arg_out_dir cl) f]) <$> (f0 :: others))].
Proof.
  intros Hse Hfq Hgz Hnoad Hauto Hexit.
  destruct (inline_single_end_parse read_tsv os_path_exists cl f0 others
              Hse Hfq Hgz Hnoad) as (args & Hparse & Hfastqs & Hads).
  destruct (parse_arguments_fields _ _ _ _ Hparse)
    as (Hpe & Hau & _ & Hout & Htsv & _).
  assert (Hnone : Forall (λ ad, group_detects (auto_detect_adapter args) ad
                                = false) (adapters args)).
  { apply Forall_forall. intros ad _. unfold group_detects.
    now rewrite Hau, Hauto. }
  destruct (rows_without_detection sched1 sched2 cl args w Hparse Hnone Hexit)
    as (before & rows & Hlog & Hrows).
  exists before. rewrite Hlog, Hout, Htsv. do 3 f_equal.
  assert (Hlen : length rows = length (f0 :: others)).
  { apply Forall2_length in Hrows.
    now rewrite length_seq, Hfastqs, length_fmap in Hrows. }
  apply list_eq_same_length with (length (f0 :: others));
    [now rewrite length_fmap | exact Hlen|].
  intros i row row' Hi Hrow Hrow'.
  assert (Hseq : seq 0 (length (fastqs args)) !! i = Some i).
  { rewrite lookup_seq_lt; [reflexivity|].
    now rewrite Hfastqs, length_fmap. }
  pose proof (Forall2_lookup_lr _ _ _ _ _ _ Hrows Hseq Hrow) as Hi'.
  rewrite list_lookup_fmap in Hrow'.
  destruct ((f0 :: others) !! i) as [f|] eqn:Hf; [|discriminate].
  injection Hrow' as <-.
  unfold trimmed_row, se_task_at in Hi'.
  rewrite Hpe, Hse, Hfastqs, Hads, !list_lookup_fmap, Hf in Hi'.
  simpl in Hi'. injection Hi' as <-. unfold linked_path. now rewrite Hout.
Qed.

End BatchSteps.

(** ** The barrier between the phases *)

Lemma split_after {A} (x : A) (front back l1 l2 : list A) :
  front ++ back = l1 ++ x :: l2 → x ∉ front →
  ∃ mid, l1 = front ++ mid ∧ back = mid ++ x :: l2.
Proof.
  revert l1. induction front as [|a front IH]; intros l1 Heq Hnot.
  - exists l1. now split.
  - destruct l1 as [|a' l1]; simpl in Heq; injection Heq as -> Heq.
    + destruct Hnot. left.
    + destruct (IH l1 Heq) as (mid & -> & ->).
      { intros Hin. apply Hnot. now right. }
      now exists mid.
Qed.

Section Barrier.

Context {float : Type}.
Variable str_float : float → string.
Variable strip_ext_fastq : string → string.
Implicit Types args : namespace float.

Lemma shape_barrier (n : Z) args (lg : list event) (ex : result unit)
    (l1 l2 : list event) (h : nat) (e : option exn) :
  batch_shape str_float strip_ext_fastq n args lg ex →
  lg = l1 ++ task_done trimming h e :: l2 →
  (∀ h' e', task_done detection h' e' ∉ l2)
  ∧ (∀ h', (h' < length (concat (detections args)))%nat →
       task_done detection h' None ∈ l1).
Proof.
  intros Hshape Hlg.
  assert (Hin : task_done trimming h e ∈ lg).
  { rewrite Hlg, elem_of_app. right. left. }
  assert (Hfront : ∀ fin1,
            task_done trimming h e ∉ start args n ++ tasks_done detection fin1).
  { intros fin1 H. apply elem_of_app in H as [H|H].
    - apply in_start in H as [H|H]; discriminate.
    - apply in_tasks_done in H as (? & ? & ? & _). discriminate. }
  assert (Hback : ∀ fin2 (tail : list event) mid h' e',
            (∀ ev, ev ∈ tail → task_id ev = None) →
            tasks_done trimming fin2 ++ tail
            = mid ++ task_done trimming h e :: l2 →
            task_done detection h' e' ∉ l2).
  { intros fin2 tail mid h' e' Htail Heq Hl2.
    assert (Hin' : task_done detection h' e'
                   ∈ tasks_done trimming fin2 ++ tail).
    { rewrite Heq, elem_of_app. right. now right. }
    apply elem_of_app in Hin' as [H|H].
    - apply in_tasks_done in H as (? & ? & ? & _). discriminate.
    - discriminate (Htail _ H). }
  destruct Hshape as
    [e0|fin1 h0 e0 _ _|fin1 fin2 h0 e0 (_ & _ & Hall1) _ _
    |fin1 fin2 ads rows res (_ & _ & Hall1) _ _ _].
  - apply list_elem_of_singleton in Hin. discriminate.
  - now destruct (Hfront fin1).
  - rewrite app_assoc in Hlg.
    destruct (split_after _ _ _ _ _ Hlg (Hfront fin1)) as (mid & -> & Hmid).
    split.
    + intros h' e'. apply (Hback fin2 [] mid).
      * intros ev H. now apply elem_of_nil in H.
      * now rewrite app_nil_r.
    + intros h' Hh'. rewrite !elem_of_app. left. right.
      apply in_tasks_done. eauto.
  - rewrite app_assoc in Hlg.
    destruct (split_after _ _ _ _ _ Hlg (Hfront fin1)) as (mid & -> & Hmid).
    split.
    + intros h' e'. eapply (Hback fin2 _ mid); [|exact Hmid].
      intros ev H. now apply list_elem_of_singleton in H as ->.
    + intros h' Hh'. rewrite !elem_of_app. left. right.
      apply in_tasks_done. eauto.
Qed.

End Barrier.

(** ** The values a loop of [get] works on *)

Lemma Forall2_unique {A B} (R : A → B → Prop) (l : list A) (k k' : list B) :
  (∀ x y y', R x y → R x y' → y = y') →
  Forall2 R l k → Forall2 R l k' → k = k'.
Proof.
  intros Hfun Hk. revert k'. induction Hk as [|x y l k Hxy _ IH];
    intros k' Hk'; inversion Hk'; subst; [reflexivity|].
  f_equal; eauto.
Qed.

Section LoopValues.

Context {world T R : Type}.
Variable body : T → world → world * result R.

(** A loop of [get] that returns is the fold of its body over values
    the tasks of its handles returned, in the order of the handles. *)
Lemma get_each_values {S K} (k : S → K → R → result S)
    (handles : list (K * nat)) (acc acc' : S) (p p' : pool) :
  pool_inv body p →
  get_each body k handles acc p = (p', Return acc') →
  ∃ vs, Forall2 (λ kh v, ∃ t w, (job <$> slots p) !! kh.2 = Some t
                              ∧ (body t w).2 = Return v) handles vs
    ∧ fold_values k (zip handles.*1 vs) acc = Return acc'.
Proof.
  revert acc p. induction handles as [|[key h] handles IH];
    intros acc p Hp; simpl.
  - intros [= <- <-]. exists []. split; [constructor | reflexivity].
  - destruct (get body h p) as [p1 r] eqn:Hget.
    destruct (get_inv _ _ _ _ _ Hget Hp) as [Hp1 Hext1].
    destruct r as [v|e]; simpl; [|discriminate].
    destruct (k acc key v) as [acc1|e] eqn:Hk; [|discriminate].
    intros Hres. destruct (IH _ _ Hp1 Hres) as (vs & Hvs & Hfold).
    exists (v :: vs). split.
    + destruct Hext1 as (Hjobs & _). rewrite Hjobs in Hvs.
      constructor; [|exact Hvs]. simpl.
      destruct (get_spec _ _ _ _ _ Hget) as (_ & Hlt & Hge).
      destruct (decide (h < length (slots p))%nat) as [Hh|Hh];
        [|discriminate Hge; lia].
      destruct (Hlt Hh) as [t Ht].
      destruct Hp1 as (_ & _ & Hdone).
      destruct (Hdone _ _ _ Ht) as [_ [w Hw]]. exists t, w.
      split; [|exact Hw].
      rewrite <- Hjobs, list_lookup_fmap, Ht. reflexivity.
    + simpl. rewrite Hk. exact Hfold.
Qed.

End LoopValues.

(** ** Runs under different schedules *)

Section Schedules.

Context {float world : Type}.
Variable str_float : float → string.
Variable strip_ext_fastq : string → string.
Variable read_tsv : string → result (list (list string)).
Variable os_path_exists : string → bool.
Variable run_call : call → world → world * result unit.
Variable detect_most_likely_adapter :
  string → world → world * result (option string).
Variable mkdir_p : string → world → world * result unit.
Variable write_tsv :
  string → list (list string) → world → world * result unit.
Implicit Types args : namespace float.

Abbreviation parsing :=
  (parse_arguments (float:=float) read_tsv os_path_exists).
Abbreviation running :=
  (main str_float strip_ext_fastq read_tsv os_path_exists run_call
     detect_most_likely_adapter mkdir_p write_tsv).

(** X11. The phases do not overlap.  In the log of any run, no
    detection task finishes after a trim task has: before the first
    trim task of a run finishes, every detection task queued has run
    and returned. *)
Theorem detection_before_trimming (sched1 sched2 : list nat)
    (cl : cmdline float) args (w : world) (l1 l2 : list event) (h : nat)
    (e : option exn) :
  parsing cl = Return args →
  log (running sched1 sched2 cl w) = l1 ++ task_done trimming h e :: l2 →
  (∀ h' e', task_done detection h' e' ∉ l2)
  ∧ (∀ h', (h' < length (concat (detections args)))%nat →
       task_done detection h' None ∈ l1).
Proof.
  intros Hparse Hlog.
  exact (shape_barrier _ _ _ _ _ _ _ _ _ _
           (main_shape str_float strip_ext_fastq read_tsv os_path_exists
              run_call detect_most_likely_adapter mkdir_p write_tsv
              sched1 sched2 cl args w Hparse) Hlog).
Qed.

(** The adapters after the detection phase are the fold of the update
    over values of the detector. *)
Lemma detect_phase_values (sched : list nat) args (w : world) (p1 : pool)
    (ads : list adapter_row) :
  detect_phase detect_most_likely_adapter sched args w = (p1, Return ads) →
  ∃ ret_vals vs,
    (detect_submit args []).2 = Return ret_vals
    ∧ Forall2 (λ kh v, ∃ f w',
                 (detect_submit args []).1 !! kh.2 = Some f
                 ∧ (detect_most_likely_adapter f w').2 = Return v)
        (enumerate2 ret_vals) vs
    ∧ fold_values record_adapter (zip (enumerate2 ret_vals).*1 vs)
        (adapters args) = Return ads.
Proof.
  unfold detect_phase.
  destruct (detect_submit args []) as [queue [ret_vals|e]]; [|discriminate].
  intros Hget.
  set (p0 := run_sched _ sched (new_pool w queue)) in Hget.
  assert (Hp0 : pool_inv detect_most_likely_adapter p0)
    by apply run_sched_inv, new_pool_inv.
  assert (Hjobs0 : job <$> slots p0 = queue).
  { destruct (run_sched_extends detect_most_likely_adapter sched
                (new_pool w queue)) as (Hj & _).
    fold p0 in Hj. rewrite Hj. simpl. rewrite <- list_fmap_compose.
    apply list_fmap_id. }
  destruct (get_each_values _ _ _ _ _ _ _ Hp0 Hget) as (vs & Hvs & Hfold).
  exists ret_vals, vs. rewrite Hjobs0 in Hvs. now repeat split.
Qed.

(** X12. Concurrency is not observable in the manifest.  When the
    answer of the detector for a file does not depend on the moment it
    is asked, two runs of the same command line that complete write
    the same manifest, whatever the orders in which their tasks
    finished and whatever their worlds. *)
Theorem manifest_independent_of_schedule
    (answer : string → result (option string))
    (sched1 sched2 sched1' sched2' : list nat) (cl : cmdline float)
    (w w' : world) :
  (∀ f w0, (detect_most_likely_adapter f w0).2 = answer f) →
  exit (running sched1 sched2 cl w) = Return () →
  exit (running sched1' sched2' cl w') = Return () →
  ∃ tsv rows before before',
    log (running sched1 sched2 cl w)
    = before ++ [write_tsv_called tsv rows]
    ∧ log (running sched1' sched2' cl w')
      = before' ++ [write_tsv_called tsv rows].
Proof.
  intros Hanswer. unfold main.
  destruct (parsing cl) as [args|e0] eqn:Hparse; [|discriminate].
  destruct (parse_arguments_well_shaped _ _ _ _ Hparse) as [Hws Hassign].
  destruct (run_batch_steps str_float strip_ext_fastq run_call
              detect_most_likely_adapter mkdir_p write_tsv sched1 sched2
              args w)
    as [(w1 & e1 & Hmk & ->)
       |(w1 & Hmk & [[Hlt ->]
                    |(Hge & p1 & detected & Hdetect &
                      [(e1 & -> & ->)
                      |(ads & w2 & fin2 & trimmed & -> & Htrim &
                        [(e2 & -> & ->)
                        |(rows & w3 & wrote & -> & Hwrite & ->)])])])];
    cbn [exit log stop]; try discriminate.
  intros _.
  destruct (run_batch_steps str_float strip_ext_fastq run_call
              detect_most_likely_adapter mkdir_p write_tsv sched1' sched2'
              args w')
    as [(w1' & e1 & Hmk' & ->)
       |(w1' & Hmk' & [[Hlt ->]
                      |(Hge' & p1' & detected' & Hdetect' &
                        [(e1 & -> & ->)
                        |(ads' & w2' & fin2' & trimmed' & -> & Htrim' &
                          [(e2 & -> & ->)
                          |(rows' & w3' & wrote' & -> & Hwrite' & ->)])])])];
    cbn [exit log stop]; try discriminate.
  intros _.
  assert (Hads : ads' = ads).
  { destruct (detect_phase_values _ _ _ _ _ Hdetect)
      as (ret_vals & vs & Hsub & Hvs & Hfold).
    destruct (detect_phase_values _ _ _ _ _ Hdetect')
      as (ret_vals' & vs' & Hsub' & Hvs' & Hfold').
    assert (ret_vals' = ret_vals) as -> by congruence.
    assert (vs' = vs) as ->.
    { eapply Forall2_unique; [|exact Hvs'|exact Hvs].
      intros kh v1 v2 (f1 & w1a & Hf1 & Hv1) (f2 & w2a & Hf2 & Hv2).
      rewrite Hanswer in Hv1, Hv2. congruence. }
    congruence. }
  subst ads'.
  destruct (detect_phase_spec _ _ _ _ _ _ Hws Hassign Hdetect)
    as (_ & _ & Hkept & _).
  pose proof (kept_well_shaped _ _ _ Hws Hkept) as Hws'.
  destruct (trim_phase_spec _ _ _ _ _ _ _ _ _ Hws' Htrim)
    as (_ & _ & _ & _ & Hrows).
  destruct (trim_phase_spec _ _ _ _ _ _ _ _ _ Hws' Htrim')
    as (_ & _ & _ & _ & Hrows').
  assert (rows' = rows) as ->.
  { eapply Forall2_unique; [|exact Hrows'|exact Hrows].
    intros i r1 r2 H1 H2. congruence. }
  eexists _, rows, _, _. rewrite !app_assoc. split; reflexivity.
Qed.

End Schedules.

(** ** Without [--adapters] *)

Lemma check_rows_default (paired_end : bool) (fastqs rest : list (list string))
    (i : nat) :
  drop i fastqs = rest →
  check_rows paired_end (fill_adapters fastqs None) i rest
  = if forallb (λ row, (length row =? arity paired_end)%nat) rest
    then Return ()
    else Raise (ArgumentTypeError (arity_message paired_end)).
Proof.
  revert i. induction rest as [|row rest IH]; intros i Hdrop; [reflexivity|].
  assert (Hrow : fastqs !! i = Some row).
  { rewrite <- (Nat.add_0_r i), <- lookup_drop, Hdrop. reflexivity. }
  assert (Hnext : drop (S i) fastqs = rest).
  { replace (S i) with (i + 1)%nat by lia.
    rewrite <- drop_drop, Hdrop. reflexivity. }
  cbn [check_rows forallb]. unfold index, fill_adapters.
  rewrite list_lookup_fmap, Hrow. cbn [fmap option_fmap option_map bind row_len].
  rewrite length_fmap, Nat.eqb_refl. cbn [negb].
  fold (fill_adapters fastqs None). rewrite (IH (S i) Hnext).
  unfold arity_message.
  destruct paired_end; cbn [arity andb negb];
    now destruct (length row =? _)%nat.
Qed.

Section DefaultAdapters.

Context {float : Type}.
Variable read_tsv : string → result (list (list string)).
Variable os_path_exists : string → bool.

(** X13. Without [--adapters] the adapters never cause an error: the
    matrix made for them has the shape of the fastq matrix, all cells
    empty, and [parse_arguments] returns exactly when every group has
    the arity of the mode, raising the arity message of the mode
    otherwise, whether the fastqs are given inline or in a TSV. *)
Theorem default_adapters_fit (cl : cmdline float)
    (fastqs0 : list (list string)) :
  arg_adapters cl = None →
  parse_fastqs read_tsv (arg_fastqs cl) = Return fastqs0 →
  parse_arguments read_tsv os_path_exists cl
  = if forallb (λ row, (length row =? arity (arg_paired_end cl))%nat) fastqs0
    then Return {|
           fastqs := fastqs0;
           adapters := (λ row, row_list ((λ _, "") <$> row)) <$> fastqs0;
           auto_detect_adapter := arg_auto_detect_adapter cl;
           min_trim_len := arg_min_trim_len cl;
           err_rate := arg_err_rate cl;
           paired_end := arg_paired_end cl;
           nth := arg_nth cl;
           out_dir := arg_out_dir cl;
           out_tsv := arg_out_tsv cl |}
    else Raise (ArgumentTypeError (arity_message (arg_paired_end cl))).
Proof.
  intros Hnone Hfq. unfold parse_arguments.
  rewrite Hfq, Hnone. unfold bind at 1. unfold parse_adapters, bind at 1.
  unfold check_dimension.
  assert (Hlen : length (fill_adapters fastqs0 None) = length fastqs0).
  { unfold fill_adapters. now rewrite length_fmap. }
  rewrite Hlen, Nat.eqb_refl. cbn [negb].
  rewrite (check_rows_default _ fastqs0 fastqs0 0) by apply drop_0.
  now destruct (forallb _ fastqs0).
Qed.

End DefaultAdapters.

(** ** Where the detected adapters go *)

Lemma record_adapter_cell (acc acc' : list adapter_row) (key : nat * nat)
    (v : option string) :
  record_adapter acc key v = Return acc' →
  cell acc' key = Some (str_adapter v)
  ∧ ∀ key', key' ≠ key → cell acc' key' = cell acc key'.
Proof.
  destruct key as [i j]. unfold record_adapter, matrix_set, cell. simpl.
  intros Hset. apply bind_Return in Hset as (r & Hr & Hset).
  apply index_Return in Hr.
  apply bind_Return in Hset as (r' & Hr' & [= <-]).
  destruct r as [l|s]; simpl in Hr'; [|discriminate].
  destruct (decide (j < length l)%nat) as [Hj|Hj].
  2:{ rewrite bool_decide_eq_false_2 in Hr' by exact Hj. discriminate. }
  rewrite bool_decide_eq_true_2 in Hr' by exact Hj. injection Hr' as <-.
  assert (Hi : (i < length acc)%nat) by (eapply lookup_lt_Some; eauto).
  split.
  - rewrite list_lookup_insert_eq by exact Hi. simpl.
    now rewrite list_lookup_insert_eq.
  - intros [i' j'] Hne. simpl. destruct (decide (i = i')) as [<-|Hi'].
    + rewrite list_lookup_insert_eq by exact Hi. rewrite Hr. simpl.
      apply list_lookup_insert_ne. congruence.
    + now rewrite list_lookup_insert_ne.
Qed.

Lemma fold_record_adapter (kvs : list ((nat * nat) * option string))
    (acc acc' : list adapter_row) :
  fold_values record_adapter kvs acc = Return acc' →
  (∀ key, key ∉ kvs.*1 → cell acc' key = cell acc key)
  ∧ (NoDup kvs.*1 →
     ∀ key v, (key, v) ∈ kvs → cell acc' key = Some (str_adapter v)).
Proof.
  revert acc. induction kvs as [|[key0 v0] kvs IH]; intros acc; simpl.
  - intros [= <-]. split; [reflexivity|].
    intros _ key v Hin. now apply elem_of_nil in Hin.
  - intros Hfold. apply bind_Return in Hfold as (acc1 & Hstep & Hfold).
    destruct (record_adapter_cell _ _ _ _ Hstep) as [Hset Hother].
    destruct (IH _ Hfold) as [Hkeep Hcells]. split.
    + intros key Hnot. rewrite Hkeep, Hother; [reflexivity| |].
      * intros ->. apply Hnot. left.
      * intros Hin. apply Hnot. now right.
    + intros Hnd key v Hin. apply NoDup_cons in Hnd as [Hfresh Hnd].
      apply elem_of_cons in Hin as [[= -> ->]|Hin].
      * now rewrite Hkeep, Hset.
      * now apply Hcells.
Qed.

Lemma enumerate_from_fst {A} (l : list A) (s : nat) :
  (enumerate_from s l).*1 = seq s (length l).
Proof.
  revert s. induction l as [|x l IH]; intros s; simpl; [reflexivity|].
  now rewrite IH.
Qed.

Lemma enumerate2_keys_from {A} (ll : list (list A)) (s : nat) :
  let keys := (concat ((λ '(i, l), (λ '(j, x), ((i, j), x)) <$> enumerate l)
                         <$> enumerate_from s ll)).*1 in
  NoDup keys ∧ ∀ key, key ∈ keys → (s ≤ key.1)%nat.
Proof.
  revert s. induction ll as [|l ll IH]; intros s; simpl.
  - split; [constructor|]. intros key Hin. now apply elem_of_nil in Hin.
  - destruct (IH (S s)) as [Hnd Hge]. rewrite fmap_app.
    assert (Hrow : ((λ '(j, x), ((s, j), x)) <$> enumerate l).*1
                   = (λ j, (s, j)) <$> seq 0 (length l)).
    { unfold enumerate. rewrite <- enumerate_from_fst.
      rewrite <- !list_fmap_compose. apply list_fmap_ext.
      now intros _ [j x] _. }
    rewrite Hrow. split.
    + apply NoDup_app. split; [|split; [|exact Hnd]].
      * apply NoDup_fmap; [intros a b; congruence | apply NoDup_seq].
      * intros key Hin Hin'. apply list_elem_of_fmap in Hin as (j & -> & _).
        specialize (Hge _ Hin'). simpl in Hge. lia.
    + intros key Hin. apply elem_of_app in Hin as [Hin|Hin].
      * apply list_elem_of_fmap in Hin as (j & -> & _). simpl. lia.
      * specialize (Hge _ Hin). lia.
Qed.

Lemma enumerate2_keys_nodup {A} (ll : list (list A)) :
  NoDup (enumerate2 ll).*1.
Proof. apply (enumerate2_keys_from ll 0). Qed.

Lemma handles_for_file {A} (rows : list (list A)) (s i j h : nat)
    (hs : list nat) :
  handles_for s rows !! i = Some hs → hs !! j = Some h →
  (s ≤ h)%nat
  ∧ ∃ row x, rows !! i = Some row ∧ row !! j = Some x
      ∧ concat rows !! (h - s)%nat = Some x.
Proof.
  revert s i. induction rows as [|row rows IH]; intros s [|i]; simpl;
    try discriminate.
  - intros [= <-] Hj.
    assert (Hlt : (j < length row)%nat).
    { apply lookup_lt_Some in Hj. now rewrite length_seq in Hj. }
    rewrite lookup_seq_lt in Hj by exact Hlt. injection Hj as <-.
    split; [lia|]. destruct (lookup_lt_is_Some_2 row j Hlt) as [x Hx].
    exists row, x. split; [reflexivity|]. split; [exact Hx|].
    replace (s + j - s)%nat with j by lia. now rewrite lookup_app_l.
  - intros Hhs Hj. destruct (IH _ _ Hhs Hj) as (Hge & row' & x & Hrow & Hx & Hc).
    split; [lia|]. exists row', x. split; [exact Hrow|]. split; [exact Hx|].
    rewrite lookup_app_r by lia.
    now replace (h - s - length row)%nat with (h - (s + length row))%nat by lia.
Qed.

Lemma handles_for_row {A} (rows : list (list A)) (s i : nat) (row : list A) :
  rows !! i = Some row →
  ∃ start, handles_for s rows !! i = Some (seq start (length row)).
Proof.
  revert s i. induction rows as [|row0 rows IH]; intros s [|i]; simpl;
    try discriminate.
  - intros [= <-]. eauto.
  - apply IH.
Qed.

Section DetectedValues.

Context {float world : Type}.
Variable read_tsv : string → result (list (list string)).
Variable os_path_exists : string → bool.
Variable detect_most_likely_adapter :
  string → world → world * result (option string).
Implicit Types args : namespace float.

(** The values detected for the [k]-th group that gets detection are at
    row [k] of the adapters after the phase. *)
Lemma detected_values_at (sched : list nat) args (w : world) (p1 : pool)
    (ads : list adapter_row) (k j : nat) (row : list string) (f : string) :
  well_shaped args →
  detect_phase detect_most_likely_adapter sched args w = (p1, Return ads) →
  detections args !! k = Some row → row !! j = Some f →
  ∃ v w', (detect_most_likely_adapter f w').2 = Return v
    ∧ cell ads (k, j) = Some (str_adapter v).
Proof.
  intros Hws Hphase Hrow Hf.
  destruct (detect_phase_values _ _ _ _ _ _ Hphase)
    as (ret_vals & vs & Hsub & Hvs & Hfold).
  rewrite detect_submit_spec in Hsub, Hvs by exact Hws.
  simpl in Hsub, Hvs. injection Hsub as <-.
  destruct (handles_for_row (detections args) 0 k row Hrow) as [s0 Hhs].
  assert (Hj : (j < length row)%nat) by (eapply lookup_lt_Some; eauto).
  assert (Hh : seq s0 (length row) !! j = Some (s0 + j)%nat)
    by now apply lookup_seq_lt.
  destruct (handles_for_file _ _ _ _ _ _ Hhs Hh)
    as (_ & row' & f' & Hrow' & Hf' & Hqueue).
  rewrite Hrow in Hrow'. injection Hrow' as <-.
  rewrite Hf in Hf'. injection Hf' as <-.
  assert (Hkey : ((k, j), (s0 + j)%nat)
                 ∈ enumerate2 (handles_for 0 (detections args))).
  { apply enumerate2_lookup. eauto. }
  apply list_elem_of_lookup in Hkey as [idx Hidx].
  destruct (Forall2_lookup_l _ _ _ _ _ Hvs Hidx)
    as (v & Hv & f' & w' & Hf' & Hdet).
  simpl in Hf'. rewrite Nat.sub_0_r in Hqueue. rewrite Hqueue in Hf'.
  injection Hf' as <-. exists v, w'. split; [exact Hdet|].
  destruct (fold_record_adapter _ _ _ Hfold) as [_ Hcells].
  assert (Hlen : length (enumerate2 (handles_for 0 (detections args))).*1
                 = length vs).
  { rewrite length_fmap. eapply Forall2_length, Hvs. }
  apply Hcells.
  - rewrite fst_zip by lia. apply enumerate2_keys_nodup.
  - apply list_elem_of_lookup. exists idx. apply lookup_zip_Some.
    split; [|exact Hv]. now rewrite list_lookup_fmap, Hidx.
Qed.

Lemma detections_all_from args (n i : nat) :
  well_shaped args →
  Forall (λ ad, group_detects (auto_detect_adapter args) ad = true)
    (adapters args) →
  (i + n ≤ length (fastqs args))%nat →
  concat (detection_of args <$> seq i n) = take n (drop i (fastqs args)).
Proof.
  intros Hws Hall. revert i. induction n as [|n IH]; intros i Hi;
    [reflexivity|].
  destruct (well_shaped_lookup args i Hws) as (row & ad & Hrow & Had & _);
    [lia|].
  cbn [seq]. rewrite fmap_cons. cbn [concat]. rewrite IH by lia.
  unfold detection_of. rewrite Hrow, Had.
  rewrite Forall_forall in Hall.
  rewrite Hall by (apply list_elem_of_lookup; eauto).
  rewrite (drop_S _ _ _ Hrow). simpl. reflexivity.
Qed.

(** X14. When every group gets detection (as when auto-detection is on
    and no adapter is given), the adapter of every slot after the
    detection phase is the string of a value the detector returned for
    the file of that slot: the adapter matrix is filled in place,
    position by position. *)
Theorem detected_adapters_in_place (sched : list nat) (cl : cmdline float)
    args (w : world) (p1 : pool) (ads : list adapter_row) :
  parse_arguments read_tsv os_path_exists cl = Return args →
  Forall (λ ad, group_detects (auto_detect_adapter args) ad = true)
    (adapters args) →
  detect_phase detect_most_likely_adapter sched args w = (p1, Return ads) →
  ∀ i j row f, fastqs args !! i = Some row → row !! j = Some f →
    ∃ v w', (detect_most_likely_adapter f w').2 = Return v
      ∧ cell ads (i, j) = Some (str_adapter v).
Proof.
  intros Hparse Hall Hphase i j row f Hrow Hf.
  destruct (parse_arguments_well_shaped _ _ _ _ Hparse) as [Hws _].
  apply (detected_values_at sched args w p1 ads i j row f Hws Hphase);
    [|exact Hf].
  unfold detections.
  rewrite (detections_all_from args _ 0 Hws Hall) by lia.
  now rewrite drop_0, firstn_all.
Qed.

End DetectedValues.

(** ** Adapters in a TSV *)

Section AdapterTsv.

Context {float : Type}.
Variable read_tsv : string → result (list (list string)).
Variable os_path_exists : string → bool.

(** X15. An adapter TSV without rows counts as no adapters at all: the
    command line parses as it does without [--adapters], every adapter
    the empty string. *)
Theorem empty_adapter_tsv_as_none (cl : cmdline float) (a0 : string)
    (others : list string) :
  arg_adapters cl = Some (a0 :: others) →
  os_path_exists a0 = true →
  read_tsv a0 = Return [] →
  parse_arguments read_tsv os_path_exists cl
  = parse_arguments read_tsv os_path_exists (without_adapters cl).
Proof.
  intros Hgiven Hexists Hread. unfold parse_arguments.
  cbn [without_adapters arg_fastqs arg_adapters arg_paired_end
       arg_auto_detect_adapter arg_min_trim_len arg_err_rate arg_nth
       arg_out_dir arg_out_tsv].
  rewrite Hgiven.
  destruct (parse_fastqs read_tsv (arg_fastqs cl)) as [fastqs0|e];
    [|reflexivity].
  cbn [bind parse_adapters]. rewrite Hexists, Hread. reflexivity.
Qed.

(** X16. When the first token of [--adapters] is an existing file, the
    adapters are the rows of that TSV and the other tokens are not
    read; the fastq matrix stays the one parsed from the fastqs.  A TSV
    with a row is accepted exactly when it keeps the shape contract
    with the fastq matrix, and is refused with one of the three shape
    messages otherwise. *)
Theorem adapter_tsv_kept (cl : cmdline float) (a0 : string)
    (others : list string) (fastqs0 : list (list string))
    (row : list string) (rows : list (list string)) :
  arg_adapters cl = Some (a0 :: others) →
  os_path_exists a0 = true →
  read_tsv a0 = Return (row :: rows) →
  parse_fastqs read_tsv (arg_fastqs cl) = Return fastqs0 →
  (¬ shape_violation (arg_paired_end cl) fastqs0 (row_list <$> row :: rows) →
   parse_arguments read_tsv os_path_exists cl
   = Return {|
       fastqs := fastqs0;
       adapters := row_list <$> row :: rows;
       auto_detect_adapter := arg_auto_detect_adapter cl;
       min_trim_len := arg_min_trim_len cl;
       err_rate := arg_err_rate cl;
       paired_end := arg_paired_end cl;
       nth := arg_nth cl;
       out_dir := arg_out_dir cl;
       out_tsv := arg_out_tsv cl |})
  ∧ (shape_violation (arg_paired_end cl) fastqs0 (row_list <$> row :: rows) →
     ∃ msg, shape_message msg
       ∧ parse_arguments read_tsv os_path_exists cl
         = Raise (ArgumentTypeError msg)).
Proof.
  intros Hgiven Hexists Hread Hfastqs.
  assert (Hparse : ∀ r,
            check_dimension (arg_paired_end cl) fastqs0
              (row_list <$> row :: rows) = r →
            parse_arguments read_tsv os_path_exists cl
            = (_ <- r ;;
               Return {|
                 fastqs := fastqs0;
                 adapters := row_list <$> row :: rows;
                 auto_detect_adapter := arg_auto_detect_adapter cl;
                 min_trim_len := arg_min_trim_len cl;
                 err_rate := arg_err_rate cl;
                 paired_end := arg_paired_end cl;
                 nth := arg_nth cl;
                 out_dir := arg_out_dir cl;
                 out_tsv := arg_out_tsv cl |})%result).
  { intros r <-. unfold parse_arguments. rewrite Hfastqs, Hgiven.
    cbn [bind parse_adapters]. rewrite Hexists, Hread. reflexivity. }
  split.
  - intros Hshape. rewrite (Hparse _ (check_dimension_accepts _ _ _ Hshape)).
    reflexivity.
  - intros Hshape.
    destruct (check_dimension_violation _ _ _ Hshape) as (msg & Hmsg & Hcheck).
    exists msg. split; [exact Hmsg|]. rewrite (Hparse _ Hcheck). reflexivity.
Qed.

End AdapterTsv.

(** ** Outputs of different tasks *)

Section Collisions.

Context {float : Type} (str_float : float → string).
Variable strip_ext_fastq : string → string.

Lemma se_output_join (fastq adapter : string) (min_trim_len : Z)
    (err_rate : float) (out_dir : string) :
  (trim_adapter_se str_float strip_ext_fastq fastq adapter min_trim_len
     err_rate out_dir).2
  = os_path_join out_dir (output_name strip_ext_fastq adapter fastq)
  ∧ has_sep (output_name strip_ext_fastq adapter fastq) = false.
Proof.
  unfold trim_adapter_se, output_name. destruct (truthy adapter); cbn [snd].
  - destruct (trimmed_path_name strip_ext_fastq out_dir fastq)
      as (Hpath & Hsep & _).
    unfold trimmed_path in Hpath. split; assumption.
  - split; [reflexivity|apply basename_no_sep].
Qed.

(** X17. The directories of the inputs do not tell the outputs apart:
    two single-end trim tasks with the same output directory return
    the same path exactly when they give their outputs the same name,
    the basename of the input for a pass-through and the basename
    without the fastq extension followed by [.trim.fastq.gz] for a
    trim.  In particular two pass-through inputs with the same
    basename in different directories are linked to the same path. *)
Theorem se_outputs_collide (fastq1 fastq2 adapter1 adapter2 : string)
    (min_trim_len1 min_trim_len2 : Z) (err_rate1 err_rate2 : float)
    (out_dir : string) :
  (trim_adapter_se str_float strip_ext_fastq fastq1 adapter1 min_trim_len1
     err_rate1 out_dir).2
  = (trim_adapter_se str_float strip_ext_fastq fastq2 adapter2 min_trim_len2
       err_rate2 out_dir).2
  ↔ output_name strip_ext_fastq adapter1 fastq1
    = output_name strip_ext_fastq adapter2 fastq2.
Proof.
  destruct (se_output_join fastq1 adapter1 min_trim_len1 err_rate1 out_dir)
    as [-> Hsep1].
  destruct (se_output_join fastq2 adapter2 min_trim_len2 err_rate2 out_dir)
    as [-> Hsep2].
  split.
  - intros Hsame. apply (f_equal basename) in Hsame.
    rewrite !os_path_join_name in Hsame by assumption. exact Hsame.
  - intros ->. reflexivity.
Qed.

End Collisions.

(** ** The further properties on examples *)

Lemma first_violation_decides_error_witness :
  ∃ row,
    [["a_R1.fastq.gz"; "a_R2.fastq.gz"]; ["b_R1.fastq.gz"]] !! 1%nat = Some row
    ∧ check_dimension true
        [["a_R1.fastq.gz"; "a_R2.fastq.gz"]; ["b_R1.fastq.gz"]]
        [row_list [""; ""]; row_list [""]]
      = Raise (ArgumentTypeError (violation_message true row)).
Proof.
  exact (first_violation_decides_error true
           [["a_R1.fastq.gz"; "a_R2.fastq.gz"]; ["b_R1.fastq.gz"]]
           [row_list [""; ""]; row_list [""]] 2 eq_refl eq_refl).
Defined.

Lemma inline_single_end_accepted_witness :
  let cl := Demo.cmd ["a/r1.fastq.gz"; "b/r2.fastq.gz"] None false false 4 in
  ∃ args, parse_arguments Demo.no_tsv Demo.no_file cl = Return args
    ∧ fastqs args = [["a/r1.fastq.gz"]; ["b/r2.fastq.gz"]]
    ∧ adapters args = [row_list [""]; row_list [""]]
    ∧ ¬ shape_violation false (fastqs args) (adapters args).
Proof.
  exact (inline_single_end_accepted Demo.no_tsv Demo.no_file
           (Demo.cmd ["a/r1.fastq.gz"; "b/r2.fastq.gz"] None false false 4)
           "a/r1.fastq.gz" ["b/r2.fastq.gz"] eq_refl eq_refl eq_refl eq_refl).
Defined.

Lemma inline_adapters_one_letter_only_witness :
  let args := Demo.batch [["A"]] [] false false 1 in
  paired_end args = false
  ∧ [["A"]] = [["A"]]
  ∧ Forall (λ a, String.length a = 1%nat) ["A"].
Proof.
  exact (inline_adapters_one_letter_only Demo.no_tsv Demo.no_file
           (Demo.cmd ["r1.fastq.gz"] (Some ["A"]) false false 1)
           {| fastqs := [["A"]]; adapters := [row_str "A"];
              auto_detect_adapter := false; min_trim_len := 5;
              err_rate := "0.1"; paired_end := false; nth := 1;
              out_dir := "out"; out_tsv := "out.tsv" |}
           "A" [] eq_refl eq_refl eq_refl).
Defined.

Lemma no_process_no_batch_witness :
  Demo.main (λ _, Return None) Demo.never Demo.no_tsv Demo.no_file [] []
    (Demo.cmd ["a/r1.fastq.gz"] None false false 0)
  = {| last := []; log := [mkdir_p_called "out"]; exit := Raise ValueError |}.
Proof.
  exact (no_process_no_batch Demo.str_float Demo.strip_ext_fastq Demo.no_tsv
           Demo.no_file (Demo.run_call Demo.never)
           (Demo.detect (λ _, Return None)) Demo.mkdir_p Demo.write_tsv [] []
           (Demo.cmd ["a/r1.fastq.gz"] None false false 0)
           (Demo.batch [["a/r1.fastq.gz"]] [[""]] false false 0)
           [] [] eq_refl (or_intror eq_refl) eq_refl).
Defined.

Lemma only_helpers_raise_witness :
  let cl := Demo.cmd ["a/r1.fastq.gz"; "b/r2.fastq.gz"] None false false 4 in
  let r := Demo.main (λ _, Return None) first_link_fails Demo.no_tsv
             Demo.no_file [] [1; 0]%nat cl in
  let e := Exception "helper failed" in
  (Demo.mkdir_p "out" []).2 = Raise e
  ∨ (2 < 1 ∧ e = ValueError)
  ∨ (∃ ph h, task_done ph h (Some e) ∈ log r)
  ∨ (∃ tsv rows w2, write_tsv_called tsv rows ∈ log r
                    ∧ (Demo.write_tsv tsv rows w2).2 = Raise e).
Proof.
  exact (only_helpers_raise Demo.str_float Demo.strip_ext_fastq Demo.no_tsv
           Demo.no_file (Demo.run_call first_link_fails)
           (Demo.detect (λ _, Return None)) Demo.mkdir_p Demo.write_tsv
           [] [1; 0]%nat
           (Demo.cmd ["a/r1.fastq.gz"; "b/r2.fastq.gz"] None false false 4)
           (Demo.batch [["a/r1.fastq.gz"]; ["b/r2.fastq.gz"]] [[""]; [""]]
              false false 4)
           [] (Exception "helper failed") eq_refl eq_refl).
Defined.

Lemma manifest_without_detection_witness :
  let cl := Demo.cmd ["a/r1.fastq.gz"; "b/r2.fastq.gz"] None false false 4 in
  let args := Demo.batch [["a/r1.fastq.gz"]; ["b/r2.fastq.gz"]] [[""]; [""]]
                false false 4 in
  let r := Demo.main (λ _, Return None) Demo.never Demo.no_tsv Demo.no_file
             [] [1; 0]%nat cl in
  ∃ before rows,
    log r = before ++ [write_tsv_called "out/out.tsv" rows]
    ∧ length rows = 2%nat
    ∧ ∀ i row, rows !! i = Some row →
        trimmed_row Demo.str_float Demo.strip_ext_fastq args i = Some row.
Proof.
  apply (manifest_without_detection Demo.str_float Demo.strip_ext_fastq
           Demo.no_tsv Demo.no_file (Demo.run_call Demo.never)
           (Demo.detect (λ _, Return None)) Demo.mkdir_p Demo.write_tsv
           [] [1; 0]%nat
           (Demo.cmd ["a/r1.fastq.gz"; "b/r2.fastq.gz"] None false false 4)
           (Demo.batch [["a/r1.fastq.gz"]; ["b/r2.fastq.gz"]] [[""]; [""]]
              false false 4)
           [] eq_refl); [|reflexivity].
  repeat constructor.
Defined.

Lemma inline_single_end_manifest_witness :
  let cl := Demo.cmd ["a/r1.fastq.gz"; "b/r2.fastq.gz"] None false false 4 in
  let r := Demo.main (λ _, Return None) Demo.never Demo.no_tsv Demo.no_file
             [] [1; 0]%nat cl in
  ∃ before,
    log r = before
            ++ [write_tsv_called "out/out.tsv"
                  [["out/r1.fastq.gz"]; ["out/r2.fastq.gz"]]].
Proof.
  exact (inline_single_end_manifest Demo.str_float Demo.strip_ext_fastq
           Demo.no_tsv Demo.no_file (Demo.run_call Demo.never)
           (Demo.detect (λ _, Return None)) Demo.mkdir_p Demo.write_tsv
           [] [1; 0]%nat
           (Demo.cmd ["a/r1.fastq.gz"; "b/r2.fastq.gz"] None false false 4)
           "a/r1.fastq.gz" ["b/r2.fastq.gz"] []
           eq_refl eq_refl eq_refl eq_refl eq_refl eq_refl).
Defined.

Lemma detection_before_trimming_witness :
  (∀ h' e',
     task_done detection h' e'
     ∉ [task_done trimming 0 None;
        write_tsv_called "out/out.tsv"
          [["out/r1.trim.fastq.gz"]; ["out/r2.trim.fastq.gz"]]])
  ∧ (∀ h', (h' < 2)%nat →
       task_done detection h' None
       ∈ [mkdir_p_called "out"; pool_made 2;
          task_done detection 1 None; task_done detection 0 None]).
Proof.
  exact (detection_before_trimming Demo.str_float Demo.strip_ext_fastq
           Demo.no_tsv Demo.no_file (Demo.run_call Demo.never)
           (Demo.detect (λ _, Return (Some "CTGTCTCTTATA")))
           Demo.mkdir_p Demo.write_tsv [1; 0]%nat [1; 0]%nat
           (Demo.cmd ["a/r1.fastq.gz"; "b/r2.fastq.gz"] None true false 4)
           (Demo.batch [["a/r1.fastq.gz"]; ["b/r2.fastq.gz"]] [[""]; [""]]
              true false 4)
           []
           [mkdir_p_called "out"; pool_made 2;
            task_done detection 1 None; task_done detection 0 None]
           [task_done trimming 0 None;
            write_tsv_called "out/out.tsv"
              [["out/r1.trim.fastq.gz"]; ["out/r2.trim.fastq.gz"]]]
           1%nat None eq_refl eq_refl).
Defined.

Lemma manifest_independent_of_schedule_witness :
  let cl := Demo.cmd ["a/r1.fastq.gz"; "b/r2.fastq.gz"] None true false 4 in
  let answer := λ _ : string, Return (Some "CTGTCTCTTATA") in
  ∃ tsv rows before before',
    log (Demo.main answer Demo.never Demo.no_tsv Demo.no_file [] [] cl)
    = before ++ [write_tsv_called tsv rows]
    ∧ log (Demo.main answer Demo.never Demo.no_tsv Demo.no_file
             [1; 0]%nat [1; 0]%nat cl)
      = before' ++ [write_tsv_called tsv rows].
Proof.
  exact (manifest_independent_of_schedule Demo.str_float Demo.strip_ext_fastq
           Demo.no_tsv Demo.no_file (Demo.run_call Demo.never)
           (Demo.detect (λ _, Return (Some "CTGTCTCTTATA")))
           Demo.mkdir_p Demo.write_tsv
           (λ _, Return (Some "CTGTCTCTTATA"))
           [] [] [1; 0]%nat [1; 0]%nat
           (Demo.cmd ["a/r1.fastq.gz"; "b/r2.fastq.gz"] None true false 4)
           [] [] (λ _ _, eq_refl) eq_refl eq_refl).
Defined.

Lemma default_adapters_fit_witness :
  parse_arguments two_one_tsv Demo.no_file
    (Demo.cmd ["fastqs.tsv"] None false true 2)
  = Raise (ArgumentTypeError (arity_message true)).
Proof.
  exact (default_adapters_fit two_one_tsv Demo.no_file
           (Demo.cmd ["fastqs.tsv"] None false true 2)
           [["a_R1.fastq.gz"; "a_R2.fastq.gz"]; ["b_R1.fastq.gz"]]
           eq_refl eq_refl).
Defined.

Lemma detected_adapters_in_place_witness :
  ∃ v w',
    (Demo.detect (λ f : string,
       Return (if String.eqb f "a/r1.fastq.gz"
               then Some "CTGTCTCTTATA" else None)) "b/r2.fastq.gz" w').2
    = Return v
    ∧ cell [row_list ["CTGTCTCTTATA"]; row_list ["None"]] (1%nat, 0%nat)
      = Some (str_adapter v).
Proof.
  apply (detected_adapters_in_place Demo.no_tsv Demo.no_file
           (Demo.detect (λ f : string,
              Return (if String.eqb f "a/r1.fastq.gz"
                      then Some "CTGTCTCTTATA" else None)))
           [1; 0]%nat
           (Demo.cmd ["a/r1.fastq.gz"; "b/r2.fastq.gz"] None true false 4)
           (Demo.batch [["a/r1.fastq.gz"]; ["b/r2.fastq.gz"]] [[""]; [""]]
              true false 4)
           []
           (detect_phase (Demo.detect (λ f : string,
              Return (if String.eqb f "a/r1.fastq.gz"
                      then Some "CTGTCTCTTATA" else None)))
              [1; 0]%nat
              (Demo.batch [["a/r1.fastq.gz"]; ["b/r2.fastq.gz"]] [[""]; [""]]
                 true false 4) []).1
           [row_list ["CTGTCTCTTATA"]; row_list ["None"]]
           eq_refl) with (i := 1%nat) (row := ["b/r2.fastq.gz"]);
    [|reflexivity|reflexivity|reflexivity].
  repeat constructor.
Defined.

Lemma empty_adapter_tsv_as_none_witness :
  parse_arguments adapter_tsvs adapter_tsvs_exist
    (Demo.cmd ["a/r1.fastq.gz"] (Some ["empty.tsv"]) false false 1)
  = parse_arguments adapter_tsvs adapter_tsvs_exist
      (without_adapters
         (Demo.cmd ["a/r1.fastq.gz"] (Some ["empty.tsv"]) false false 1)).
Proof.
  exact (empty_adapter_tsv_as_none adapter_tsvs adapter_tsvs_exist
           (Demo.cmd ["a/r1.fastq.gz"] (Some ["empty.tsv"]) false false 1)
           "empty.tsv" [] eq_refl eq_refl eq_refl).
Defined.

Lemma adapter_tsv_kept_witness :
  parse_arguments adapter_tsvs adapter_tsvs_exist
    (Demo.cmd ["a/r1.fastq.gz"] (Some ["adapters.tsv"; "ignored"])
       false false 1)
  = Return (Demo.batch [["a/r1.fastq.gz"]] [["AGATCGGAAGAGC"]] false false 1).
Proof.
  refine (proj1 (adapter_tsv_kept adapter_tsvs adapter_tsvs_exist
                   (Demo.cmd ["a/r1.fastq.gz"]
                      (Some ["adapters.tsv"; "ignored"]) false false 1)
                   "adapters.tsv" ["ignored"] [["a/r1.fastq.gz"]]
                   ["AGATCGGAAGAGC"] [] eq_refl eq_refl eq_refl eq_refl) _).
  intros [Hlen|[(i & row & Hrow & Harity)|(i & row & ad & Hrow & Had & Hne)]].
  - apply Hlen. reflexivity.
  - destruct i as [|i]; [|discriminate Hrow].
    injection Hrow as <-. apply Harity. reflexivity.
  - destruct i as [|i]; [|discriminate Hrow].
    injection Hrow as <-. injection Had as <-. apply Hne. reflexivity.
Defined.
